(** * Schema-Builder: the schema normalizer, the variant grouper, the
      robustness run, the requirement highlighter and the page.

    Shallow embedding of [App.tsx] ([normalizeSchema],
    [handleRobustnessTest], [RobustnessScoreDisplay],
    [handleGenerateSchema], [handleEditRequirements] and the conditions
    under which the controls are rendered), of
    [generateSchemaFromRequirements] and [runRobustnessTest] in
    [services/geminiService.ts], of
    [components/RequirementHighlighter.tsx] and of the hover logic of
    [components/SchemaDisplay.tsx].

    Conventions.
    - A JavaScript string is the sequence of its UTF-16 code units.
    - The host functions the code calls ([String.prototype.trim],
      [Array.prototype.sort], [JSON.stringify], [String.prototype.split],
      [Promise.all]) are written out after ECMA-262.
    - [String.prototype.localeCompare] and the case mappings depend on the
      host's locale data: they are Section variables, with the laws
      ECMA-262 imposes on them as hypotheses. *)

From Stdlib Require Import List ZArith NArith QArith Bool Lia.
From Stdlib Require Import Permutation Sorted String Ascii.
Import ListNotations.
Close Scope Q_scope.

Set Implicit Arguments.

(* ================================================================= *)
(** ** JavaScript strings *)

Definition codeunit := N.
Definition jsstring := list codeunit.

(** An ASCII literal as a JavaScript string. *)
Definition js (s : string) : jsstring :=
  List.map N_of_ascii (list_ascii_of_string s).

Definition jsstring_eq_dec : forall a b : jsstring, {a = b} + {a <> b} :=
  list_eq_dec N.eq_dec.

Definition jsstring_eqb (a b : jsstring) : bool :=
  if jsstring_eq_dec a b then true else false.

(** WhiteSpace and LineTerminator code points of ECMA-262 (all of them
    lie in the basic plane, so they are single code units). *)
Definition isWhiteSpace (c : codeunit) : bool :=
  ((9 <=? c) && (c <=? 13) || (c =? 32) || (c =? 160) || (c =? 5760)
   || (8192 <=? c) && (c <=? 8202) || (c =? 8232) || (c =? 8233)
   || (c =? 8239) || (c =? 8287) || (c =? 12288) || (c =? 65279))%N.

Fixpoint trimStart (s : jsstring) : jsstring :=
  match s with
  | [] => []
  | c :: r => if isWhiteSpace c then trimStart r else s
  end.

Definition trimEnd (s : jsstring) : jsstring := rev (trimStart (rev s)).

(** [String.prototype.trim]. *)
Definition trim (s : jsstring) : jsstring := trimEnd (trimStart s).

(* ================================================================= *)
(** ** Untyped values coming back from the generation call *)

(** The response is parsed JSON cast to the declared types, so a property
    declared [string] may hold any value.  [JObject] stands for every
    object, array included; of a number only its being zero matters. *)
Inductive JsValue : Type :=
| JUndefined
| JNull
| JBool (b : bool)
| JNum (n : Z)
| JStr (s : jsstring)
| JObject.

Definition truthy (v : JsValue) : bool :=
  match v with
  | JUndefined | JNull => false
  | JBool b => b
  | JNum n => negb (n =? 0)%Z
  | JStr s => match s with [] => false | _ => true end
  | JObject => true
  end.

Definition typeof_string (v : JsValue) : bool :=
  match v with JStr _ => true | _ => false end.

(** [const safeString = (s: any): string =>
      (s && typeof s === 'string') ? s.trim() : '';] *)
Definition safeString (s : JsValue) : jsstring :=
  if truthy s && typeof_string s
  then match s with JStr x => trim x | _ => [] end
  else [].

(* ================================================================= *)
(** ** Data model ([types.ts]) *)

(** [None] for a sequence is a missing, [undefined] or [null] property. *)
Record Field : Type := mkField {
  fName : JsValue;
  fType : JsValue;
  fDescription : JsValue;
  fRelevantRequirements : list JsValue
}.

Record Collection : Type := mkCollection {
  cName : JsValue;
  cDescription : JsValue;
  cFields : option (list Field);
  cRelevantRequirements : list JsValue
}.

Record Schema : Type := mkSchema {
  collections : option (list Collection)
}.

(** The object literals [normalizeSchema] builds. *)
Record NField : Type := mkNField {
  nfName : jsstring;
  nfType : jsstring
}.

Record NCollection : Type := mkNCollection {
  ncName : jsstring;
  ncFields : list NField
}.

Record NSchema : Type := mkNSchema {
  nCollections : list NCollection
}.

(** [x || []] *)
Definition orEmpty {A : Type} (x : option (list A)) : list A :=
  match x with Some l => l | None => [] end.

(* ================================================================= *)
(** ** [Array.prototype.sort] *)

(** Since ES2019 the sort is stable; with a consistent comparator its
    result is the one stable arrangement, computed here by insertion. *)
Section Sort.
Variable A : Type.
Variable cmp : A -> A -> Z.

Fixpoint insertBy (x : A) (l : list A) : list A :=
  match l with
  | [] => [x]
  | y :: r => if (cmp x y <=? 0)%Z then x :: l else y :: insertBy x r
  end.

Definition sortBy (l : list A) : list A := fold_right insertBy [] l.

(** A consistent comparator (ECMA-262, Array.prototype.sort): the sign
    of [cmp x y] is opposite to that of [cmp y x], and "not after" is
    transitive. *)
Definition consistentComparator : Prop :=
  (forall x y, (cmp x y < 0 <-> 0 < cmp y x)%Z)
  /\ (forall x y z, (cmp x y <= 0 -> cmp y z <= 0 -> cmp x z <= 0)%Z).

(** [x] is not placed after [y]. *)
Definition notAfter (x y : A) : Prop := (cmp x y <= 0)%Z.
End Sort.

(* ================================================================= *)
(** ** [JSON.stringify] on the normalized object *)

Definition dquote : codeunit := 34%N.
Definition backslash : codeunit := 92%N.

Definition hexDigit (d : N) : codeunit :=
  (if d <? 10 then 48 + d else 87 + d)%N.

(** [UnicodeEscape]: a backslash, [u] and four lowercase hex digits. *)
Definition unicodeEscape (c : codeunit) : jsstring :=
  [backslash; 117%N;
   hexDigit (c / 4096 mod 16); hexDigit (c / 256 mod 16);
   hexDigit (c / 16 mod 16); hexDigit (c mod 16)]%N.

Definition isLeadingSurrogate (c : codeunit) : bool :=
  ((55296 <=? c) && (c <=? 56319))%N.
Definition isTrailingSurrogate (c : codeunit) : bool :=
  ((56320 <=? c) && (c <=? 57343))%N.

(** One code point that is not part of a surrogate pair. *)
Definition quoteUnit (c : codeunit) : jsstring :=
  (if c =? 8 then [backslash; 98]
   else if c =? 9 then [backslash; 116]
   else if c =? 10 then [backslash; 110]
   else if c =? 12 then [backslash; 102]
   else if c =? 13 then [backslash; 114]
   else if c =? 34 then [backslash; 34]
   else if c =? 92 then [backslash; 92]
   else if (c <? 32) || isLeadingSurrogate c || isTrailingSurrogate c
        then unicodeEscape c
   else [c])%N.

(** The body of [QuoteJSONString]: the string is read code point by code
    point, so a well-formed surrogate pair is copied and a lone surrogate
    is escaped. *)
Fixpoint quoteBody (s : jsstring) : jsstring :=
  match s with
  | [] => []
  | c :: r =>
      if isLeadingSurrogate c then
        match r with
        | d :: r' =>
            if isTrailingSurrogate d then c :: d :: quoteBody r'
            else quoteUnit c ++ quoteBody r
        | [] => quoteUnit c
        end
      else quoteUnit c ++ quoteBody r
  end.

Definition quoteJSONString (s : jsstring) : jsstring :=
  dquote :: quoteBody s ++ [dquote].

(** Reading a quoted string back, up to and including its closing quote:
    the inverse used to show that the encoding loses nothing. *)
Definition hexValue (c : codeunit) : N :=
  (if c <? 58 then c - 48 else c - 87)%N.

Definition unescape (x : codeunit) : codeunit :=
  (if x =? 98 then 8
   else if x =? 116 then 9
   else if x =? 110 then 10
   else if x =? 102 then 12
   else if x =? 114 then 13
   else x)%N.

Definition consFst (c : codeunit) (p : jsstring * jsstring)
  : jsstring * jsstring := (c :: fst p, snd p).

Fixpoint readQuoted (out : jsstring) : option (jsstring * jsstring) :=
  match out with
  | [] => None
  | c :: out1 =>
      if (c =? 34)%N then Some ([], out1)
      else if (c =? 92)%N then
        match out1 with
        | [] => None
        | x :: out2 =>
            if (x =? 117)%N then
              match out2 with
              | h1 :: h2 :: h3 :: h4 :: out3 =>
                  option_map
                    (consFst (4096 * hexValue h1 + 256 * hexValue h2
                              + 16 * hexValue h3 + hexValue h4)%N)
                    (readQuoted out3)
              | _ => None
              end
            else option_map (consFst (unescape x)) (readQuoted out2)
        end
      else option_map (consFst c) (readQuoted out1)
  end.

(** Encoders whose output can be split off the front of a longer string
    in one way only. *)
Definition prefixFree (A : Type) (enc : A -> jsstring) : Prop :=
  forall a b r r', enc a ++ r = enc b ++ r' -> a = b /\ r = r'.

(** A property key followed by its colon. *)
Definition jsonKey (k : string) : jsstring :=
  dquote :: js k ++ [dquote; 58%N].

Fixpoint joinComma (items : list jsstring) : jsstring :=
  match items with
  | [] => []
  | [x] => x
  | x :: r => x ++ 44%N :: joinComma r
  end.

Definition jsonArray (items : list jsstring) : jsstring :=
  91%N :: joinComma items ++ [93%N].

Definition stringifyNField (f : NField) : jsstring :=
  123%N :: jsonKey "name" ++ quoteJSONString (nfName f)
    ++ 44%N :: jsonKey "type" ++ quoteJSONString (nfType f) ++ [125%N].

Definition stringifyNCollection (c : NCollection) : jsstring :=
  123%N :: jsonKey "name" ++ quoteJSONString (ncName c)
    ++ 44%N :: jsonKey "fields"
    ++ jsonArray (List.map stringifyNField (ncFields c)) ++ [125%N].

Definition stringifyNSchema (n : NSchema) : jsstring :=
  123%N :: jsonKey "collections"
    ++ jsonArray (List.map stringifyNCollection (nCollections n)) ++ [125%N].

(* ================================================================= *)
(** ** The schema normalizer ([normalizeSchema], App.tsx) *)

Section Normalizer.
(** [a.localeCompare(b)]: negative, zero or positive. *)
Variable localeCompare : jsstring -> jsstring -> Z.

Definition normalizeField (field : Field) : NField :=
  {| nfName := safeString (fName field);
     nfType := safeString (fType field) |}.

Definition compareFields (a b : NField) : Z :=
  localeCompare (nfName a) (nfName b).

Definition compareCollections (a b : NCollection) : Z :=
  localeCompare (ncName a) (ncName b).

Definition normalizeCollection (collection : Collection) : NCollection :=
  let fields := orEmpty (cFields collection) in
  let normalizedFields := List.map normalizeField fields in
  {| ncName := safeString (cName collection);
     ncFields := sortBy compareFields normalizedFields |}.

Definition normalizeSchema (schema : Schema) : NSchema :=
  let normalizedCollections :=
    List.map normalizeCollection (orEmpty (collections schema)) in
  {| nCollections := sortBy compareCollections normalizedCollections |}.

(** [JSON.stringify(normalizeSchema(schema))], the comparison key. *)
Definition normalizedString (schema : Schema) : jsstring :=
  stringifyNSchema (normalizeSchema schema).
End Normalizer.

(** A host without locale data compares code unit by code unit; this
    collation serves for the concrete runs below. *)
Fixpoint codeUnitCompare (a b : jsstring) : Z :=
  match a, b with
  | [], [] => 0
  | [], _ :: _ => -1
  | _ :: _, [] => 1
  | x :: a', y :: b' =>
      match N.compare x y with
      | Eq => codeUnitCompare a' b'
      | Lt => -1
      | Gt => 1
      end
  end%Z.

(** *** Vocabulary of the normalizer's contract *)

Definition collectionsOf (s : Schema) : list Collection :=
  orEmpty (collections s).

Definition fieldsOf (c : Collection) : list Field := orEmpty (cFields c).

(** Names and types as the comparison sees them: trimmed. *)
Definition collectionNames (s : Schema) : list jsstring :=
  List.map (fun c => safeString (cName c)) (collectionsOf s).

Definition fieldNames (c : Collection) : list jsstring :=
  List.map (fun f => safeString (fName f)) (fieldsOf c).

Definition fieldPairs (c : Collection) : list (jsstring * jsstring) :=
  List.map (fun f => (safeString (fName f), safeString (fType f)))
           (fieldsOf c).

Definition sameSet (A : Type) (l1 l2 : list A) : Prop :=
  forall x, In x l1 <-> In x l2.

(** The same set of collection names and, for collections of the same
    name, the same set of field (name, type) pairs. *)
Definition sameStructure (s1 s2 : Schema) : Prop :=
  sameSet (collectionNames s1) (collectionNames s2)
  /\ (forall c1 c2,
        In c1 (collectionsOf s1) -> In c2 (collectionsOf s2) ->
        safeString (cName c1) = safeString (cName c2) ->
        sameSet (fieldPairs c1) (fieldPairs c2)).

(** No two names of the list collate as equal. *)
Definition distinctUnder (localeCompare : jsstring -> jsstring -> Z)
    (names : list jsstring) : Prop :=
  ForallOrdPairs (fun a b => localeCompare a b <> 0%Z) names.

(** The invariant the data model expects: collection names are unique in
    the schema and field names are unique in each collection. *)
Definition uniqueNames (localeCompare : jsstring -> jsstring -> Z)
    (s : Schema) : Prop :=
  distinctUnder localeCompare (collectionNames s)
  /\ Forall (fun c => distinctUnder localeCompare (fieldNames c))
            (collectionsOf s).

(** [s'] lists the collections of [s] in another order, each with its
    fields in another order. *)
Definition permutedCollection (c c' : Collection) : Prop :=
  cName c' = cName c /\ Permutation (fieldsOf c) (fieldsOf c').

Definition permutedSchema (s s' : Schema) : Prop :=
  exists cs, Permutation (collectionsOf s) cs
             /\ Forall2 permutedCollection cs (collectionsOf s').

(** [s'] rebuilds the normalized object [n] as a Schema: the same names
    and types in the same order, with any descriptive text. *)
Definition rebuildsField (f : Field) (nf : NField) : Prop :=
  fName f = JStr (nfName nf) /\ fType f = JStr (nfType nf).

Definition rebuildsCollection (c : Collection) (nc : NCollection) : Prop :=
  cName c = JStr (ncName nc)
  /\ exists fs, cFields c = Some fs /\ Forall2 rebuildsField fs (ncFields nc).

Definition rebuilds (s' : Schema) (n : NSchema) : Prop :=
  exists cs, collections s' = Some cs
             /\ Forall2 rebuildsCollection cs (nCollections n).

(** A rebuilding with no descriptive text at all. *)
Definition reconstruct (n : NSchema) : Schema :=
  mkSchema (Some (List.map (fun nc =>
    mkCollection (JStr (ncName nc)) JUndefined
      (Some (List.map (fun nf =>
         mkField (JStr (nfName nf)) (JStr (nfType nf)) JUndefined [])
         (ncFields nc))) []) (nCollections n))).

(** Well-typed fields and collections, for the sample schemas. *)
Definition field (name type : string) : Field :=
  mkField (JStr (js name)) (JStr (js type)) (JStr []) [].

Definition collection (name : string) (fields : list Field) : Collection :=
  mkCollection (JStr (js name)) (JStr []) (Some fields) [].

(** What every field and collection of a normalized object satisfies:
    names and types are trimmed and the fields are in order. *)
Definition normalField (nf : NField) : Prop :=
  safeString (JStr (nfName nf)) = nfName nf
  /\ safeString (JStr (nfType nf)) = nfType nf.

Definition normalCollection (localeCompare : jsstring -> jsstring -> Z)
    (nc : NCollection) : Prop :=
  safeString (JStr (ncName nc)) = ncName nc
  /\ Forall normalField (ncFields nc)
  /\ sortBy (compareFields localeCompare) (ncFields nc) = ncFields nc.

(** A sample schema with untrimmed names and a degenerate collection. *)
Definition blogSchema : Schema :=
  mkSchema (Some
    [ collection " posts "
        [ field "title" "String"; field " author" "ObjectID";
          field "body" " String " ];
      collection "Users" [ field "email" "String"; field "Email" "String" ];
      mkCollection JNull JUndefined None [] ]).

(** The sample schema again, in another order and with other text. *)
Definition blogSchemaShuffled : Schema :=
  mkSchema (Some
    [ mkCollection (JStr (js "Users")) (JStr (js "accounts"))
        (Some [ mkField (JStr (js "Email")) (JStr (js "String"))
                        (JStr (js "login")) [JStr (js "sign up")];
                field "email" "String" ]) [];
      mkCollection JUndefined JNull (Some []) [];
      collection "posts"
        [ field "body" "String"; field "title" "String";
          field "author" "ObjectID" ] ]).

(** One collection holding the same field twice, and holding it once. *)
Definition usersTwice : Schema :=
  mkSchema (Some [collection "users"
                    [field "id" "String"; field "id" "String"]]).

Definition usersOnce : Schema :=
  mkSchema (Some [collection "users" [field "id" "String"]]).

(** One collection with two fields of the same name and different types,
    in both orders. *)
Definition idStringNumber : Schema :=
  mkSchema (Some [collection "users"
                    [field "id" "String"; field "id" "Number"]]).

Definition idNumberString : Schema :=
  mkSchema (Some [collection "users"
                    [field "id" "Number"; field "id" "String"]]).

(* ================================================================= *)
(** ** The variant grouper ([handleRobustnessTest], App.tsx) *)

Record GeminiResponse : Type := mkResponse {
  schema : option Schema;
  justification : JsValue
}.

(** The value kept in the [Map] and the group shown to the user; [T] is
    the type of the temperature labels. *)
Record GroupEntry (T : Type) : Type := mkEntry {
  geRepresentative : GeminiResponse;
  geTemperatures : list T
}.

Record RobustnessGroup (T : Type) : Type := mkGroup {
  representative : GeminiResponse;
  temperatures : list T;
  count : Z
}.

(** What the handler writes to the console.  [LogSchema] carries the
    normalized string; the console shows it re-indented. *)
Inductive LogEntry (T : Type) : Type :=
| LogBegin
| LogInvalid (temperature : T)
| LogSchema (temperature : T) (normalized : jsstring)
| LogEnd.

Arguments LogBegin {T}.
Arguments LogEnd {T}.

(** [Map<string, ...>]: keys in insertion order. *)
Section JsMap.
Variable V : Type.

Definition JsMap := list (jsstring * V).

Fixpoint mapHas (k : jsstring) (m : JsMap) : bool :=
  match m with
  | [] => false
  | (k', _) :: r => jsstring_eqb k k' || mapHas k r
  end.

(** Mutation of the value stored under [k]; its position is kept. *)
Fixpoint mapModify (k : jsstring) (f : V -> V) (m : JsMap) : JsMap :=
  match m with
  | [] => []
  | (k', v) :: r =>
      if jsstring_eqb k k' then (k', f v) :: r
      else (k', v) :: mapModify k f r
  end.

(** [set]: a new key goes last, a known key keeps its position. *)
Definition mapSet (k : jsstring) (v : V) (m : JsMap) : JsMap :=
  if mapHas k m then mapModify k (fun _ => v) m else m ++ [(k, v)].

Definition mapValues (m : JsMap) : list V := List.map snd m.
End JsMap.

Section Grouper.
Variable localeCompare : jsstring -> jsstring -> Z.
Variable T : Type.

Definition GroupMap := JsMap (GroupEntry T).

(** One call of the [forEach] callback on [response] and
    [temperatures[index]]. *)
Definition processResponse (st : GroupMap * list (LogEntry T))
    (p : option GeminiResponse * T) : GroupMap * list (LogEntry T) :=
  let '(groups, log) := st in
  let '(response, temperature) := p in
  match response with
  | None => (groups, log ++ [LogInvalid temperature])
  | Some r =>
      match schema r with
      | None => (groups, log ++ [LogInvalid temperature])
      | Some s =>
          let key := normalizedString localeCompare s in
          let log' := log ++ [LogSchema temperature key] in
          if mapHas key groups
          then (mapModify key
                  (fun g => mkEntry (geRepresentative g)
                                    (geTemperatures g ++ [temperature]))
                  groups, log')
          else (mapSet key (mkEntry r [temperature]) groups, log')
      end
  end.

Definition collectGroups (pairs : list (option GeminiResponse * T))
  : GroupMap * list (LogEntry T) :=
  let '(groups, log) := fold_left processResponse pairs ([], [LogBegin]) in
  (groups, log ++ [LogEnd]).

Definition withCount (g : GroupEntry T) : RobustnessGroup T :=
  mkGroup (geRepresentative g) (geTemperatures g)
          (Z.of_nat (List.length (geTemperatures g))).

(** [(a, b) => b.count - a.count] *)
Definition bySizeDesc (a b : RobustnessGroup T) : Z :=
  (count b - count a)%Z.

Definition formatGroups (groups : GroupMap) : list (RobustnessGroup T) :=
  sortBy bySizeDesc (List.map withCount (mapValues groups)).

Definition maxCountOf (formattedGroups : list (RobustnessGroup T)) : Z :=
  match formattedGroups with
  | [] => 0%Z
  | g :: _ => count g
  end.

Definition scoreOf (maxCount : Z) : Z :=
  (if maxCount =? 5 then 100
   else if maxCount =? 4 then 75
   else if maxCount =? 3 then 50
   else if maxCount =? 2 then 25
   else 0)%Z.

Record TestResult : Type := mkResult {
  resultGroups : list (RobustnessGroup T);
  resultScore : Z;
  resultLog : list (LogEntry T)
}.

(** The body of the [try] block after the responses have arrived. *)
Definition groupPairs (pairs : list (option GeminiResponse * T))
  : TestResult :=
  let '(groups, log) := collectGroups pairs in
  let formattedGroups := formatGroups groups in
  mkResult formattedGroups (scoreOf (maxCountOf formattedGroups)) log.
End Grouper.

Arguments processResponse localeCompare {T} st p.
Arguments withCount {T} g.
Arguments bySizeDesc {T} a b.
Arguments formatGroups {T} groups.
Arguments maxCountOf {T} formattedGroups.

(** [const temperatures = [0.5, 0.6, 0.7, 0.8, 0.9];] *)
Definition testTemperatures : list Q := [0.5; 0.6; 0.7; 0.8; 0.9]%Q.

Fixpoint indexed (A : Type) (index : nat) (l : list A) : list (nat * A) :=
  match l with
  | [] => []
  | x :: r => (index, x) :: indexed (S index) r
  end.

(** [responses.forEach((response, index) => ... temperatures[index] ...)];
    an index past the end of [temperatures] reads [undefined], here
    [None]. *)
Definition pairWithTemperatures (responses : list (option GeminiResponse))
  : list (option GeminiResponse * option Q) :=
  List.map (fun ir => (snd ir, nth_error testTemperatures (fst ir)))
           (indexed 0 responses).

Definition groupResponses (localeCompare : jsstring -> jsstring -> Z)
    (responses : list (option GeminiResponse)) : TestResult (option Q) :=
  groupPairs localeCompare (pairWithTemperatures responses).

(** *** Vocabulary of the grouper's contract *)

Section GroupKeys.
Variable localeCompare : jsstring -> jsstring -> Z.
Variable T : Type.

(** The normalized-schema key of a response; none without a schema. *)
Definition keyOfResponse (r : GeminiResponse) : option jsstring :=
  option_map (normalizedString localeCompare) (schema r).

Definition keyOfPair (p : option GeminiResponse * T) : option jsstring :=
  match fst p with
  | Some r => keyOfResponse r
  | None => None
  end.

(** The response and its schema are present. *)
Definition validPair (p : option GeminiResponse * T) : bool :=
  match keyOfPair p with Some _ => true | None => false end.

Definition hasKey (k : jsstring) (p : option GeminiResponse * T) : bool :=
  match keyOfPair p with
  | Some k' => jsstring_eqb k k'
  | None => false
  end.

Definition pairsWithKey (k : jsstring)
    (pairs : list (option GeminiResponse * T))
  : list (option GeminiResponse * T) :=
  filter (hasKey k) pairs.

(** Position of the first pair with key [k]; the length when there is
    none. *)
Fixpoint firstIndexOf (k : jsstring)
    (pairs : list (option GeminiResponse * T)) : nat :=
  match pairs with
  | [] => O
  | p :: r => if hasKey k p then O else S (firstIndexOf k r)
  end.

Definition groupKey (g : RobustnessGroup T) : option jsstring :=
  keyOfResponse (representative g).

Definition isLogInvalid (e : LogEntry T) : bool :=
  match e with LogInvalid _ => true | _ => false end.

(** What the [Map] holds once [pairs] have been processed. *)
Definition entryMatches (pairs : list (option GeminiResponse * T))
    (ke : jsstring * GroupEntry T) : Prop :=
  geTemperatures (snd ke) = List.map snd (pairsWithKey (fst ke) pairs)
  /\ exists t rest,
       pairsWithKey (fst ke) pairs
       = (Some (geRepresentative (snd ke)), t) :: rest.

(** Key [a] was first met before key [b]. *)
Definition insertedBefore (pairs : list (option GeminiResponse * T))
    (a b : jsstring) : Prop :=
  firstIndexOf a pairs < firstIndexOf b pairs.

Definition groupsInvariant (pairs : list (option GeminiResponse * T))
    (m : JsMap (GroupEntry T)) : Prop :=
  (forall k, mapHas k m = existsb (hasKey k) pairs)
  /\ Forall (entryMatches pairs) m
  /\ StronglySorted (insertedBefore pairs) (List.map fst m).
End GroupKeys.

Arguments keyOfPair localeCompare {T} p.
Arguments validPair localeCompare {T} p.
Arguments hasKey localeCompare {T} k p.
Arguments pairsWithKey localeCompare {T} k pairs.
Arguments firstIndexOf localeCompare {T} k pairs.
Arguments groupKey localeCompare {T} g.
Arguments isLogInvalid {T} e.

(** [!response || !response.schema] is false. *)
Definition hasSchema (response : option GeminiResponse) : bool :=
  match response with
  | Some r => match schema r with Some _ => true | None => false end
  | None => false
  end.

Definition responseOf (s : Schema) : option GeminiResponse :=
  Some (mkResponse (Some s) (JStr [])).

(** Four valid responses forming two groups of two. *)
Definition tiePairs : list (option GeminiResponse * Q) :=
  [ (responseOf usersOnce, 0.5); (responseOf blogSchema, 0.6);
    (responseOf blogSchemaShuffled, 0.8); (responseOf usersOnce, 0.9) ]%Q.

(** The same run with the response at 0.7 lacking its schema. *)
Definition tiePairsWithInvalid : list (option GeminiResponse * Q) :=
  [ (responseOf usersOnce, 0.5); (responseOf blogSchema, 0.6);
    (Some (mkResponse None (JStr [])), 0.7);
    (responseOf blogSchemaShuffled, 0.8); (responseOf usersOnce, 0.9) ]%Q.

(** The scenarios of the specification, as responses in temperature
    order: one schema at 0.6 and 0.8 and another at 0.5, 0.7 and 0.9;
    and two groups of two around a response without schema. *)
Definition threeAndTwo : list (option GeminiResponse) :=
  [ responseOf usersOnce; responseOf blogSchema; responseOf usersOnce;
    responseOf blogSchemaShuffled; responseOf usersOnce ].

Definition twoAndTwo : list (option GeminiResponse) :=
  [ responseOf usersOnce; responseOf blogSchema;
    Some (mkResponse None (JStr []));
    responseOf blogSchemaShuffled; responseOf usersOnce ].

(** The groups as (temperatures, count). *)
Definition groupSummary (T : Type) (r : TestResult T)
  : list (list T * Z) :=
  List.map (fun g => (temperatures g, count g)) (resultGroups r).

(** The responses are structurally identical: each has a schema, and any
    two of these schemas have the same structure. *)
Definition structurallyIdentical (responses : list (option GeminiResponse))
  : Prop :=
  forall r1 r2, In r1 responses -> In r2 responses ->
    exists x1 s1 x2 s2,
      r1 = Some x1 /\ schema x1 = Some s1
      /\ r2 = Some x2 /\ schema x2 = Some s2
      /\ sameStructure s1 s2.

(** Every schema among the responses keeps the data model's invariant. *)
Definition uniquelyNamed (localeCompare : jsstring -> jsstring -> Z)
    (responses : list (option GeminiResponse)) : Prop :=
  forall x s, In (Some x) responses -> schema x = Some s ->
              uniqueNames localeCompare s.

(** Five responses of one structure: with a field listed once or twice,
    with two same-named fields in either order, and with unique names. *)
Definition onceAndTwice : list (option GeminiResponse) :=
  [ responseOf usersOnce; responseOf usersTwice; responseOf usersOnce;
    responseOf usersTwice; responseOf usersOnce ].

Definition eitherFieldOrder : list (option GeminiResponse) :=
  [ responseOf idStringNumber; responseOf idNumberString;
    responseOf idStringNumber; responseOf idNumberString;
    responseOf idStringNumber ].

Definition blogAndShuffled : list (option GeminiResponse) :=
  [ responseOf blogSchema; responseOf blogSchemaShuffled;
    responseOf blogSchema; responseOf blogSchemaShuffled;
    responseOf blogSchema ].

(* ================================================================= *)
(** ** The robustness run ([runRobustnessTest] and its caller) *)

(** What one [generateContent] call can deliver. *)
Inductive ApiText : Type :=
| EmptyText                          (** [response.text.trim()] is empty *)
| ThrowingText (message : jsstring)  (** reading or parsing it throws *)
| JsonText (value : option GeminiResponse). (** parsed; [None] is [null] *)

(** A rejection reason is an [Error] with a message, or ([None]) any
    other value. *)
Inductive CallState : Type :=
| Pending
| Fulfilled (text : ApiText)
| Rejected (reason : option jsstring).

Definition isPending (c : CallState) : bool :=
  match c with Pending => true | _ => false end.
Definition isFulfilled (c : CallState) : bool :=
  match c with Fulfilled _ => true | _ => false end.
Definition isRejected (c : CallState) : bool :=
  match c with Rejected _ => true | _ => false end.

(** The React state the handler writes. *)
Record UiState : Type := mkUi {
  isTestingRobustness : bool;
  robustnessScore : option Z;
  robustnessError : option jsstring;
  robustnessComparisonGroups : list (RobustnessGroup (option Q))
}.

(** [calls] are the promises of the latest run, in temperature order;
    [awaiting] says that the handler is suspended at its [await]. *)
Record RunState : Type := mkRun {
  ui : UiState;
  calls : list CallState;
  awaiting : bool
}.

(** The events of the test itself; the other controls of the page are
    left out. *)
Inductive Event : Type :=
| Click                                   (** the test button *)
| Settle (index : nat) (result : CallState). (** a call completes *)

Definition initialRun : RunState :=
  mkRun (mkUi false None None []) [] false.

(** The [catch] of [runRobustnessTest]. *)
Definition serviceError (reason : option jsstring) : jsstring :=
  match reason with
  | Some message => js "Failed to run robustness test: " ++ message
  | None =>
      js "An unknown error occurred while running the robustness test."
  end.

(** [responses.map(response => ... JSON.parse(jsonString))]: the first
    text that throws ends the map. *)
Fixpoint parseResponses (texts : list ApiText)
  : option jsstring + list (option GeminiResponse) :=
  match texts with
  | [] => inr []
  | EmptyText :: _ => inl (Some (js "Received an empty response from the API."))
  | ThrowingText message :: _ => inl (Some message)
  | JsonText value :: r =>
      match parseResponses r with
      | inl e => inl e
      | inr values => inr (value :: values)
      end
  end.

Fixpoint fulfilledTexts (cs : list CallState) : option (list ApiText) :=
  match cs with
  | [] => Some []
  | Fulfilled t :: r =>
      match fulfilledTexts r with
      | Some ts => Some (t :: ts)
      | None => None
      end
  | _ :: _ => None
  end.

Fixpoint setNth (A : Type) (i : nat) (x : A) (l : list A) : list A :=
  match l, i with
  | [], _ => []
  | _ :: r, O => x :: r
  | y :: r, S j => y :: setNth j x r
  end.

Section RobustnessRun.
Variable localeCompare : jsstring -> jsstring -> Z.

(** The handler's [catch] and [finally]. *)
Definition failWith (u : UiState) (message : jsstring) : UiState :=
  mkUi false (robustnessScore u) (Some message)
       (robustnessComparisonGroups u).

(** The handler's [try] body after the [await], then [finally]. *)
Definition succeedWith (u : UiState)
    (responses : list (option GeminiResponse)) : UiState :=
  let r := groupResponses localeCompare responses in
  mkUi false (Some (resultScore r)) (robustnessError u) (resultGroups r).

(** What [await Promise.all(promises)] does when call [result] has just
    settled: the first rejection rejects the aggregate at once; the
    aggregate fulfils when the last call fulfils. *)
Definition afterSettle (st : RunState) (result : CallState) : RunState :=
  if awaiting st then
    match result with
    | Rejected reason =>
        mkRun (failWith (ui st) (serviceError reason)) (calls st) false
    | _ =>
        match fulfilledTexts (calls st) with
        | Some texts =>
            match parseResponses texts with
            | inl reason =>
                mkRun (failWith (ui st) (serviceError reason))
                      (calls st) false
            | inr responses =>
                mkRun (succeedWith (ui st) responses) (calls st) false
            end
        | None => st
        end
    end
  else st.

Definition step (st : RunState) (e : Event) : RunState :=
  match e with
  | Click =>
      (* the button is disabled while a test runs *)
      if isTestingRobustness (ui st) then st
      else mkRun (mkUi true None None [])
                 (List.map (fun _ => Pending) testTemperatures) true
  | Settle index result =>
      match nth_error (calls st) index, result with
      | Some Pending, Fulfilled _ | Some Pending, Rejected _ =>
          afterSettle
            (mkRun (ui st) (setNth index result (calls st)) (awaiting st))
            result
      | _, _ => st
      end
  end.

Definition run (events : list Event) : RunState :=
  fold_left step events initialRun.

(** The test has reached [Succeeded] or [Failed]. *)
Definition hasOutcome (st : RunState) : bool :=
  negb (isTestingRobustness (ui st))
  && (match robustnessScore (ui st) with Some _ => true | None => false end
      || match robustnessError (ui st) with Some _ => true | None => false end).
End RobustnessRun.

(** What holds of every state the run can reach. *)
Definition runInvariant (st : RunState) : Prop :=
  (isTestingRobustness (ui st) = true ->
     awaiting st = true
     /\ List.length (calls st) = 5
     /\ Forall (fun c => isRejected c = false) (calls st)
     /\ Exists (fun c => isPending c = true) (calls st)
     /\ robustnessScore (ui st) = None
     /\ robustnessError (ui st) = None)
  /\ (isTestingRobustness (ui st) = false -> awaiting st = false)
  /\ (forall score, robustnessScore (ui st) = Some score ->
        Forall (fun c => isFulfilled c = true) (calls st))
  /\ (forall message, robustnessError (ui st) = Some message ->
        Exists (fun c => isRejected c = true) (calls st)
        \/ Forall (fun c => isFulfilled c = true) (calls st)).

(** A run in which the call at 0.5 is rejected first. *)
Definition firstCallRejected : list Event :=
  [Click; Settle 0 (Rejected (Some (js "quota exceeded")))].

(** A run whose calls at 0.5, 0.6, 0.8 and 0.9 have fulfilled with texts
    that parse, the call at 0.7 being pending. *)
Definition fourFulfilled : list Event :=
  [ Click;
    Settle 1 (Fulfilled (JsonText (responseOf usersOnce)));
    Settle 0 (Fulfilled (JsonText (responseOf usersOnce)));
    Settle 4 (Fulfilled (JsonText (responseOf blogSchema)));
    Settle 3 (Fulfilled (JsonText (responseOf usersOnce))) ].

(* ================================================================= *)
(** ** The requirement highlighter (RequirementHighlighter.tsx) *)

Inductive Segment : Type :=
| Marked (part : jsstring)   (** rendered inside the highlighting span *)
| Plain (part : jsstring).

Definition segmentText (s : Segment) : jsstring :=
  match s with Marked p | Plain p => p end.

(** [highlights.filter(h => typeof h === 'string')] *)
Fixpoint stringsOf (highlights : list JsValue) : list jsstring :=
  match highlights with
  | [] => []
  | JStr s :: r => s :: stringsOf r
  | _ :: r => stringsOf r
  end.

(** [[...new Set(xs)]]: first occurrences, in order. *)
Definition setAdd (acc : list jsstring) (x : jsstring) : list jsstring :=
  if existsb (jsstring_eqb x) acc then acc else acc ++ [x].

Definition setOf (xs : list jsstring) : list jsstring :=
  fold_left setAdd xs [].

(** [(a, b) => b.length - a.length] *)
Definition byLengthDesc (a b : jsstring) : Z :=
  (Z.of_nat (List.length b) - Z.of_nat (List.length a))%Z.

Definition uniqueHighlights (highlights : list JsValue) : list jsstring :=
  sortBy byLengthDesc (setOf (stringsOf highlights)).

(** The characters of the class in [escapeRegExp], which are the
    SyntaxCharacters of a pattern: . * + ? ^ $ { } ( ) | [ ] and the
    backslash. *)
Definition isSyntaxCharacter (c : codeunit) : bool :=
  ((c =? 46) || (c =? 42) || (c =? 43) || (c =? 63) || (c =? 94)
   || (c =? 36) || (c =? 123) || (c =? 125) || (c =? 40) || (c =? 41)
   || (c =? 124) || (c =? 91) || (c =? 93) || (c =? 92))%N.

(** [string.replace(/[.*+?^${}()|[\]\\]/g, '\\$&')] *)
Fixpoint escapeRegExp (s : jsstring) : jsstring :=
  match s with
  | [] => []
  | c :: r =>
      if isSyntaxCharacter c then backslash :: c :: escapeRegExp r
      else c :: escapeRegExp r
  end.

Fixpoint joinBar (items : list jsstring) : jsstring :=
  match items with
  | [] => []
  | [x] => x
  | x :: r => x ++ 124%N :: joinBar r
  end.

(** The source text given to [new RegExp]. *)
Definition patternSource (phrases : list jsstring) : jsstring :=
  40%N :: joinBar (List.map escapeRegExp phrases) ++ [41%N].

(** Reading a pattern that is one group of alternatives made of
    characters standing for themselves and of escaped syntax
    characters; [current] is the alternative being read.  Any other
    pattern is outside this fragment. *)
Fixpoint readAlternatives (src current : jsstring)
  : option (list jsstring) :=
  match src with
  | [] => None
  | c :: r =>
      if (c =? 41)%N then
        match r with
        | [] => Some [current]
        | _ :: _ => None
        end
      else if (c =? 124)%N then
        option_map (cons current) (readAlternatives r [])
      else if (c =? 92)%N then
        match r with
        | e :: r' =>
            if isSyntaxCharacter e
            then readAlternatives r' (current ++ [e])
            else None
        | [] => None
        end
      else if isSyntaxCharacter c then None
      else readAlternatives r (current ++ [c])
  end.

(** [new RegExp(src, 'gi')] on this fragment: the alternatives of the
    one group, in order. *)
Definition readPattern (src : jsstring) : option (list jsstring) :=
  match src with
  | c :: r => if (c =? 40)%N then readAlternatives r [] else None
  | [] => None
  end.

(** What the pattern built from the phrases is shown to denote
    ([readPattern_patternSource]): an ordered choice between the literal
    phrases.  No phrase at all gives the pattern [()], whose one
    alternative is empty. *)
Definition alternativesOf (phrases : list jsstring) : list jsstring :=
  match phrases with
  | [] => [[]]
  | _ => phrases
  end.

Section Highlighter.
(** [Canonicalize] of a pattern compiled with the [i] flag, and
    [String.prototype.toLowerCase]. *)
Variable canonicalize : codeunit -> codeunit.
Variable toLowerCase : jsstring -> jsstring.

(** Does the literal [phrase] match at the start of [rest]? *)
Fixpoint matchLiteral (phrase rest : jsstring) : bool :=
  match phrase, rest with
  | [], _ => true
  | _ :: _, [] => false
  | a :: phrase', b :: rest' =>
      (canonicalize a =? canonicalize b)%N && matchLiteral phrase' rest'
  end.

(** A sticky match at the start of [rest]: the first alternative that
    matches decides; the result is the length of the match. *)
Fixpoint execAt (alternatives : list jsstring) (rest : jsstring)
  : option nat :=
  match alternatives with
  | [] => None
  | h :: r =>
      if matchLiteral h rest then Some (List.length h)
      else execAt r rest
  end.

(** The loop of [RegExp.prototype[@@split]] for a pattern with one
    capture group around it.  [rest] is the text from the scan position
    [q] on, [segment] is the text between the end [p] of the last match
    and [q], and [skip] counts the code units of the last match still to
    be passed over.  An empty match at [q = p] only advances [q]; an
    empty match at [q > p] cuts there, and the cut leaves [p = q], where
    the next round finds the same empty match and advances. *)
Fixpoint splitLoop (alternatives : list jsstring) (rest segment : jsstring)
    (skip : nat) : list jsstring :=
  match rest with
  | [] => [segment]
  | c :: rest' =>
      match skip with
      | S k => splitLoop alternatives rest' segment k
      | O =>
          match execAt alternatives rest with
          | None => splitLoop alternatives rest' (segment ++ [c]) 0
          | Some O =>
              match segment with
              | [] => splitLoop alternatives rest' [c] 0
              | _ => segment :: [] :: splitLoop alternatives rest' [c] 0
              end
          | Some (S k) =>
              segment :: firstn (S k) rest
                :: splitLoop alternatives rest' [] k
          end
      end
  end.

(** [text.split(regex)] *)
Definition split (alternatives : list jsstring) (text : jsstring)
  : list jsstring :=
  match text with
  | [] => match execAt alternatives [] with
          | Some _ => []
          | None => [[]]
          end
  | _ => splitLoop alternatives text [] 0
  end.

Definition nonEmpty (part : jsstring) : bool :=
  match part with [] => false | _ => true end.

Definition isHighlight (phrases : list jsstring) (part : jsstring) : bool :=
  existsb (fun h => jsstring_eqb (toLowerCase h) (toLowerCase part)) phrases.

Definition renderPart (phrases : list jsstring) (part : jsstring) : Segment :=
  if isHighlight phrases part then Marked part else Plain part.

(** The children of the returned [div]; [fontSize] only styles it.
    The argument [None] is a missing or [null] [highlights].  The regular
    expression is compiled from the source text built from the escaped
    phrases; the result [None] stands for a source outside the fragment
    [readPattern] reads, whose meaning is not modelled. *)
Definition RequirementHighlighter (text : jsstring)
    (highlights : option (list JsValue)) : option (list Segment) :=
  match highlights with
  | None | Some [] => Some [Plain text]
  | Some hs =>
      let phrases := uniqueHighlights hs in
      let regex := readPattern (patternSource phrases) in
      match regex with
      | Some alternatives =>
          let parts := split alternatives text in
          Some (List.map (renderPart phrases) (filter nonEmpty parts))
      | None => None
      end
  end.
End Highlighter.

(** Case mappings restricted to the ASCII letters: what every host does
    on ASCII text. *)
Definition asciiUpper (c : codeunit) : codeunit :=
  (if (97 <=? c) && (c <=? 122) then c - 32 else c)%N.

Definition asciiLower (c : codeunit) : codeunit :=
  (if (65 <=? c) && (c <=? 90) then c + 32 else c)%N.

Definition asciiToLowerCase (s : jsstring) : jsstring :=
  List.map asciiLower s.

Definition isAscii (s : jsstring) : Prop := Forall (fun c => (c < 128)%N) s.

(** Cutting a text into consecutive pieces of the given lengths. *)
Fixpoint cutBy (lengths : list nat) (text : jsstring) : list jsstring :=
  match lengths with
  | [] => []
  | n :: ns => firstn n text :: cutBy ns (skipn n text)
  end.

(** The example of the specification. *)
Definition exampleText : jsstring := js "Users can create posts.".

Definition exampleHighlights : list JsValue :=
  [JStr (js "posts"); JStr (js "Users")].

(** A text and phrases that hold pattern syntax. *)
Definition formulaText : jsstring := js "aab or A+B (a+b)".

Definition formulaHighlights : list JsValue :=
  [JStr (js "a+b"); JStr (js "(")].

(** *** Vocabulary for further properties of the normalizer *)

(** Two fields, or two collections, that read the same once names and
    types are trimmed, position by position; descriptions and
    relevantRequirements are free. *)
Definition sameFieldText (f f' : Field) : Prop :=
  safeString (fName f) = safeString (fName f')
  /\ safeString (fType f) = safeString (fType f').

Definition sameCollectionText (c c' : Collection) : Prop :=
  safeString (cName c) = safeString (cName c')
  /\ Forall2 sameFieldText (fieldsOf c) (fieldsOf c').

Definition sameText (s s' : Schema) : Prop :=
  Forall2 sameCollectionText (collectionsOf s) (collectionsOf s').

(** Names and types of a normalized collection, as pairs. *)
Definition nFieldPairs (nc : NCollection) : list (jsstring * jsstring) :=
  List.map (fun nf => (nfName nf, nfType nf)) (ncFields nc).

Definition allWhiteSpace (s : jsstring) : Prop :=
  Forall (fun c => isWhiteSpace c = true) s.

(** The string is empty, or neither its first nor its last code unit is
    white space. *)
Definition cleanEnds (s : jsstring) : Prop :=
  match s with
  | [] => True
  | c :: _ => isWhiteSpace c = false /\ isWhiteSpace (last s c) = false
  end.

(** [usersOnce] with padded names and descriptive text. *)
Definition usersOnceAnnotated : Schema :=
  mkSchema (Some
    [ mkCollection (JStr (js " users ")) (JStr (js "the accounts"))
        (Some [ mkField (JStr (js "id ")) (JStr (js " String"))
                        (JStr (js "primary key"))
                        [JStr (js "Users sign up")] ])
        [JStr (js "Users sign up")] ]).

(** [blogSchema] with its collections and their fields in another
    order. *)
Definition blogSchemaReordered : Schema :=
  mkSchema (Some
    [ mkCollection JNull JUndefined None [];
      collection "Users" [ field "Email" "String"; field "email" "String" ];
      collection " posts "
        [ field "body" " String "; field "title" "String";
          field " author" "ObjectID" ] ]).

(** *** Vocabulary for further properties of the grouper *)

(** The temperatures of all groups, group by group, and the sum of the
    counts. *)
Definition groupedTemperatures (T : Type) (gs : list (RobustnessGroup T))
  : list T :=
  List.concat (List.map (fun g => temperatures g) gs).

Definition totalCount (T : Type) (gs : list (RobustnessGroup T)) : Z :=
  fold_right Z.add 0%Z (List.map (fun g => count g) gs).

(** The number of pairs whose key is [k]. *)
Definition agreement (localeCompare : jsstring -> jsstring -> Z) (T : Type)
    (k : jsstring) (pairs : list (option GeminiResponse * T)) : Z :=
  Z.of_nat (List.length (pairsWithKey localeCompare k pairs)).

(* ================================================================= *)
(** ** The score display ([RobustnessScoreDisplay], App.tsx) *)

Record ScoreDetails : Type := mkDetails {
  text : jsstring;
  color : jsstring;
  bgColor : jsstring
}.

Definition getScoreDetails (score : Z) : ScoreDetails :=
  if (score >=? 90)%Z then
    mkDetails (js "Highly Robust") (js "text-green-500")
              (js "bg-green-100 dark:bg-green-900/50")
  else if (score >=? 70)%Z then
    mkDetails (js "Robust") (js "text-emerald-500")
              (js "bg-emerald-100 dark:bg-emerald-900/50")
  else if (score >=? 40)%Z then
    mkDetails (js "Moderately Stable") (js "text-yellow-500")
              (js "bg-yellow-100 dark:bg-yellow-900/50")
  else if (score >=? 20)%Z then
    mkDetails (js "Slightly Unstable") (js "text-orange-500")
              (js "bg-orange-100 dark:bg-orange-900/50")
  else
    mkDetails (js "Highly Unstable") (js "text-red-500")
              (js "bg-red-100 dark:bg-red-900/50").

(** What the component shows: the label with its colours, the score,
    and whether the View Comparison button is there.  [None] is the
    [null] it returns for a [null] score. *)
Record ScoreView : Type := mkScoreView {
  details : ScoreDetails;
  shownScore : Z;
  viewComparison : bool
}.

Definition RobustnessScoreDisplay (T : Type)
    (groups : list (RobustnessGroup T)) (score : option Z)
  : option ScoreView :=
  match score with
  | None => None
  | Some score =>
      Some (mkScoreView (getScoreDetails score) score
                        (0 <? List.length groups)%nat)
  end.

(** The score display of a page state. *)
Definition scoreViewOf (u : UiState) : option ScoreView :=
  RobustnessScoreDisplay (robustnessComparisonGroups u) (robustnessScore u).

(** *** Vocabulary for further properties of the run *)

(** The calls of [order] fulfil one after the other, call [i] with the
    text at position [i] of [texts]. *)
Definition fulfilAll (texts : list ApiText) (order : list nat) : list Event :=
  List.map (fun i => Settle i (Fulfilled (nth i texts EmptyText))) order.

(** What the handler writes once the texts, in temperature order, are
    there. *)
Definition outcomeOf (localeCompare : jsstring -> jsstring -> Z)
    (u : UiState) (texts : list ApiText) : UiState :=
  match parseResponses texts with
  | inl reason => failWith u (serviceError reason)
  | inr responses => succeedWith localeCompare u responses
  end.

Definition isSettle (e : Event) : bool :=
  match e with Settle _ _ => true | Click => false end.

(** A run that fails on its first call; the other calls fulfil later. *)
Definition lateFulfilments : list Event :=
  [ Settle 1 (Fulfilled (JsonText (responseOf usersOnce)));
    Settle 2 (Fulfilled EmptyText);
    Settle 4 (Fulfilled (JsonText (responseOf usersOnce)));
    Settle 3 (Fulfilled (JsonText (responseOf blogSchema))) ].

(** Five texts that parse, and an order of arrival. *)
Definition fiveTexts : list ApiText :=
  List.map (fun r => JsonText r) threeAndTwo.

Definition arrivalOrder : list nat := [3; 0; 4; 1; 2].

(** *** Vocabulary for further properties of the highlighter *)

(** The phrase occurs in the text, up to the case of ASCII letters. *)
Definition occursIn (phrase text : jsstring) : Prop :=
  exists pre m post,
    text = pre ++ m ++ post
    /\ asciiToLowerCase m = asciiToLowerCase phrase.

(** What the scan of the split leaves behind: the text between two
    matches holds no place where a phrase matches. *)
Section Scan.
Variable canonicalize : codeunit -> codeunit.
Variable phrases : list jsstring.

(** No non-empty phrase matches at the start of [rest]. *)
Definition noMatchAt (rest : jsstring) : Prop :=
  forall h, In h phrases -> h <> [] ->
            matchLiteral canonicalize h rest = false.

(** No non-empty phrase matches at a position of [part], read with the
    text [after] that follows it. *)
Fixpoint noMatchIn (part after : jsstring) : Prop :=
  match part with
  | [] => True
  | _ :: r => noMatchAt (part ++ after) /\ noMatchIn r after
  end.

(** No non-empty phrase matches at a position of an unmarked segment. *)
Fixpoint unmarkedClean (segments : list Segment) : Prop :=
  match segments with
  | [] => True
  | Plain p :: more =>
      noMatchIn p (List.concat (List.map segmentText more))
      /\ unmarkedClean more
  | Marked _ :: more => unmarkedClean more
  end.

(** The parts of a split: text between matches and matches, in turn. *)
Definition captureOf (c : jsstring) : Prop :=
  c = [] \/ exists h, In h phrases
                      /\ List.map canonicalize c = List.map canonicalize h.

Fixpoint scanned (parts : list jsstring) : Prop :=
  match parts with
  | [] => True
  | s :: rest =>
      match rest with
      | [] => noMatchIn s []
      | c :: more =>
          noMatchIn s (c ++ List.concat more) /\ captureOf c /\ scanned more
      end
  end.
End Scan.

(* ================================================================= *)
(** ** The schema display (SchemaDisplay.tsx) *)

(** [HoveredElement] of [types.ts]. *)
Record HoveredElement : Type := mkHovered {
  heId : jsstring;
  heDescription : JsValue;
  heRelevantRequirements : list JsValue
}.

(** [s.startsWith(prefix)] *)
Definition startsWith (s prefix : jsstring) : bool :=
  jsstring_eqb (firstn (List.length prefix) s) prefix.

Section SchemaDisplay.
(** The text a template literal puts in for a value; for a string it is
    the string itself. *)
Variable templateString : JsValue -> jsstring.

(** [`collection-${collection.name}`] *)
Definition collectionId (collection : Collection) : jsstring :=
  js "collection-" ++ templateString (cName collection).

(** [`field-${collection.name}-${field.name}`] *)
Definition fieldId (collection : Collection) (field : Field) : jsstring :=
  js "field-" ++ templateString (cName collection) ++ js "-"
    ++ templateString (fName field).

(** The element [handleCollectionHover] gives to [onHover]. *)
Definition handleCollectionHover (collection : Collection) : HoveredElement :=
  mkHovered (collectionId collection) (cDescription collection)
            (cRelevantRequirements collection).

(** The element a field gives to [onHover] when the pointer enters. *)
Definition fieldHover (collection : Collection) (field : Field)
  : HoveredElement :=
  mkHovered (fieldId collection field) (fDescription field)
            (fRelevantRequirements field).

(** [hoveredElement?.id === collectionId
     || hoveredElement?.id.startsWith(`field-${collection.name}-`)] *)
Definition isCollectionActive (hoveredElement : option HoveredElement)
    (collection : Collection) : bool :=
  match hoveredElement with
  | None => false
  | Some h =>
      jsstring_eqb (heId h) (collectionId collection)
      || startsWith (heId h)
           (js "field-" ++ templateString (cName collection) ++ js "-")
  end.



(** The element was built from a collection of the schema or from one of
    its fields. *)
Definition elementOf (s : Schema) (h : HoveredElement) : Prop :=
  exists c, In c (collectionsOf s)
            /\ (h = handleCollectionHover c
                \/ exists f, In f (fieldsOf c) /\ h = fieldHover c f).
End SchemaDisplay.

(* ================================================================= *)
(** ** Schema generation ([generateSchemaFromRequirements],
       [handleGenerateSchema], [handleEditRequirements]) *)

(** The state of [App]: its [useState] cells, the robustness cells
    gathered in [robustness].  [generating] counts the generation calls
    in flight; [tests] holds, for every robustness test started, its
    calls and whether its handler is still suspended at its [await]. *)
Record Page : Type := mkPage {
  requirements : jsstring;
  generatedSchema : option Schema;
  pageJustification : JsValue;
  isLoading : bool;
  error : option jsstring;
  hoveredElement : option HoveredElement;
  fontSize : Z;
  robustness : UiState;
  isRobustnessModalOpen : bool;
  generating : nat;
  tests : list (list CallState * bool)
}.

Definition newline : codeunit := 10%N.

Definition placeholderRequirements : jsstring :=
  js "I'm building a blog application." ++ newline
  :: js "Users should be able to sign up with an email and password."
  ++ newline
  :: js "Each user can create multiple posts." ++ newline
  :: js "A post must have a title, content, and a publication date."
  ++ newline
  :: js "Posts can have multiple tags for categorization." ++ newline
  :: js "Users can leave comments on posts." ++ newline
  :: js "Each comment is written by a user and has text content.".

Definition initialPage : Page :=
  mkPage placeholderRequirements None (JStr []) false None None 16
         (mkUi false None None []) false 0 [].

(** What the user and the network can do to the page. *)
Inductive PageEvent : Type :=
| ChangeRequirements (value : jsstring)  (** typing in the textarea *)
| ClickGenerate
| GenerationSettles (result : CallState) (** a generation call completes *)
| ClickEdit
| ClickTest
| TestSettles (test index : nat) (result : CallState)
| EnterCollection (i : nat)              (** pointer over collection [i] *)
| LeaveCollection (i : nat)
| EnterField (i j : nat)                 (** over field [j] of it *)
| LeaveField (i j : nat)
| ChangeFontSize (value : Z)
| ClickViewComparison
| CloseModal.

(** The [catch] of [generateSchemaFromRequirements]. *)
Definition generationError (reason : option jsstring) : jsstring :=
  match reason with
  | Some message => js "Failed to generate schema: " ++ message
  | None => js "An unknown error occurred while generating the schema."
  end.

Definition resetRobustnessState (p : Page) : Page :=
  mkPage (requirements p) (generatedSchema p) (pageJustification p)
         (isLoading p) (error p) (hoveredElement p) (fontSize p)
         (mkUi false None None []) false (generating p) (tests p).

Definition handleEditRequirements (p : Page) : Page :=
  resetRobustnessState
    (mkPage (requirements p) None (JStr []) (isLoading p) None None
            (fontSize p) (robustness p) (isRobustnessModalOpen p)
            (generating p) (tests p)).

(** [handleGenerateSchema] up to its [await]. *)
Definition handleGenerateSchema (p : Page) : Page :=
  match trim (requirements p) with
  | [] =>
      mkPage (requirements p) (generatedSchema p) (pageJustification p)
             (isLoading p)
             (Some (js "Please provide your application requirements."))
             (hoveredElement p) (fontSize p) (robustness p)
             (isRobustnessModalOpen p) (generating p) (tests p)
  | _ :: _ =>
      resetRobustnessState
        (mkPage (requirements p) None (JStr []) true None None
                (fontSize p) (robustness p) (isRobustnessModalOpen p)
                (S (generating p)) (tests p))
  end.

(** [handleRobustnessTest] up to its [await]. *)
Definition handleRobustnessTest (p : Page) : Page :=
  mkPage (requirements p) (generatedSchema p) (pageJustification p)
         (isLoading p) (error p) (hoveredElement p) (fontSize p)
         (mkUi true None None []) (isRobustnessModalOpen p) (generating p)
         (tests p ++ [(List.map (fun _ => Pending) testTemperatures, true)]).

Definition handleHover (p : Page) (element : option HoveredElement) : Page :=
  mkPage (requirements p) (generatedSchema p) (pageJustification p)
         (isLoading p) (error p) element (fontSize p) (robustness p)
         (isRobustnessModalOpen p) (generating p) (tests p).

Section PageSteps.
Variable localeCompare : jsstring -> jsstring -> Z.
Variable templateString : JsValue -> jsstring.
(** The messages of the errors the host throws: [JSON.parse] on the empty
    string, and reading a property of [null]. *)
Variable emptyJsonMessage : jsstring.
Variable nullResponseMessage : jsstring.

(** What the promise of [generateSchemaFromRequirements] settles to when
    its [generateContent] call has settled: the message of the error it
    rejects with, or the parsed response. *)
Definition generateSchemaFromRequirements (result : CallState)
  : option (jsstring + option GeminiResponse) :=
  match result with
  | Pending => None
  | Rejected reason => Some (inl (generationError reason))
  | Fulfilled EmptyText =>
      Some (inl (generationError (Some emptyJsonMessage)))
  | Fulfilled (ThrowingText message) =>
      Some (inl (generationError (Some message)))
  | Fulfilled (JsonText value) => Some (inr value)
  end.

(** [handleGenerateSchema] after its [await]: the [try] body or the
    [catch], then [finally]. *)
Definition afterGeneration (p : Page)
    (outcome : jsstring + option GeminiResponse) : Page :=
  match outcome with
  | inr (Some response) =>
      mkPage (requirements p) (schema response) (justification response)
             false (error p) (hoveredElement p) (fontSize p)
             (robustness p) (isRobustnessModalOpen p)
             (pred (generating p)) (tests p)
  | inr None =>
      mkPage (requirements p) (generatedSchema p) (pageJustification p)
             false (Some nullResponseMessage) (hoveredElement p)
             (fontSize p) (robustness p) (isRobustnessModalOpen p)
             (pred (generating p)) (tests p)
  | inl message =>
      mkPage (requirements p) (generatedSchema p) (pageJustification p)
             false (Some message) (hoveredElement p) (fontSize p)
             (robustness p) (isRobustnessModalOpen p)
             (pred (generating p)) (tests p)
  end.

(** A call of test [test] settles: the handler of that test goes on as
    in [afterSettle] and writes to the robustness cells of the page. *)
Definition afterTestSettles (p : Page) (test index : nat)
    (result : CallState) : Page :=
  match nth_error (tests p) test with
  | Some (cs, suspended) =>
      match nth_error cs index, result with
      | Some Pending, Fulfilled _ | Some Pending, Rejected _ =>
          let st := afterSettle localeCompare
                      (mkRun (robustness p) (setNth index result cs)
                             suspended) result in
          mkPage (requirements p) (generatedSchema p) (pageJustification p)
                 (isLoading p) (error p) (hoveredElement p) (fontSize p)
                 (ui st) (isRobustnessModalOpen p) (generating p)
                 (setNth test (calls st, awaiting st) (tests p))
      | _, _ => p
      end
  | None => p
  end.

Definition collectionAt (p : Page) (i : nat) : option Collection :=
  match generatedSchema p with
  | Some s => nth_error (collectionsOf s) i
  | None => None
  end.

Definition fieldAt (p : Page) (i j : nat) : option (Collection * Field) :=
  match collectionAt p i with
  | Some c =>
      match nth_error (fieldsOf c) j with
      | Some f => Some (c, f)
      | None => None
      end
  | None => None
  end.

(** One event.  A control answers only while it is rendered and enabled:
    the textarea and the Generate button while no schema is shown, the
    other controls while one is.  The font slider delivers whole numbers
    from 12 to 24.  Rendering itself is not part of the model: a value
    React cannot render ends the page, so the page has at most the runs
    of this transition system. *)
Definition stepPage (p : Page) (e : PageEvent) : Page :=
  match e with
  | ChangeRequirements value =>
      match generatedSchema p with
      | None =>
          mkPage value (generatedSchema p) (pageJustification p)
                 (isLoading p) (error p) (hoveredElement p) (fontSize p)
                 (robustness p) (isRobustnessModalOpen p) (generating p)
                 (tests p)
      | Some _ => p
      end
  | ClickGenerate =>
      match generatedSchema p with
      | None => if isLoading p then p else handleGenerateSchema p
      | Some _ => p
      end
  | GenerationSettles result =>
      match generating p, generateSchemaFromRequirements result with
      | S _, Some outcome => afterGeneration p outcome
      | _, _ => p
      end
  | ClickEdit =>
      match generatedSchema p with
      | Some _ => handleEditRequirements p
      | None => p
      end
  | ClickTest =>
      match generatedSchema p with
      | Some _ =>
          if isTestingRobustness (robustness p) then p
          else handleRobustnessTest p
      | None => p
      end
  | TestSettles test index result => afterTestSettles p test index result
  | EnterCollection i =>
      match collectionAt p i with
      | Some c => handleHover p (Some (handleCollectionHover templateString c))
      | None => p
      end
  | LeaveCollection i =>
      match collectionAt p i with
      | Some _ => handleHover p None
      | None => p
      end
  | EnterField i j =>
      match fieldAt p i j with
      | Some (c, f) => handleHover p (Some (fieldHover templateString c f))
      | None => p
      end
  | LeaveField i j =>
      match fieldAt p i j with
      | Some (c, _) =>
          handleHover p (Some (handleCollectionHover templateString c))
      | None => p
      end
  | ChangeFontSize value =>
      match generatedSchema p with
      | Some _ =>
          if ((12 <=? value) && (value <=? 24))%Z then
            mkPage (requirements p) (generatedSchema p) (pageJustification p)
                   (isLoading p) (error p) (hoveredElement p) value
                   (robustness p) (isRobustnessModalOpen p) (generating p)
                   (tests p)
          else p
      | None => p
      end
  | ClickViewComparison =>
      match generatedSchema p, robustnessScore (robustness p),
            robustnessComparisonGroups (robustness p) with
      | Some _, Some _, _ :: _ =>
          mkPage (requirements p) (generatedSchema p) (pageJustification p)
                 (isLoading p) (error p) (hoveredElement p) (fontSize p)
                 (robustness p) true (generating p) (tests p)
      | _, _, _ => p
      end
  | CloseModal =>
      if isRobustnessModalOpen p then
        mkPage (requirements p) (generatedSchema p) (pageJustification p)
               (isLoading p) (error p) (hoveredElement p) (fontSize p)
               (robustness p) false (generating p) (tests p)
      else p
  end.

Definition runPage (events : list PageEvent) : Page :=
  fold_left stepPage events initialPage.

(** [hoveredElement?.relevantRequirements || []], the highlights given to
    the requirement highlighter. *)
Definition highlightsOf (p : Page) : list JsValue :=
  match hoveredElement p with
  | Some h => heRelevantRequirements h
  | None => []
  end.

(** What holds of every state of the page. *)
Definition pageInvariant (p : Page) : Prop :=
  generating p = (if isLoading p then 1 else 0)
  /\ (isLoading p = true -> generatedSchema p = None /\ error p = None)
  /\ (generatedSchema p <> None -> error p = None)
  /\ (generatedSchema p = None ->
      hoveredElement p = None /\ isRobustnessModalOpen p = false)
  /\ (forall h, hoveredElement p = Some h ->
        exists s, generatedSchema p = Some s
                  /\ elementOf templateString s h).
End PageSteps.

(** The template text of the names of the sample schemas, which are
    strings; no other value is met there. *)
Definition sampleTemplate (v : JsValue) : jsstring :=
  match v with JStr s => s | _ => [] end.

(** A response with a schema, and a page that shows it. *)
Definition usersResponse : GeminiResponse :=
  mkResponse (Some usersOnce) (JStr (js "One collection is enough.")).

Definition generateUsers : list PageEvent :=
  [ ClickGenerate;
    GenerationSettles (Fulfilled (JsonText (Some usersResponse))) ].

(** The textarea holding nothing but white space. *)
Definition blankPage : Page :=
  mkPage (js "   ") None (JStr []) false None None 16
         (mkUi false None None []) false 0 [].

(** *** Vocabulary for the robustness tests on the page *)

(** While the page says that a test runs, the test started last is still
    suspended, with a call pending and none rejected. *)
Definition testingInvariant (p : Page) : Prop :=
  isTestingRobustness (robustness p) = true ->
  generatedSchema p <> None
  /\ exists earlier cs,
       tests p = earlier ++ [(cs, true)]
       /\ List.length cs = 5
       /\ Forall (fun c => isRejected c = false) cs
       /\ Exists (fun c => isPending c = true) cs.

(** A test is started on one schema; the requirements are edited and
    another schema is generated before the calls of the test fulfil. *)
Definition blogResponse : GeminiResponse :=
  mkResponse (Some blogSchema) (JStr (js "Posts and their authors.")).

Definition testOutlivesItsSchema : list PageEvent :=
  generateUsers
  ++ [ ClickTest; ClickEdit; ClickGenerate;
       GenerationSettles (Fulfilled (JsonText (Some blogResponse)));
       TestSettles 0 0 (Fulfilled (JsonText (responseOf usersOnce)));
       TestSettles 0 1 (Fulfilled (JsonText (responseOf usersOnce)));
       TestSettles 0 2 (Fulfilled (JsonText (responseOf usersOnce)));
       TestSettles 0 3 (Fulfilled (JsonText (responseOf usersOnce)));
       TestSettles 0 4 (Fulfilled (JsonText (responseOf usersOnce))) ].

(** A test is started, the requirements are edited and the schema is
    generated again; a second test delivers its five responses, and
    then a call of the first test is rejected. *)
Definition failureAfterLaterSuccess : list PageEvent :=
  generateUsers
  ++ [ ClickTest; ClickEdit; ClickGenerate;
       GenerationSettles (Fulfilled (JsonText (Some usersResponse)));
       ClickTest;
       TestSettles 1 0 (Fulfilled (JsonText (responseOf usersOnce)));
       TestSettles 1 1 (Fulfilled (JsonText (responseOf usersOnce)));
       TestSettles 1 2 (Fulfilled (JsonText (responseOf usersOnce)));
       TestSettles 1 3 (Fulfilled (JsonText (responseOf usersOnce)));
       TestSettles 1 4 (Fulfilled (JsonText (responseOf usersOnce)));
       TestSettles 0 0 (Rejected (Some (js "quota exceeded"))) ].

(** *** What [SchemaDisplay] can render *)

(** A value React accepts as a child: text for a string or a number,
    nothing for [null], [undefined] and a boolean; an object is
    refused with an error. *)
Definition rendersAsChild (v : JsValue) : bool :=
  match v with JObject => false | _ => true end.

(** [field.name] and [field.type] are rendered as children. *)
Definition fieldDisplayable (f : Field) : bool :=
  rendersAsChild (fName f) && rendersAsChild (fType f).

(** [collection.name] is rendered as a child and [collection.fields.map]
    is called. *)
Definition collectionDisplayable (c : Collection) : bool :=
  rendersAsChild (cName c)
  && match cFields c with
     | Some fields => forallb fieldDisplayable fields
     | None => false
     end.

(** [schema.collections.map] is called. *)
Definition schemaDisplayable (s : Schema) : bool :=
  match collections s with
  | Some cs => forallb collectionDisplayable cs
  | None => false
  end.

(** The page renders the response: without a schema it stays on the
    input page; with one it renders the justification as a child and the
    schema through [SchemaDisplay]. *)
Definition responseDisplayable (response : GeminiResponse) : bool :=
  match schema response with
  | Some s => schemaDisplayable s && rendersAsChild (justification response)
  | None => true
  end.

(* ################################################################# *)
(** * Properties *)

(* ================================================================= *)
(** ** The stable sort *)

Section SortFacts.
Variable A : Type.
Variable cmp : A -> A -> Z.

Lemma insertBy_perm (x : A) (l : list A) :
  Permutation (insertBy cmp x l) (x :: l).
Proof.
  induction l as [|y r IH]; simpl.
  - apply Permutation_refl.
  - destruct (cmp x y <=? 0)%Z.
    + apply Permutation_refl.
    + eapply perm_trans; [apply perm_skip, IH | apply perm_swap].
Qed.

Lemma sortBy_perm (l : list A) : Permutation (sortBy cmp l) l.
Proof.
  induction l as [|x r IH]; simpl.
  - constructor.
  - eapply perm_trans; [apply insertBy_perm | apply perm_skip, IH].
Qed.

Lemma sortBy_In (l : list A) (x : A) : In x (sortBy cmp l) <-> In x l.
Proof.
  split; apply Permutation_in;
    [apply sortBy_perm | apply Permutation_sym, sortBy_perm].
Qed.

(** Stability: a class of elements that the comparator cannot tell
    apart keeps its order. *)
Lemma insertBy_filter (P : A -> bool) (x : A) (l : list A) :
  (forall y, P x = true -> P y = true -> cmp x y = 0%Z) ->
  filter P (insertBy cmp x l) = filter P (x :: l).
Proof.
  intros HP. induction l as [|y r IH]; simpl; [reflexivity|].
  destruct (cmp x y <=? 0)%Z eqn:E; simpl; [reflexivity|].
  simpl in IH. rewrite IH.
  destruct (P x) eqn:Px; [|reflexivity].
  destruct (P y) eqn:Py; [|reflexivity].
  rewrite (HP y eq_refl Py) in E. discriminate.
Qed.

Lemma sortBy_filter (P : A -> bool) (l : list A) :
  (forall x y, P x = true -> P y = true -> cmp x y = 0%Z) ->
  filter P (sortBy cmp l) = filter P l.
Proof.
  intros HP. induction l as [|x r IH]; simpl; [reflexivity|].
  rewrite insertBy_filter by (intros; now apply HP).
  simpl. now rewrite IH.
Qed.

(** A list that is already in order is left alone; only adjacent
    elements matter. *)
Lemma sortBy_sorted_id (l : list A) :
  Sorted (notAfter cmp) l -> sortBy cmp l = l.
Proof.
  induction 1 as [|x l Hs IH Hd]; simpl; [reflexivity|].
  rewrite IH. destruct Hd as [|y r Hxy]; simpl; [reflexivity|].
  unfold notAfter in Hxy. apply Z.leb_le in Hxy. now rewrite Hxy.
Qed.

Hypothesis cmp_consistent : consistentComparator cmp.

Lemma cmp_refl (x : A) : cmp x x = 0%Z.
Proof.
  destruct cmp_consistent as [Hs _]. specialize (Hs x x). lia.
Qed.

Lemma cmp_sym0 (x y : A) : cmp x y = 0%Z -> cmp y x = 0%Z.
Proof.
  destruct cmp_consistent as [Hs _].
  pose proof (Hs x y). pose proof (Hs y x). lia.
Qed.

Lemma notAfter_total (x y : A) : notAfter cmp x y \/ notAfter cmp y x.
Proof.
  destruct cmp_consistent as [Hs _]. unfold notAfter.
  pose proof (Hs x y). lia.
Qed.

Lemma notAfter_trans (x y z : A) :
  notAfter cmp x y -> notAfter cmp y z -> notAfter cmp x z.
Proof. destruct cmp_consistent as [_ Ht]. apply Ht. Qed.

Lemma insertBy_sorted (x : A) (l : list A) :
  StronglySorted (notAfter cmp) l ->
  StronglySorted (notAfter cmp) (insertBy cmp x l).
Proof.
  induction 1 as [|y r Hs IH Hall]; simpl.
  - constructor; constructor.
  - destruct (cmp x y <=? 0)%Z eqn:E.
    + apply Z.leb_le in E. constructor.
      * constructor; assumption.
      * constructor; [exact E|].
        eapply Forall_impl; [|exact Hall].
        intros z Hz. eapply notAfter_trans; eassumption.
    + apply Z.leb_gt in E. constructor; [exact IH|].
      assert (Hyx : notAfter cmp y x).
      { destruct (notAfter_total y x) as [H|H]; [exact H|].
        unfold notAfter in H. lia. }
      rewrite Forall_forall. intros z Hz.
      apply (Permutation_in _ (insertBy_perm x r)) in Hz.
      destruct Hz as [<-|Hz]; [exact Hyx|].
      rewrite Forall_forall in Hall. now apply Hall.
Qed.

Lemma sortBy_sorted (l : list A) :
  StronglySorted (notAfter cmp) (sortBy cmp l).
Proof.
  induction l as [|x r IH]; simpl.
  - constructor.
  - now apply insertBy_sorted.
Qed.

(** Two ordered arrangements of the same elements coincide as soon as
    elements that compare equal are equal. *)
Lemma sorted_perm_unique (l1 l2 : list A) :
  StronglySorted (notAfter cmp) l1 ->
  StronglySorted (notAfter cmp) l2 ->
  Permutation l1 l2 ->
  (forall x y, In x l1 -> In y l1 -> cmp x y = 0%Z -> x = y) ->
  l1 = l2.
Proof.
  intros H1. revert l2.
  induction H1 as [|x r1 Hs1 IH Hall1]; intros l2 H2 HP Heq.
  - apply Permutation_nil in HP. now subst.
  - destruct H2 as [|y r2 Hs2 Hall2].
    + apply Permutation_sym, Permutation_nil in HP. discriminate.
    + assert (Hxy : x = y).
      { assert (Hy : In y (x :: r1))
          by (eapply Permutation_in;
              [apply Permutation_sym, HP | now left]).
        assert (Hx : In x (y :: r2))
          by (eapply Permutation_in; [apply HP | now left]).
        apply Heq; [now left | exact Hy |].
        assert (L1 : notAfter cmp x y).
        { destruct Hy as [<-|Hy]; [unfold notAfter; rewrite cmp_refl; lia|].
          rewrite Forall_forall in Hall1. now apply Hall1. }
        assert (L2 : notAfter cmp y x).
        { destruct Hx as [<-|Hx]; [unfold notAfter; rewrite cmp_refl; lia|].
          rewrite Forall_forall in Hall2. now apply Hall2. }
        destruct cmp_consistent as [Hsg _]. unfold notAfter in *.
        pose proof (Hsg x y). lia. }
      subst y. f_equal. apply IH; [exact Hs2 | |].
      * eapply Permutation_cons_inv; exact HP.
      * intros a b Ha Hb. apply Heq; now right.
Qed.

Lemma sortBy_perm_eq (l1 l2 : list A) :
  Permutation l1 l2 ->
  (forall x y, In x l1 -> In y l1 -> cmp x y = 0%Z -> x = y) ->
  sortBy cmp l1 = sortBy cmp l2.
Proof.
  intros HP Heq. apply sorted_perm_unique.
  - apply sortBy_sorted.
  - apply sortBy_sorted.
  - eapply perm_trans; [apply sortBy_perm|].
    eapply perm_trans; [exact HP | apply Permutation_sym, sortBy_perm].
  - intros x y Hx Hy. apply Heq; now apply sortBy_In.
Qed.

Lemma sortBy_idempotent (l : list A) :
  sortBy cmp (sortBy cmp l) = sortBy cmp l.
Proof.
  apply sortBy_sorted_id, StronglySorted_Sorted, sortBy_sorted.
Qed.
End SortFacts.

(* ================================================================= *)
(** ** Strings *)

Lemma jsstring_eqb_refl (s : jsstring) : jsstring_eqb s s = true.
Proof. unfold jsstring_eqb. now destruct (jsstring_eq_dec s s). Qed.

Lemma jsstring_eqb_eq (a b : jsstring) : jsstring_eqb a b = true <-> a = b.
Proof.
  unfold jsstring_eqb. destruct (jsstring_eq_dec a b); split; intros H;
    try discriminate; auto.
Qed.

Lemma jsstring_eqb_neq (a b : jsstring) : jsstring_eqb a b = false <-> a <> b.
Proof.
  unfold jsstring_eqb. destruct (jsstring_eq_dec a b); split; intros H;
    try discriminate; auto. contradiction.
Qed.

Lemma trimStart_idempotent (s : jsstring) :
  trimStart (trimStart s) = trimStart s.
Proof.
  induction s as [|c r IH]; simpl; [reflexivity|].
  destruct (isWhiteSpace c) eqn:E; [exact IH|].
  simpl. now rewrite E.
Qed.

Lemma trimStart_head (s : jsstring) :
  trimStart s = []
  \/ exists c r, trimStart s = c :: r /\ isWhiteSpace c = false.
Proof.
  induction s as [|c r IH]; simpl; [now left|].
  destruct (isWhiteSpace c) eqn:E; [exact IH|].
  right. now exists c, r.
Qed.

Lemma trimStart_keeps_last (l : jsstring) (c : codeunit) :
  isWhiteSpace c = false -> exists pre, trimStart (l ++ [c]) = pre ++ [c].
Proof.
  intros Hc. induction l as [|d r IH]; simpl.
  - rewrite Hc. now exists [].
  - destruct (isWhiteSpace d); [exact IH|].
    now exists (d :: r).
Qed.

Lemma trimEnd_idempotent (s : jsstring) : trimEnd (trimEnd s) = trimEnd s.
Proof.
  unfold trimEnd. now rewrite rev_involutive, trimStart_idempotent.
Qed.

Lemma trimEnd_keeps_head (c : codeunit) (r : jsstring) :
  isWhiteSpace c = false -> exists r', trimEnd (c :: r) = c :: r'.
Proof.
  intros Hc. unfold trimEnd. simpl.
  destruct (trimStart_keeps_last (rev r) c Hc) as [pre ->].
  rewrite rev_app_distr. simpl. now exists (rev pre).
Qed.

Lemma trim_idempotent (s : jsstring) : trim (trim s) = trim s.
Proof.
  unfold trim.
  destruct (trimStart_head s) as [->|(c & r & -> & Hc)].
  - reflexivity.
  - destruct (trimEnd_keeps_head c r Hc) as [r' E].
    rewrite E. simpl. rewrite Hc. rewrite <- E. apply trimEnd_idempotent.
Qed.

Lemma safeString_JStr (s : jsstring) : safeString (JStr s) = trim s.
Proof. destruct s; reflexivity. Qed.

Lemma safeString_not_string (v : JsValue) :
  typeof_string v = false -> safeString v = [].
Proof.
  intros H. unfold safeString. now rewrite H, andb_false_r.
Qed.

Lemma safeString_idempotent (v : JsValue) :
  safeString (JStr (safeString v)) = safeString v.
Proof.
  rewrite safeString_JStr.
  destruct v as [| |b|n|s|];
    try (rewrite safeString_not_string by reflexivity; reflexivity).
  rewrite safeString_JStr. apply trim_idempotent.
Qed.

(* ================================================================= *)
(** ** Collations *)

Lemma codeUnitCompare_sign (a b : jsstring) :
  (codeUnitCompare a b < 0 <-> 0 < codeUnitCompare b a)%Z.
Proof.
  revert b. induction a as [|x a IH]; intros [|y b]; simpl; try lia.
  rewrite (N.compare_antisym x y).
  destruct (N.compare x y); simpl; try lia. apply IH.
Qed.

Lemma codeUnitCompare_trans (a b c : jsstring) :
  (codeUnitCompare a b <= 0 -> codeUnitCompare b c <= 0 ->
   codeUnitCompare a c <= 0)%Z.
Proof.
  revert b c. induction a as [|x a IH]; intros [|y b] [|z c]; simpl;
    try lia.
  destruct (N.compare_spec x y), (N.compare_spec y z); subst; try lia.
  - rewrite N.compare_refl. apply IH.
  - intros _ _. destruct (N.compare_spec y z); lia.
  - intros _ _. destruct (N.compare_spec x z); lia.
  - intros _ _. destruct (N.compare_spec x z); lia.
Qed.

Lemma codeUnitCompare_consistent : consistentComparator codeUnitCompare.
Proof.
  split; [exact codeUnitCompare_sign | exact codeUnitCompare_trans].
Qed.

(* ================================================================= *)
(** ** The schema normalizer *)

Section NormalizerFacts.
Variable localeCompare : jsstring -> jsstring -> Z.
Hypothesis localeCompare_consistent : consistentComparator localeCompare.

Lemma compareFields_consistent :
  consistentComparator (compareFields localeCompare).
Proof.
  destruct localeCompare_consistent as [Hs Ht].
  split; unfold compareFields; intros; [apply Hs | eapply Ht; eassumption].
Qed.

Lemma compareCollections_consistent :
  consistentComparator (compareCollections localeCompare).
Proof.
  destruct localeCompare_consistent as [Hs Ht].
  split; unfold compareCollections; intros;
    [apply Hs | eapply Ht; eassumption].
Qed.

Lemma normalizeField_normal (f : Field) : normalField (normalizeField f).
Proof. split; apply safeString_idempotent. Qed.

Lemma normalizeCollection_normal (c : Collection) :
  normalCollection localeCompare (normalizeCollection localeCompare c).
Proof.
  split; [apply safeString_idempotent|]. split; simpl.
  - rewrite Forall_forall. intros nf Hnf.
    apply sortBy_In, in_map_iff in Hnf.
    destruct Hnf as (f & <- & _). apply normalizeField_normal.
  - apply sortBy_idempotent, compareFields_consistent.
Qed.

Lemma normalizeSchema_normal (s : Schema) :
  Forall (normalCollection localeCompare)
         (nCollections (normalizeSchema localeCompare s)).
Proof.
  rewrite Forall_forall. intros nc Hnc. simpl in Hnc.
  apply sortBy_In, in_map_iff in Hnc.
  destruct Hnc as (c & <- & _). apply normalizeCollection_normal.
Qed.

Lemma rebuilt_fields (fs : list Field) (nfs : list NField) :
  Forall2 rebuildsField fs nfs -> Forall normalField nfs ->
  List.map normalizeField fs = nfs.
Proof.
  induction 1 as [|f nf fs nfs [Hn Ht] _ IH]; intros Hall;
    [reflexivity|].
  inversion Hall as [|? ? [Nn Nt] Hall']; subst. simpl.
  rewrite IH by assumption. f_equal.
  unfold normalizeField. rewrite Hn, Ht, Nn, Nt. now destruct nf.
Qed.

Lemma rebuilt_collections (cs : list Collection) (ncs : list NCollection) :
  Forall2 rebuildsCollection cs ncs ->
  Forall (normalCollection localeCompare) ncs ->
  List.map (normalizeCollection localeCompare) cs = ncs.
Proof.
  induction 1 as [|c nc cs ncs [Hn (fs & Hfs & HF)] _ IH]; intros Hall;
    [reflexivity|].
  inversion Hall as [|? ? (Nn & Nf & Ns) Hall']; subst. simpl.
  rewrite IH by assumption. f_equal.
  unfold normalizeCollection. rewrite Hn, Hfs, Nn. simpl.
  rewrite (rebuilt_fields HF Nf), Ns. now destruct nc.
Qed.

Lemma reconstruct_rebuilds (n : NSchema) : rebuilds (reconstruct n) n.
Proof.
  unfold rebuilds, reconstruct. eexists. split; [reflexivity|].
  induction (nCollections n) as [|nc ncs IH]; simpl; constructor;
    [|exact IH].
  split; [reflexivity|]. eexists. split; [reflexivity|].
  induction (ncFields nc); simpl; constructor; [now split | assumption].
Qed.
End NormalizerFacts.

(** C8.  Normalization is idempotent: a Schema rebuilt from the
    collections of [normalizeSchema s], whatever descriptive text it is
    given, normalizes to the encoding of [normalizeSchema s]. *)
Theorem normalize_idempotent
    (localeCompare : jsstring -> jsstring -> Z) (s s' : Schema) :
  consistentComparator localeCompare ->
  rebuilds s' (normalizeSchema localeCompare s) ->
  normalizedString localeCompare s' = normalizedString localeCompare s.
Proof.
  intros Hc (cs & Hcs & HF).
  unfold normalizedString. f_equal.
  unfold normalizeSchema at 1. rewrite Hcs. simpl orEmpty.
  rewrite (rebuilt_collections HF (normalizeSchema_normal Hc s)).
  unfold normalizeSchema. f_equal.
  apply sortBy_idempotent, compareCollections_consistent, Hc.
Qed.

Lemma normalize_idempotent_witness :
  normalizedString codeUnitCompare
    (reconstruct (normalizeSchema codeUnitCompare blogSchema))
  = normalizedString codeUnitCompare blogSchema.
Proof.
  apply (@normalize_idempotent codeUnitCompare blogSchema
           (reconstruct (normalizeSchema codeUnitCompare blogSchema))).
  - exact codeUnitCompare_consistent.
  - apply reconstruct_rebuilds.
Defined.

(* ================================================================= *)
(** ** The encoding is injective *)

Lemma hexValue_hexDigit (d : N) : (d < 16)%N -> hexValue (hexDigit d) = d.
Proof.
  intros H. unfold hexValue, hexDigit. destruct (N.ltb_spec d 10).
  - destruct (N.ltb_spec (48 + d) 58); lia.
  - destruct (N.ltb_spec (87 + d) 58); lia.
Qed.

Lemma hex_digits_value (c : N) :
  (c < 65536)%N ->
  (4096 * (c / 4096 mod 16) + 256 * (c / 256 mod 16)
   + 16 * (c / 16 mod 16) + c mod 16 = c)%N.
Proof.
  intros Hc.
  change 4096%N with (16 * (16 * 16))%N at 2.
  change 256%N with (16 * 16)%N at 2.
  rewrite <- !N.Div0.div_div.
  pose proof (N.div_mod c 16).
  pose proof (N.div_mod (c / 16) 16).
  pose proof (N.div_mod (c / 16 / 16) 16).
  pose proof (N.div_mod (c / 16 / 16 / 16) 16).
  pose proof (N.mod_lt c 16).
  pose proof (N.mod_lt (c / 16) 16).
  pose proof (N.mod_lt (c / 16 / 16) 16).
  pose proof (N.mod_lt (c / 16 / 16 / 16) 16).
  generalize dependent (c mod 16)%N.
  generalize dependent (c / 16 mod 16)%N.
  generalize dependent (c / 16 / 16 mod 16)%N.
  generalize dependent (c / 16 / 16 / 16 mod 16)%N.
  generalize dependent (c / 16 / 16 / 16 / 16)%N.
  generalize dependent (c / 16 / 16 / 16)%N.
  generalize dependent (c / 16 / 16)%N.
  generalize dependent (c / 16)%N.
  intros. lia.
Qed.

Lemma readQuoted_unicodeEscape (c : codeunit) (X s R : jsstring) :
  (c < 65536)%N -> readQuoted X = Some (s, R) ->
  readQuoted (unicodeEscape c ++ X) = Some (c :: s, R).
Proof.
  intros Hc HX. unfold unicodeEscape. cbn [app readQuoted].
  change (backslash =? 34)%N with false.
  change (backslash =? 92)%N with true.
  change (117 =? 117)%N with true. cbv iota.
  rewrite HX.
  rewrite !hexValue_hexDigit by (apply N.mod_lt; discriminate).
  rewrite hex_digits_value by exact Hc. reflexivity.
Qed.

Lemma readQuoted_raw (c : codeunit) (X s R : jsstring) :
  c <> 34%N -> c <> 92%N -> readQuoted X = Some (s, R) ->
  readQuoted (c :: X) = Some (c :: s, R).
Proof.
  intros H1 H2 HX. cbn [readQuoted].
  apply N.eqb_neq in H1, H2. rewrite H1, H2, HX. reflexivity.
Qed.

Lemma readQuoted_quoteUnit (c : codeunit) (X s R : jsstring) :
  readQuoted X = Some (s, R) ->
  readQuoted (quoteUnit c ++ X) = Some (c :: s, R).
Proof.
  intros HX. unfold quoteUnit.
  repeat match goal with
  | |- context [(c =? ?k)%N] =>
      destruct (N.eqb_spec c k);
      [subst c; cbn; rewrite HX; reflexivity|]
  end.
  destruct ((c <? 32)%N || isLeadingSurrogate c || isTrailingSurrogate c)
    eqn:E.
  - apply readQuoted_unicodeEscape; [|exact HX].
    unfold isLeadingSurrogate, isTrailingSurrogate in E.
    rewrite !orb_true_iff, !andb_true_iff, N.ltb_lt, !N.leb_le in E. lia.
  - now apply readQuoted_raw.
Qed.

Lemma readQuoted_quoteBody (s R : jsstring) :
  readQuoted (quoteBody s ++ dquote :: R) = Some (s, R).
Proof.
  remember (List.length s) as n eqn:Hn.
  revert s Hn. induction n as [n IH] using lt_wf_ind. intros s Hn.
  destruct s as [|c r]; [reflexivity|].
  cbn [quoteBody].
  assert (Hr : readQuoted (quoteBody r ++ dquote :: R) = Some (r, R)).
  { apply (IH (List.length r)); [subst; simpl; lia | reflexivity]. }
  destruct (isLeadingSurrogate c) eqn:Lc.
  - destruct r as [|d r'].
    + rewrite <- (app_nil_l (dquote :: R)) at 1.
      change (quoteUnit c ++ [] ++ dquote :: R)
        with (quoteUnit c ++ (quoteBody [] ++ dquote :: R)).
      now apply readQuoted_quoteUnit.
    + destruct (isTrailingSurrogate d) eqn:Td.
      * unfold isLeadingSurrogate in Lc. unfold isTrailingSurrogate in Td.
        rewrite andb_true_iff, !N.leb_le in Lc, Td.
        cbn [app].
        apply readQuoted_raw; [lia | lia |].
        apply readQuoted_raw; [lia | lia |].
        apply (IH (List.length r')); [subst; simpl; lia | reflexivity].
      * rewrite <- app_assoc. now apply readQuoted_quoteUnit.
  - rewrite <- app_assoc. now apply readQuoted_quoteUnit.
Qed.

Lemma quoteBody_prefixFree (a b r r' : jsstring) :
  quoteBody a ++ dquote :: r = quoteBody b ++ dquote :: r' ->
  a = b /\ r = r'.
Proof.
  intros H. apply (f_equal readQuoted) in H.
  rewrite !readQuoted_quoteBody in H. now injection H.
Qed.

(** Bring an equation between encodings to the next variable part. *)
Ltac expose_quoted H :=
  unfold quoteJSONString, jsonKey, jsonArray in H; cbn in H;
  repeat (rewrite <- !app_assoc in H; cbn [app] in H);
  repeat injection H as H.

Lemma stringifyNField_prefixFree : prefixFree stringifyNField.
Proof.
  intros [n1 t1] [n2 t2] r r' H. unfold stringifyNField in H.
  expose_quoted H.
  apply quoteBody_prefixFree in H. destruct H as [-> H].
  expose_quoted H.
  apply quoteBody_prefixFree in H. destruct H as [-> H].
  injection H as H. now subst.
Qed.

Section ArrayEncoding.
Variable A : Type.
Variable enc : A -> jsstring.
Hypothesis enc_prefixFree : prefixFree enc.
Hypothesis enc_brace : forall a, exists t, enc a = 123%N :: t.

Lemma joinComma_cons (x : A) (xs : list A) (Z : jsstring) :
  joinComma (List.map enc (x :: xs)) ++ Z
  = enc x ++ match xs with
             | [] => Z
             | _ => 44%N :: joinComma (List.map enc xs) ++ Z
             end.
Proof.
  destruct xs as [|y ys]; [reflexivity|].
  cbn [List.map joinComma]. rewrite <- app_assoc. reflexivity.
Qed.

Lemma joinComma_prefixFree (xs ys : list A) (r r' : jsstring) :
  joinComma (List.map enc xs) ++ 93%N :: r
  = joinComma (List.map enc ys) ++ 93%N :: r' ->
  xs = ys /\ r = r'.
Proof.
  revert ys. induction xs as [|x xs IH]; intros [|y ys] H.
  - cbn in H. injection H as H. now split.
  - rewrite joinComma_cons in H. destruct (enc_brace y) as [t E].
    rewrite E in H. discriminate.
  - rewrite joinComma_cons in H. destruct (enc_brace x) as [t E].
    rewrite E in H. discriminate.
  - rewrite !joinComma_cons in H. apply enc_prefixFree in H.
    destruct H as [-> H].
    destruct xs as [|x' xs], ys as [|y' ys]; try discriminate.
    + injection H as H. now subst.
    + apply (f_equal (@List.tl _)) in H. cbn [List.tl] in H.
      apply IH in H. destruct H as [H ->]. now rewrite H.
Qed.

End ArrayEncoding.

Lemma joinComma_bracket (A : Type) (enc : A -> jsstring)
    (xs ys : list A) (r r' : jsstring) :
  prefixFree enc -> (forall a, exists t, enc a = 123%N :: t) ->
  joinComma (List.map enc xs) ++ 93%N :: r
  = joinComma (List.map enc ys) ++ 93%N :: r' ->
  xs = ys /\ r = r'.
Proof. intros Hp Hb. now apply joinComma_prefixFree. Qed.

Lemma stringifyNField_brace (f : NField) :
  exists t, stringifyNField f = 123%N :: t.
Proof. eexists. reflexivity. Qed.

Lemma stringifyNCollection_brace (c : NCollection) :
  exists t, stringifyNCollection c = 123%N :: t.
Proof. eexists. reflexivity. Qed.

Lemma stringifyNCollection_prefixFree : prefixFree stringifyNCollection.
Proof.
  intros [n1 f1] [n2 f2] r r' H. unfold stringifyNCollection in H.
  expose_quoted H.
  apply quoteBody_prefixFree in H. destruct H as [-> H].
  expose_quoted H.
  apply joinComma_bracket in H;
    [| exact stringifyNField_prefixFree | exact stringifyNField_brace].
  destruct H as [-> H]. injection H as H. now subst.
Qed.

Lemma stringifyNSchema_injective (n1 n2 : NSchema) :
  stringifyNSchema n1 = stringifyNSchema n2 -> n1 = n2.
Proof.
  destruct n1 as [c1], n2 as [c2]. unfold stringifyNSchema.
  intros H. expose_quoted H.
  apply joinComma_bracket in H;
    [| exact stringifyNCollection_prefixFree
     | exact stringifyNCollection_brace].
  destruct H as [-> _]. reflexivity.
Qed.

(* ================================================================= *)
(** ** Equal encodings and equal structure *)

Lemma normalizedString_eq_iff
    (localeCompare : jsstring -> jsstring -> Z) (s1 s2 : Schema) :
  normalizedString localeCompare s1 = normalizedString localeCompare s2
  <-> normalizeSchema localeCompare s1 = normalizeSchema localeCompare s2.
Proof.
  split; [apply stringifyNSchema_injective | intros H].
  unfold normalizedString. now rewrite H.
Qed.

Section UniqueNames.
Variable localeCompare : jsstring -> jsstring -> Z.
Hypothesis localeCompare_consistent : consistentComparator localeCompare.

Variable A : Type.
Variable key : A -> jsstring.

Lemma distinct_same_key (l : list A) (x y : A) :
  distinctUnder localeCompare (List.map key l) ->
  In x l -> In y l -> localeCompare (key x) (key y) = 0%Z -> x = y.
Proof.
  unfold distinctUnder.
  induction l as [|a l IH]; intros Hd Hx Hy E; [contradiction|].
  simpl in Hd. inversion Hd as [|? ? Ha Hl]; subst.
  rewrite Forall_forall in Ha.
  destruct Hx as [->|Hx], Hy as [->|Hy].
  - reflexivity.
  - exfalso. apply (Ha (key y)); [now apply in_map | exact E].
  - exfalso. apply (Ha (key x)); [now apply in_map |].
    now apply (cmp_sym0 localeCompare_consistent).
  - now apply IH.
Qed.

Lemma distinct_NoDup (l : list A) :
  distinctUnder localeCompare (List.map key l) -> NoDup l.
Proof.
  unfold distinctUnder. induction l as [|a l IH]; intros Hd;
    [constructor|].
  simpl in Hd. inversion Hd as [|? ? Ha Hl]; subst.
  rewrite Forall_forall in Ha. constructor; [|now apply IH].
  intros Hin. apply (Ha (key a)); [now apply in_map|].
  apply (cmp_refl localeCompare_consistent).
Qed.

(** Under unique keys the sorted arrangement depends on the set of
    elements only. *)
Lemma sortBy_sameSet (l1 l2 : list A) :
  distinctUnder localeCompare (List.map key l1) ->
  distinctUnder localeCompare (List.map key l2) ->
  sameSet l1 l2 ->
  sortBy (fun a b => localeCompare (key a) (key b)) l1
  = sortBy (fun a b => localeCompare (key a) (key b)) l2.
Proof.
  intros D1 D2 HS. apply sortBy_perm_eq.
  - destruct localeCompare_consistent as [Hs Ht].
    split; intros; [apply Hs | eapply Ht; eassumption].
  - apply NoDup_Permutation; [now apply distinct_NoDup ..| exact HS].
  - intros x y Hx Hy. now apply distinct_same_key with (l := l1).
Qed.
End UniqueNames.

Lemma fieldPairs_normalized (c : Collection) :
  fieldPairs c
  = List.map (fun nf => (nfName nf, nfType nf))
             (List.map normalizeField (fieldsOf c)).
Proof. unfold fieldPairs. now rewrite map_map. Qed.

Lemma fieldNames_normalized (c : Collection) :
  fieldNames c = List.map nfName (List.map normalizeField (fieldsOf c)).
Proof. unfold fieldNames. now rewrite map_map. Qed.

Lemma collectionNames_normalized
    (localeCompare : jsstring -> jsstring -> Z) (s : Schema) :
  collectionNames s
  = List.map ncName
      (List.map (normalizeCollection localeCompare) (collectionsOf s)).
Proof. unfold collectionNames. now rewrite map_map. Qed.

Lemma In_pair_NField (nf : NField) (l : list NField) :
  In (nfName nf, nfType nf) (List.map (fun x => (nfName x, nfType x)) l)
  <-> In nf l.
Proof.
  rewrite in_map_iff. split.
  - intros ([n t] & E & Hin). destruct nf. simpl in E.
    injection E as -> ->. exact Hin.
  - intros Hin. now exists nf.
Qed.

Lemma sameSet_fields (c1 c2 : Collection) :
  sameSet (fieldPairs c1) (fieldPairs c2)
  <-> sameSet (List.map normalizeField (fieldsOf c1))
              (List.map normalizeField (fieldsOf c2)).
Proof.
  rewrite !fieldPairs_normalized. unfold sameSet. split; intros H x.
  - rewrite <- !In_pair_NField. apply H.
  - destruct x as [n t].
    change (n, t) with (nfName (mkNField n t), nfType (mkNField n t)).
    rewrite !In_pair_NField. apply H.
Qed.

Section StructureIff.
Variable localeCompare : jsstring -> jsstring -> Z.
Hypothesis localeCompare_consistent : consistentComparator localeCompare.

Lemma normalizeCollection_sameSet (c1 c2 : Collection) :
  distinctUnder localeCompare (fieldNames c1) ->
  distinctUnder localeCompare (fieldNames c2) ->
  safeString (cName c1) = safeString (cName c2) ->
  sameSet (fieldPairs c1) (fieldPairs c2) ->
  normalizeCollection localeCompare c1 = normalizeCollection localeCompare c2.
Proof.
  intros D1 D2 En HS. unfold normalizeCollection. rewrite En. f_equal.
  rewrite fieldNames_normalized in D1, D2.
  apply sameSet_fields in HS.
  exact (sortBy_sameSet localeCompare_consistent nfName D1 D2 HS).
Qed.

Lemma collections_included (s1 s2 : Schema) :
  uniqueNames localeCompare s1 -> uniqueNames localeCompare s2 ->
  sameStructure s1 s2 ->
  forall nc,
    In nc (List.map (normalizeCollection localeCompare) (collectionsOf s1))
    <-> In nc (List.map (normalizeCollection localeCompare)
                        (collectionsOf s2)).
Proof.
  intros [_ F1] [_ F2] [HN HF] nc.
  rewrite Forall_forall in F1, F2. rewrite !in_map_iff. split.
  - intros (c1 & <- & H1).
    assert (Hn : In (safeString (cName c1)) (collectionNames s2)).
    { apply HN. unfold collectionNames.
      apply in_map_iff. now exists c1. }
    unfold collectionNames in Hn. apply in_map_iff in Hn.
    destruct Hn as (c2 & E & H2). exists c2. split; [|exact H2].
    symmetry. apply normalizeCollection_sameSet; auto.
  - intros (c2 & <- & H2).
    assert (Hn : In (safeString (cName c2)) (collectionNames s1)).
    { apply HN. unfold collectionNames.
      apply in_map_iff. now exists c2. }
    unfold collectionNames in Hn. apply in_map_iff in Hn.
    destruct Hn as (c1 & E & H1). exists c1. split; [|exact H1].
    apply normalizeCollection_sameSet; auto.
Qed.

Lemma same_structure_same_normal_form (s1 s2 : Schema) :
  uniqueNames localeCompare s1 -> uniqueNames localeCompare s2 ->
  sameStructure s1 s2 ->
  normalizeSchema localeCompare s1 = normalizeSchema localeCompare s2.
Proof.
  intros U1 U2 HS. unfold normalizeSchema. f_equal.
  pose proof (proj1 U1) as D1. pose proof (proj1 U2) as D2.
  rewrite (collectionNames_normalized localeCompare) in D1, D2.
  exact (sortBy_sameSet localeCompare_consistent ncName D1 D2
           (collections_included U1 U2 HS)).
Qed.

Lemma same_normal_form_same_structure (s1 s2 : Schema) :
  uniqueNames localeCompare s2 ->
  normalizeSchema localeCompare s1 = normalizeSchema localeCompare s2 ->
  sameStructure s1 s2.
Proof.
  intros [D2 _] E. unfold normalizeSchema in E. injection E as E.
  assert (HP : Permutation
            (List.map (normalizeCollection localeCompare) (collectionsOf s1))
            (List.map (normalizeCollection localeCompare) (collectionsOf s2))).
  { eapply perm_trans; [apply Permutation_sym, sortBy_perm|].
    unfold collectionsOf. rewrite E. apply sortBy_perm. }
  split.
  - intros n. rewrite !(collectionNames_normalized localeCompare).
    split; apply Permutation_in, Permutation_map;
      [exact HP | apply Permutation_sym, HP].
  - intros c1 c2 H1 H2 En.
    assert (Ec : normalizeCollection localeCompare c1
                 = normalizeCollection localeCompare c2).
    { rewrite (collectionNames_normalized localeCompare) in D2.
      apply (distinct_same_key localeCompare_consistent ncName _ _ _ D2).
      - apply (Permutation_in _ HP). now apply in_map.
      - now apply in_map.
      - simpl. rewrite En. apply (cmp_refl localeCompare_consistent). }
    apply sameSet_fields.
    unfold normalizeCollection in Ec. injection Ec as _ Ef.
    assert (HPf : Permutation (List.map normalizeField (fieldsOf c1))
                              (List.map normalizeField (fieldsOf c2))).
    { eapply perm_trans; [apply Permutation_sym, sortBy_perm|].
      unfold fieldsOf. rewrite Ef. apply sortBy_perm. }
    intros x. split; apply Permutation_in;
      [exact HPf | apply Permutation_sym, HPf].
Qed.
End StructureIff.

(** With unique names the order of collections and fields does not
    show in the encoding. *)
Lemma unique_names_order_independent
    (localeCompare : jsstring -> jsstring -> Z) (s s' : Schema) :
  consistentComparator localeCompare ->
  uniqueNames localeCompare s -> permutedSchema s s' ->
  normalizedString localeCompare s' = normalizedString localeCompare s.
Proof.
  intros Hc [Dc Df] (cs & HP & HF).
  apply normalizedString_eq_iff. unfold normalizeSchema. f_equal.
  fold (collectionsOf s). fold (collectionsOf s').
  assert (Hcs : Forall (fun c => distinctUnder localeCompare (fieldNames c))
                       cs).
  { rewrite Forall_forall in *. intros c Hin. apply Df.
    apply (Permutation_in _ (Permutation_sym HP) Hin). }
  assert (E : List.map (normalizeCollection localeCompare) (collectionsOf s')
              = List.map (normalizeCollection localeCompare) cs).
  { clear HP. induction HF as [|c c' cs cs' [Hn Hp] _ IH]; [reflexivity|].
    inversion Hcs as [|? ? Dc0 Hcs']; subst. simpl.
    rewrite (IH Hcs'). f_equal.
    unfold normalizeCollection. rewrite Hn. f_equal.
    symmetry. apply sortBy_perm_eq.
    - now apply compareFields_consistent.
    - now apply Permutation_map.
    - rewrite fieldNames_normalized in Dc0. intros x y Hx Hy.
      exact (distinct_same_key Hc nfName _ x y Dc0 Hx Hy). }
  rewrite E. symmetry. apply sortBy_perm_eq.
  - now apply compareCollections_consistent.
  - now apply Permutation_map.
  - rewrite (collectionNames_normalized localeCompare) in Dc.
    intros x y Hx Hy.
    exact (distinct_same_key Hc ncName _ x y Dc Hx Hy).
Qed.

(** C1, as amended.  For schemas that keep the data model's invariant
    (collection names unique in the schema, field names unique in each
    collection) the normalized encodings are equal exactly when the
    schemas have the same set of collection names and, for collections
    of the same name, the same set of field (name, type) pairs, names
    and types being compared trimmed. *)
Theorem normalized_equal_iff_same_structure
    (localeCompare : jsstring -> jsstring -> Z) (s1 s2 : Schema) :
  consistentComparator localeCompare ->
  uniqueNames localeCompare s1 -> uniqueNames localeCompare s2 ->
  (normalizedString localeCompare s1 = normalizedString localeCompare s2
   <-> sameStructure s1 s2).
Proof.
  intros Hc U1 U2. rewrite normalizedString_eq_iff. split.
  - now apply same_normal_form_same_structure.
  - now apply same_structure_same_normal_form.
Qed.

Lemma blogSchema_uniqueNames : uniqueNames codeUnitCompare blogSchema.
Proof.
  split; [|repeat constructor]; unfold distinctUnder;
    repeat constructor; intros H; vm_compute in H; discriminate.
Qed.

Lemma blogSchemaShuffled_uniqueNames :
  uniqueNames codeUnitCompare blogSchemaShuffled.
Proof.
  split; [|repeat constructor]; unfold distinctUnder;
    repeat constructor; intros H; vm_compute in H; discriminate.
Qed.

Lemma normalized_equal_iff_same_structure_witness :
  uniqueNames codeUnitCompare blogSchema
  /\ uniqueNames codeUnitCompare blogSchemaShuffled
  /\ normalizedString codeUnitCompare blogSchema
     = normalizedString codeUnitCompare blogSchemaShuffled
  /\ sameStructure blogSchema blogSchemaShuffled.
Proof.
  split; [exact blogSchema_uniqueNames|].
  split; [exact blogSchemaShuffled_uniqueNames|].
  split; [reflexivity|].
  apply (@normalized_equal_iff_same_structure codeUnitCompare
           blogSchema blogSchemaShuffled).
  - exact codeUnitCompare_consistent.
  - exact blogSchema_uniqueNames.
  - exact blogSchemaShuffled_uniqueNames.
  - reflexivity.
Defined.

Lemma usersTwice_usersOnce_sameStructure : sameStructure usersTwice usersOnce.
Proof.
  split.
  - intros x. reflexivity.
  - intros c1 c2 [<- | []] [<- | []] _ x. cbn. tauto.
Qed.

(** C1 as stated fails: a field listed twice gives the same sets of
    names and pairs as the field listed once, and another encoding. *)
Lemma equal_sets_unequal_encodings :
  ~ (normalizedString codeUnitCompare usersTwice
     = normalizedString codeUnitCompare usersOnce
     <-> sameStructure usersTwice usersOnce).
Proof.
  intros [_ H]. specialize (H usersTwice_usersOnce_sameStructure).
  vm_compute in H. discriminate.
Qed.

(** C4.  The code at two schemas that differ only in the order of one
    collection's fields: the two fields share their name, the sort
    compares names only and keeps their order, and the encodings
    differ, whatever the collation. *)
Theorem same_name_fields_keep_input_order
    (localeCompare : jsstring -> jsstring -> Z) :
  consistentComparator localeCompare ->
  Permutation [field "id" "String"; field "id" "Number"]
              [field "id" "Number"; field "id" "String"]
  /\ normalizeSchema localeCompare idStringNumber
     = mkNSchema [mkNCollection (js "users")
                    [mkNField (js "id") (js "String");
                     mkNField (js "id") (js "Number")]]
  /\ normalizeSchema localeCompare idNumberString
     = mkNSchema [mkNCollection (js "users")
                    [mkNField (js "id") (js "Number");
                     mkNField (js "id") (js "String")]]
  /\ normalizedString localeCompare idStringNumber
     <> normalizedString localeCompare idNumberString.
Proof.
  intros Hc.
  assert (E1 : normalizeSchema localeCompare idStringNumber
     = mkNSchema [mkNCollection (js "users")
                    [mkNField (js "id") (js "String");
                     mkNField (js "id") (js "Number")]]).
  { unfold normalizeSchema, normalizeCollection. cbn.
    unfold compareFields. cbn. now rewrite (cmp_refl Hc). }
  assert (E2 : normalizeSchema localeCompare idNumberString
     = mkNSchema [mkNCollection (js "users")
                    [mkNField (js "id") (js "Number");
                     mkNField (js "id") (js "String")]]).
  { unfold normalizeSchema, normalizeCollection. cbn.
    unfold compareFields. cbn. now rewrite (cmp_refl Hc). }
  repeat split; [apply perm_swap | exact E1 | exact E2 |].
  rewrite normalizedString_eq_iff, E1, E2. discriminate.
Qed.

Lemma same_name_fields_keep_input_order_witness :
  normalizedString codeUnitCompare idStringNumber
  <> normalizedString codeUnitCompare idNumberString.
Proof.
  apply (same_name_fields_keep_input_order codeUnitCompare_consistent).
Defined.



(* ================================================================= *)
(** ** The variant grouper *)

Section MapFacts.
Variable V : Type.

Lemma mapHas_In (k : jsstring) (v : V) (m : JsMap V) :
  In (k, v) m -> mapHas k m = true.
Proof.
  induction m as [|[k' v'] r IH]; intros H; [contradiction|].
  simpl. destruct H as [E|H].
  - injection E as -> ->. now rewrite jsstring_eqb_refl.
  - rewrite IH by exact H. apply orb_true_r.
Qed.

Lemma mapHas_app (k : jsstring) (m1 m2 : JsMap V) :
  mapHas k (m1 ++ m2) = mapHas k m1 || mapHas k m2.
Proof.
  induction m1 as [|[k' v'] r IH]; simpl; [reflexivity|].
  now rewrite IH, orb_assoc.
Qed.

Lemma mapModify_keys (k : jsstring) (f : V -> V) (m : JsMap V) :
  List.map fst (mapModify k f m) = List.map fst m.
Proof.
  induction m as [|[k' v'] r IH]; simpl; [reflexivity|].
  destruct (jsstring_eqb k k'); simpl; [reflexivity | now rewrite IH].
Qed.

Lemma mapHas_keys (k : jsstring) (m1 m2 : JsMap V) :
  List.map fst m1 = List.map fst m2 -> mapHas k m1 = mapHas k m2.
Proof.
  revert m2. induction m1 as [|[k1 v1] r1 IH]; intros [|[k2 v2] r2] H;
    try discriminate; [reflexivity|].
  simpl in *. injection H as -> H. now rewrite (IH r2 H).
Qed.

Lemma mapModify_In (k : jsstring) (f : V -> V) (m : JsMap V)
    (k' : jsstring) (v' : V) :
  NoDup (List.map fst m) ->
  In (k', v') (mapModify k f m) ->
  (k' <> k /\ In (k', v') m)
  \/ (k' = k /\ exists v, In (k, v) m /\ v' = f v).
Proof.
  induction m as [|[k0 v0] r IH]; intros Hnd Hin; [contradiction|].
  simpl in Hnd. inversion Hnd as [|? ? Hnot Hnd']; subst.
  simpl in Hin. destruct (jsstring_eqb k k0) eqn:E.
  - apply jsstring_eqb_eq in E. subst k0.
    destruct Hin as [Hin|Hin].
    + injection Hin as <- <-. right. split; [reflexivity|].
      exists v0. split; [now left | reflexivity].
    + left. split; [|now right].
      intros ->. apply Hnot. apply in_map_iff. now exists (k, v').
  - apply jsstring_eqb_neq in E. destruct Hin as [Hin|Hin].
    + injection Hin as <- <-. left. split; [congruence | now left].
    + destruct (IH Hnd' Hin) as [[Hk H]|[Hk (v & H & Hv)]].
      * left. split; [exact Hk | now right].
      * right. split; [exact Hk|]. exists v. split; [now right | exact Hv].
Qed.
End MapFacts.

Lemma StronglySorted_snoc (A : Type) (R : A -> A -> Prop)
    (l : list A) (y : A) :
  StronglySorted R l -> Forall (fun x => R x y) l ->
  StronglySorted R (l ++ [y]).
Proof.
  induction 1 as [|x l Hs IH Hall]; intros Hy; simpl.
  - constructor; constructor.
  - inversion Hy as [|? ? Hxy Hy']; subst. constructor; [now apply IH|].
    apply Forall_app. split; [exact Hall | now constructor].
Qed.

Lemma StronglySorted_impl_In (A : Type) (R R' : A -> A -> Prop)
    (l : list A) :
  (forall a b, In a l -> In b l -> R a b -> R' a b) ->
  StronglySorted R l -> StronglySorted R' l.
Proof.
  intros HR. induction 1 as [|x l Hs IH Hall]; [constructor|].
  constructor.
  - apply IH. intros a b Ha Hb. apply HR; now right.
  - rewrite Forall_forall in *. intros y Hy.
    apply HR; [now left | now right | now apply Hall].
Qed.

Lemma StronglySorted_irrefl_NoDup (A : Type) (R : A -> A -> Prop)
    (l : list A) :
  (forall a, ~ R a a) -> StronglySorted R l -> NoDup l.
Proof.
  intros Hirr. induction 1 as [|x l Hs IH Hall]; constructor; [|exact IH].
  intros Hin. rewrite Forall_forall in Hall. exact (Hirr x (Hall x Hin)).
Qed.

Section GrouperFacts.
Variable localeCompare : jsstring -> jsstring -> Z.
Variable T : Type.

Lemma firstIndexOf_present (k : jsstring)
    (ps q : list (option GeminiResponse * T)) :
  existsb (hasKey localeCompare k) ps = true ->
  firstIndexOf localeCompare k (ps ++ q) = firstIndexOf localeCompare k ps
  /\ firstIndexOf localeCompare k ps < List.length ps.
Proof.
  induction ps as [|p ps IH]; simpl; [discriminate|].
  destruct (hasKey localeCompare k p); simpl; [lia|].
  intros H. destruct (IH H). lia.
Qed.

Lemma firstIndexOf_absent (k : jsstring)
    (ps q : list (option GeminiResponse * T)) :
  existsb (hasKey localeCompare k) ps = false ->
  firstIndexOf localeCompare k (ps ++ q)
  = List.length ps + firstIndexOf localeCompare k q.
Proof.
  induction ps as [|p ps IH]; simpl; [reflexivity|].
  destruct (hasKey localeCompare k p); simpl; [discriminate|].
  intros H. now rewrite IH.
Qed.

Lemma pairsWithKey_absent (k : jsstring)
    (ps : list (option GeminiResponse * T)) :
  existsb (hasKey localeCompare k) ps = false ->
  pairsWithKey localeCompare k ps = [].
Proof.
  induction ps as [|p ps IH]; simpl; [reflexivity|].
  destruct (hasKey localeCompare k p); simpl; [discriminate | exact IH].
Qed.

Lemma pairsWithKey_snoc (k : jsstring)
    (ps : list (option GeminiResponse * T))
    (p : option GeminiResponse * T) :
  pairsWithKey localeCompare k (ps ++ [p])
  = pairsWithKey localeCompare k ps
    ++ (if hasKey localeCompare k p then [p] else []).
Proof. unfold pairsWithKey. now rewrite filter_app. Qed.

Lemma hasKey_valid (k kp : jsstring) (p : option GeminiResponse * T) :
  keyOfPair localeCompare p = Some kp ->
  hasKey localeCompare k p = jsstring_eqb k kp.
Proof. intros H. unfold hasKey. now rewrite H. Qed.

Lemma hasKey_invalid (k : jsstring) (p : option GeminiResponse * T) :
  keyOfPair localeCompare p = None -> hasKey localeCompare k p = false.
Proof. intros H. unfold hasKey. now rewrite H. Qed.

(** The two ways the callback can go. *)
Lemma processResponse_invalid (m : GroupMap T) (log : list (LogEntry T))
    (p : option GeminiResponse * T) :
  keyOfPair localeCompare p = None ->
  processResponse localeCompare (m, log) p = (m, log ++ [LogInvalid (snd p)]).
Proof.
  destruct p as [[r|] t]; unfold keyOfPair, keyOfResponse; simpl;
    [|reflexivity].
  destruct (schema r); [discriminate | reflexivity].
Qed.

Lemma processResponse_valid (m : GroupMap T) (log : list (LogEntry T))
    (p : option GeminiResponse * T) (k : jsstring) :
  keyOfPair localeCompare p = Some k ->
  exists r,
    fst p = Some r
    /\ processResponse localeCompare (m, log) p
       = (if mapHas k m
          then mapModify k
                 (fun g => mkEntry (geRepresentative g)
                                   (geTemperatures g ++ [snd p])) m
          else mapSet k (mkEntry r [snd p]) m,
          log ++ [LogSchema (snd p) k]).
Proof.
  destruct p as [[r|] t]; unfold keyOfPair, keyOfResponse; simpl;
    [|discriminate].
  destruct (schema r) as [s|]; [|discriminate].
  simpl. intros E. injection E as <-. exists r. split; [reflexivity|].
  now destruct (mapHas (normalizedString localeCompare s) m).
Qed.

Lemma entryMatches_snoc_other (ps : list (option GeminiResponse * T))
    (p : option GeminiResponse * T)
    (ke : jsstring * GroupEntry T) :
  hasKey localeCompare (fst ke) p = false ->
  entryMatches localeCompare ps ke ->
  entryMatches localeCompare (ps ++ [p]) ke.
Proof.
  intros Hk [Ht (t & rest & Hf)]. unfold entryMatches.
  rewrite pairsWithKey_snoc, Hk, app_nil_r. split; [exact Ht|].
  now exists t, rest.
Qed.

Lemma insertedBefore_snoc (ps : list (option GeminiResponse * T))
    (p : option GeminiResponse * T) (a b : jsstring) :
  existsb (hasKey localeCompare a) ps = true ->
  existsb (hasKey localeCompare b) ps = true ->
  insertedBefore localeCompare ps a b ->
  insertedBefore localeCompare (ps ++ [p]) a b.
Proof.
  intros Ha Hb. unfold insertedBefore.
  destruct (firstIndexOf_present a ps [p] Ha) as [-> _].
  destruct (firstIndexOf_present b ps [p] Hb) as [-> _]. auto.
Qed.

Lemma mapHas_key_In (V : Type) (k : jsstring) (m : JsMap V) :
  In k (List.map fst m) -> mapHas k m = true.
Proof.
  intros H. apply in_map_iff in H. destruct H as ([k' v] & <- & H).
  eapply mapHas_In; exact H.
Qed.

Lemma invariant_NoDup (ps : list (option GeminiResponse * T)) (m : GroupMap T) :
  groupsInvariant localeCompare ps m -> NoDup (List.map fst m).
Proof.
  intros (_ & _ & I3).
  apply (StronglySorted_irrefl_NoDup (R := insertedBefore localeCompare ps));
    [|exact I3].
  intros a. unfold insertedBefore. lia.
Qed.

Lemma invariant_keys_snoc (ps : list (option GeminiResponse * T))
    (p : option GeminiResponse * T) (m : GroupMap T) :
  groupsInvariant localeCompare ps m ->
  StronglySorted (insertedBefore localeCompare (ps ++ [p])) (List.map fst m).
Proof.
  intros (I1 & _ & I3).
  apply (StronglySorted_impl_In (R := insertedBefore localeCompare ps));
    [|exact I3].
  intros a b Ha Hb. apply insertedBefore_snoc;
    rewrite <- I1; now apply mapHas_key_In.
Qed.
End GrouperFacts.

Section GrouperInvariant.
Variable localeCompare : jsstring -> jsstring -> Z.
Variable T : Type.

Lemma invariant_empty : groupsInvariant localeCompare (T := T) [] [].
Proof. repeat split; constructor. Qed.

(** One call of the callback keeps the map in step with the pairs
    processed so far. *)
Lemma processResponse_invariant (ps : list (option GeminiResponse * T))
    (m : GroupMap T)
    (log : list (LogEntry T)) (p : option GeminiResponse * T) :
  groupsInvariant localeCompare ps m ->
  groupsInvariant localeCompare (ps ++ [p])
    (fst (processResponse localeCompare (m, log) p)).
Proof.
  intros Inv. pose proof (invariant_NoDup Inv) as Hnd.
  pose proof (invariant_keys_snoc p Inv) as Hkeys.
  destruct Inv as (I1 & I2 & I3).
  destruct (keyOfPair localeCompare p) as [kp|] eqn:Ek.
  - (* a valid response with key [kp] *)
    destruct (processResponse_valid localeCompare m log p Ek)
      as (r & Er & ->).
    cbn [fst].
    assert (Hk : forall k, hasKey localeCompare k p = jsstring_eqb k kp)
      by (intros k; now apply hasKey_valid).
    destruct (mapHas kp m) eqn:Hhas.
    + (* the key is known: its entry grows *)
      split; [|split].
      * intros k. rewrite (mapHas_keys k _ _ (mapModify_keys kp _ m)).
        rewrite I1, existsb_app. simpl. rewrite Hk, orb_false_r.
        destruct (jsstring_eqb k kp) eqn:E; [|now rewrite orb_false_r].
        apply jsstring_eqb_eq in E. subst k.
        rewrite orb_true_r, <- I1. exact Hhas.
      * rewrite Forall_forall in *. intros [k' e'] Hin.
        apply (mapModify_In _ _ _ _ _ Hnd) in Hin.
        destruct Hin as [[Hne Hin]|[-> (e & Hin & ->)]].
        -- apply entryMatches_snoc_other; [|now apply I2].
           rewrite Hk. now apply jsstring_eqb_neq.
        -- destruct (I2 _ Hin) as [Ht (t & rest & Hf)]. cbn [fst snd] in *.
           unfold entryMatches. cbn [fst snd geTemperatures geRepresentative].
           rewrite pairsWithKey_snoc, Hk, jsstring_eqb_refl.
           split.
           ++ now rewrite map_app, Ht.
           ++ rewrite Hf. now exists t, (rest ++ [p]).
      * now rewrite mapModify_keys.
    + (* a new key: a new entry, last *)
      unfold mapSet. rewrite Hhas.
      split; [|split].
      * intros k. rewrite mapHas_app, I1, existsb_app. simpl.
        now rewrite Hk.
      * apply Forall_app. split.
        -- rewrite Forall_forall in *. intros [k' e'] Hin.
           apply entryMatches_snoc_other; [|now apply I2].
           rewrite Hk. apply jsstring_eqb_neq. intros E. cbn [fst] in E.
           subst k'. apply mapHas_In in Hin. congruence.
        -- constructor; [|constructor].
           unfold entryMatches. cbn [fst snd geTemperatures geRepresentative].
           rewrite pairsWithKey_snoc, Hk, jsstring_eqb_refl.
           rewrite pairsWithKey_absent by (now rewrite <- I1).
           simpl. split; [reflexivity|].
           exists (snd p), []. destruct p as [r' t]. simpl in *.
           now subst r'.
      * rewrite map_app. simpl. apply StronglySorted_snoc; [exact Hkeys|].
        rewrite Forall_forall. intros k Hin. unfold insertedBefore.
        assert (Hp : existsb (hasKey localeCompare k) ps = true)
          by (rewrite <- I1; now apply mapHas_key_In).
        destruct (firstIndexOf_present localeCompare k ps [p] Hp)
          as [-> Hlt].
        rewrite firstIndexOf_absent by (now rewrite <- I1). lia.
  - (* an invalid response: the map is left alone *)
    rewrite processResponse_invalid by exact Ek. cbn [fst].
    assert (Hk : forall k, hasKey localeCompare k p = false)
      by (intros k; now apply hasKey_invalid).
    split; [|split].
    + intros k. rewrite I1, existsb_app. simpl.
      now rewrite Hk, !orb_false_r.
    + rewrite Forall_forall in *. intros ke Hin.
      apply entryMatches_snoc_other; [apply Hk | now apply I2].
    + exact Hkeys.
Qed.

Lemma fold_invariant (ps : list (option GeminiResponse * T)) :
  groupsInvariant localeCompare ps
    (fst (fold_left (processResponse localeCompare (T:=T)) ps
            ([], [LogBegin]))).
Proof.
  induction ps as [|p ps IH] using rev_ind.
  - apply invariant_empty.
  - rewrite fold_left_app. simpl.
    destruct (fold_left (processResponse localeCompare (T:=T)) ps
                ([], [LogBegin]))
      as [m log].
    now apply processResponse_invariant.
Qed.

Lemma collectGroups_invariant (ps : list (option GeminiResponse * T)) :
  groupsInvariant localeCompare ps (fst (collectGroups localeCompare ps)).
Proof.
  unfold collectGroups. pose proof (fold_invariant ps) as H.
  destruct (fold_left (processResponse localeCompare (T:=T)) ps
              ([], [LogBegin]))
    as [m log]. exact H.
Qed.

Lemma groupPairs_groups (ps : list (option GeminiResponse * T)) :
  resultGroups (groupPairs localeCompare ps)
  = formatGroups (fst (collectGroups localeCompare ps)).
Proof.
  unfold groupPairs. now destruct (collectGroups localeCompare ps).
Qed.

Lemma groupPairs_score (ps : list (option GeminiResponse * T)) :
  resultScore (groupPairs localeCompare ps)
  = scoreOf (maxCountOf (resultGroups (groupPairs localeCompare ps))).
Proof.
  unfold groupPairs. now destruct (collectGroups localeCompare ps).
Qed.
End GrouperInvariant.

Lemma filter_eq_cons (A : Type) (P : A -> bool) (l : list A)
    (X : list A) (a : A) (W : list A) :
  filter P l = X ++ a :: W ->
  exists l1 l2, l = l1 ++ a :: l2 /\ filter P l2 = W.
Proof.
  revert X. induction l as [|x l IH]; intros X H; simpl in H.
  - destruct X; discriminate.
  - destruct (P x) eqn:Px.
    + destruct X as [|x' X]; simpl in H.
      * injection H as -> H. now exists [], l.
      * injection H as -> H. destruct (IH _ H) as (l1 & l2 & -> & E).
        now exists (x' :: l1), l2.
    + destruct (IH _ H) as (l1 & l2 & -> & E). now exists (x :: l1), l2.
Qed.

Lemma StronglySorted_before (A : Type) (R : A -> A -> Prop)
    (l1 : list A) (a : A) (l2 : list A) (b : A) (l3 : list A) :
  StronglySorted R (l1 ++ a :: l2 ++ b :: l3) -> R a b.
Proof.
  induction l1 as [|x l1 IH]; simpl; intros H.
  - inversion H as [|? ? _ Hall]; subst. rewrite Forall_forall in Hall.
    apply Hall. apply in_or_app. right. now left.
  - inversion H; subst. now apply IH.
Qed.

Lemma mapHas_true_In (V : Type) (k : jsstring) (m : JsMap V) :
  mapHas k m = true -> In k (List.map fst m).
Proof.
  induction m as [|[k' v] r IH]; simpl; [discriminate|].
  intros H. apply orb_true_iff in H. destruct H as [H|H].
  - left. symmetry. now apply jsstring_eqb_eq.
  - right. now apply IH.
Qed.

Section GroupingContract.
Variable localeCompare : jsstring -> jsstring -> Z.
Variable T : Type.

Lemma bySizeDesc_consistent : consistentComparator (bySizeDesc (T := T)).
Proof. split; unfold bySizeDesc; intros; lia. Qed.

Lemma entry_key (ps : list (option GeminiResponse * T))
    (ke : jsstring * GroupEntry T) :
  entryMatches localeCompare ps ke ->
  groupKey localeCompare (withCount (snd ke)) = Some (fst ke).
Proof.
  intros [_ (t & rest & Hf)].
  assert (Hin : In (Some (geRepresentative (snd ke)), t)
                   (pairsWithKey localeCompare (fst ke) ps))
    by (rewrite Hf; now left).
  apply filter_In in Hin. destruct Hin as [_ Hk].
  unfold hasKey, keyOfPair in Hk. cbn [fst] in Hk.
  unfold groupKey. cbn [withCount representative].
  destruct (keyOfResponse localeCompare (geRepresentative (snd ke)));
    [|discriminate].
  apply jsstring_eqb_eq in Hk. now subst.
Qed.

Lemma unsorted_keys (ps : list (option GeminiResponse * T))
    (m : GroupMap T) :
  Forall (entryMatches localeCompare ps) m ->
  List.map (groupKey localeCompare) (List.map (withCount (T:=T)) (mapValues m))
  = List.map Some (List.map fst m).
Proof.
  induction 1 as [|ke m Hke _ IH]; [reflexivity|].
  simpl. rewrite (entry_key Hke). f_equal. exact IH.
Qed.

Lemma existsb_hasKey (k : jsstring) (ps : list (option GeminiResponse * T)) :
  existsb (hasKey localeCompare k) ps = true
  <-> In (Some k) (List.map (keyOfPair localeCompare (T:=T)) ps).
Proof.
  rewrite existsb_exists, in_map_iff. split; intros (p & H1 & H2).
  - exists p. split; [|exact H1]. unfold hasKey in H2.
    destruct (keyOfPair localeCompare p); [|discriminate].
    apply jsstring_eqb_eq in H2. now subst.
  - exists p. split; [exact H2|]. unfold hasKey. rewrite H1.
    apply jsstring_eqb_refl.
Qed.

(** The groups before sorting, read off the invariant. *)
Lemma formatGroups_perm (m : GroupMap T) :
  Permutation (formatGroups m) (List.map (withCount (T:=T)) (mapValues m)).
Proof. apply sortBy_perm. Qed.

Lemma group_of_entry (ps : list (option GeminiResponse * T))
    (m : GroupMap T) (g : RobustnessGroup T) :
  groupsInvariant localeCompare ps m ->
  In g (formatGroups m) ->
  exists ke, In ke m /\ g = withCount (snd ke)
             /\ entryMatches localeCompare ps ke.
Proof.
  intros (_ & I2 & _) Hin.
  apply (Permutation_in _ (formatGroups_perm m)) in Hin.
  unfold mapValues in Hin. rewrite map_map in Hin.
  apply in_map_iff in Hin. destruct Hin as (ke & <- & Hin).
  exists ke. rewrite Forall_forall in I2. auto.
Qed.

Lemma ties_keep_insertion_order (ps : list (option GeminiResponse * T))
    (m : GroupMap T) (l1 : list (RobustnessGroup T)) (a : RobustnessGroup T)
    (l2 : list (RobustnessGroup T)) (b : RobustnessGroup T)
    (l3 : list (RobustnessGroup T)) (ka kb : jsstring) :
  groupsInvariant localeCompare ps m ->
  formatGroups m = l1 ++ a :: l2 ++ b :: l3 ->
  count a = count b ->
  groupKey localeCompare a = Some ka -> groupKey localeCompare b = Some kb ->
  insertedBefore localeCompare ps ka kb.
Proof.
  intros (_ & I2 & I3) Hgs Hc Ha Hb.
  set (P := fun g : RobustnessGroup T => (count g =? count a)%Z).
  assert (HP : forall x y, P x = true -> P y = true ->
                           bySizeDesc x y = 0%Z).
  { unfold P, bySizeDesc. intros x y Hx Hy.
    apply Z.eqb_eq in Hx, Hy. lia. }
  pose proof (sortBy_filter (bySizeDesc (T:=T)) P
                (List.map (withCount (T:=T)) (mapValues m)) HP) as Hf.
  fold (formatGroups m) in Hf. rewrite Hgs in Hf.
  rewrite filter_app in Hf. simpl in Hf.
  assert (Pa : P a = true) by (unfold P; apply Z.eqb_refl).
  assert (Pb : P b = true) by (unfold P; rewrite Hc; apply Z.eqb_refl).
  rewrite Pa in Hf. rewrite filter_app in Hf. simpl in Hf.
  rewrite Pb in Hf. symmetry in Hf.
  apply filter_eq_cons in Hf. destruct Hf as (u1 & u2 & Hu & Hf2).
  apply filter_eq_cons in Hf2. destruct Hf2 as (u3 & u4 & -> & _).
  unfold mapValues in Hu. rewrite map_map in Hu.
  apply map_eq_app in Hu. destruct Hu as (m1 & m' & -> & <- & Hu).
  apply map_eq_cons in Hu. destruct Hu as (xa & m'' & -> & Exa & Hu).
  apply map_eq_app in Hu. destruct Hu as (m2 & m''' & -> & <- & Hu).
  apply map_eq_cons in Hu. destruct Hu as (xb & m3 & -> & Exb & <-).
  rewrite Forall_forall in I2.
  assert (Ka : groupKey localeCompare (withCount (snd xa)) = Some (fst xa)).
  { apply (entry_key (ps := ps)). apply I2. apply in_or_app. right.
    now left. }
  assert (Kb : groupKey localeCompare (withCount (snd xb)) = Some (fst xb)).
  { apply (entry_key (ps := ps)). apply I2. apply in_or_app. right.
    right. apply in_or_app. right. now left. }
  rewrite Exa, Ha in Ka. rewrite Exb, Hb in Kb.
  injection Ka as ->. injection Kb as ->.
  rewrite map_app in I3. simpl in I3. rewrite map_app in I3. simpl in I3.
  eapply StronglySorted_before. exact I3.
Qed.
End GroupingContract.

(** C2.  The groups for pairs that all carry a schema: one group per
    distinct key; each group's representative is the first response
    with its key, its temperatures are those of the pairs with that
    key in processing order, its count is their number; the groups are
    in descending order of count, and of two groups of equal count the
    one whose key was met first comes first. *)
Theorem grouping_contract
    (localeCompare : jsstring -> jsstring -> Z) (T : Type)
    (pairs : list (option GeminiResponse * T)) :
  Forall (fun p => validPair localeCompare p = true) pairs ->
  let gs := resultGroups (groupPairs localeCompare pairs) in
  NoDup (List.map (groupKey localeCompare) gs)
  /\ (forall k, In (Some k) (List.map (groupKey localeCompare) gs)
                <-> In (Some k) (List.map (keyOfPair localeCompare (T:=T))
                                          pairs))
  /\ (forall g, In g gs ->
        exists k t rest,
          groupKey localeCompare g = Some k
          /\ pairsWithKey localeCompare k pairs
             = (Some (representative g), t) :: rest
          /\ temperatures g
             = List.map snd (pairsWithKey localeCompare k pairs)
          /\ count g = Z.of_nat (List.length (temperatures g)))
  /\ StronglySorted (fun a b => (count a >= count b)%Z) gs
  /\ (forall l1 a l2 b l3 ka kb,
        gs = l1 ++ a :: l2 ++ b :: l3 -> count a = count b ->
        groupKey localeCompare a = Some ka ->
        groupKey localeCompare b = Some kb ->
        firstIndexOf localeCompare ka pairs
        < firstIndexOf localeCompare kb pairs).
Proof.
  intros _ gs. subst gs. rewrite groupPairs_groups.
  pose proof (collectGroups_invariant localeCompare pairs) as Inv.
  set (m := fst (collectGroups localeCompare pairs)) in *.
  pose proof (invariant_NoDup Inv) as Hnd.
  pose proof Inv as (I1 & I2 & I3).
  assert (Hkeys : Permutation
            (List.map (groupKey localeCompare) (formatGroups m))
            (List.map Some (List.map fst m))).
  { rewrite <- (unsorted_keys I2).
    apply Permutation_map, formatGroups_perm. }
  split; [|split; [|split; [|split]]].
  - apply (Permutation_NoDup (Permutation_sym Hkeys)).
    apply Finite.Injective_map_NoDup; [|exact Hnd].
    intros x y E. now injection E.
  - intros k. rewrite <- existsb_hasKey, <- I1. split.
    + intros H. apply (Permutation_in _ Hkeys) in H.
      apply in_map_iff in H. destruct H as (k' & E & H).
      injection E as ->. now apply mapHas_key_In.
    + intros H. apply (Permutation_in _ (Permutation_sym Hkeys)).
      apply in_map, mapHas_true_In, H.
  - intros g Hg.
    destruct (@group_of_entry localeCompare T pairs m g Inv Hg)
      as (ke & Hin & -> & Hm).
    pose proof (entry_key Hm) as Hk. destruct Hm as [Ht (t & rest & Hf)].
    exists (fst ke), t, rest. repeat split; assumption.
  - apply (StronglySorted_impl_In (R := notAfter (bySizeDesc (T:=T)))).
    + intros a b _ _. unfold notAfter, bySizeDesc. lia.
    + apply sortBy_sorted, bySizeDesc_consistent.
  - intros l1 a l2 b l3 ka kb Hgs Hc Ha Hb.
    exact (@ties_keep_insertion_order localeCompare T pairs m
             l1 a l2 b l3 ka kb Inv Hgs Hc Ha Hb).
Qed.

Lemma grouping_contract_witness :
  Forall (fun p => validPair codeUnitCompare p = true) tiePairs
  /\ firstIndexOf codeUnitCompare
       (normalizedString codeUnitCompare usersOnce) tiePairs
     < firstIndexOf codeUnitCompare
         (normalizedString codeUnitCompare blogSchema) tiePairs.
Proof.
  assert (Hv : Forall (fun p => validPair codeUnitCompare p = true) tiePairs)
    by (repeat constructor).
  split; [exact Hv|].
  destruct (@grouping_contract codeUnitCompare Q tiePairs Hv)
    as (_ & _ & _ & _ & Htie).
  apply (Htie []
           (mkGroup (mkResponse (Some usersOnce) (JStr [])) [0.5; 0.9]%Q 2)
           []
           (mkGroup (mkResponse (Some blogSchema) (JStr [])) [0.6; 0.8]%Q 2)
           []); reflexivity.
Defined.

(** The scenarios of the specification. *)
Example grouping_three_and_two :
  groupSummary (groupResponses codeUnitCompare threeAndTwo)
  = [ ([Some 0.5; Some 0.7; Some 0.9], 3%Z);
      ([Some 0.6; Some 0.8], 2%Z) ]%Q
  /\ resultScore (groupResponses codeUnitCompare threeAndTwo) = 50%Z.
Proof. split; reflexivity. Qed.

Example grouping_tie_break :
  groupSummary (groupResponses codeUnitCompare twoAndTwo)
  = [ ([Some 0.5; Some 0.9], 2%Z); ([Some 0.6; Some 0.8], 2%Z) ]%Q
  /\ resultScore (groupResponses codeUnitCompare twoAndTwo) = 25%Z
  /\ filter isLogInvalid
       (resultLog (groupResponses codeUnitCompare twoAndTwo))
     = [LogInvalid (Some 0.7%Q)].
Proof. repeat split; reflexivity. Qed.

(* ================================================================= *)
(** ** Invalid responses *)

Section SkippedResponses.
Variable localeCompare : jsstring -> jsstring -> Z.
Variable T : Type.

Lemma validPair_hasSchema (p : option GeminiResponse * T) :
  validPair localeCompare p = hasSchema (fst p).
Proof.
  destruct p as [[r|] t]; [|reflexivity].
  unfold validPair, keyOfPair, keyOfResponse. simpl.
  now destruct (schema r).
Qed.

Lemma validPair_false (p : option GeminiResponse * T) :
  validPair localeCompare p = false
  <-> (fst p = None \/ exists r, fst p = Some r /\ schema r = None).
Proof.
  rewrite validPair_hasSchema. destruct p as [[r|] t]; simpl.
  - destruct (schema r) eqn:E; split; intros H; try discriminate.
    + destruct H as [H|(r' & H & H')]; [discriminate|].
      injection H as <-. congruence.
    + right. now exists r.
    + reflexivity.
  - split; auto.
Qed.

(** The callback appends one entry to the log and the new map does not
    depend on the log. *)
Lemma processResponse_log (m : GroupMap T) (log : list (LogEntry T))
    (p : option GeminiResponse * T) :
  exists m' e,
    (forall l, processResponse localeCompare (m, l) p = (m', l ++ [e]))
    /\ isLogInvalid e = negb (validPair localeCompare p)
    /\ (validPair localeCompare p = false ->
        m' = m /\ e = LogInvalid (snd p)).
Proof.
  destruct (keyOfPair localeCompare p) as [k|] eqn:Ek.
  - destruct (processResponse_valid localeCompare m log p Ek)
      as (r & Er & E).
    eexists _, _. split; [|split].
    + intros l.
      destruct (processResponse_valid localeCompare m l p Ek)
        as (r' & Er' & ->).
      rewrite Er in Er'. injection Er' as <-. reflexivity.
    + unfold validPair. now rewrite Ek.
    + unfold validPair. rewrite Ek. discriminate.
  - exists m, (LogInvalid (snd p)). split; [|split].
    + intros l. now apply processResponse_invalid.
    + unfold validPair. now rewrite Ek.
    + auto.
Qed.

Lemma fold_log_irrelevant (ps : list (option GeminiResponse * T))
    (m : GroupMap T) (l l' : list (LogEntry T)) :
  fst (fold_left (processResponse localeCompare) ps (m, l))
  = fst (fold_left (processResponse localeCompare) ps (m, l')).
Proof.
  revert m l l'. induction ps as [|p ps IH]; intros m l l'; [reflexivity|].
  cbn [fold_left]. destruct (processResponse_log m l p) as (m' & e & H & _).
  rewrite (H l), (H l'). apply IH.
Qed.

Lemma fold_skips_invalid (ps : list (option GeminiResponse * T))
    (m : GroupMap T) (l : list (LogEntry T)) :
  fst (fold_left (processResponse localeCompare) ps (m, l))
  = fst (fold_left (processResponse localeCompare)
           (filter (validPair localeCompare) ps) (m, l)).
Proof.
  revert m l. induction ps as [|p ps IH]; intros m l; [reflexivity|].
  cbn [fold_left filter].
  destruct (validPair localeCompare p) eqn:Ev; cbn [fold_left].
  - destruct (processResponse localeCompare (m, l) p) as [m' l'].
    apply IH.
  - destruct (processResponse_log m l p) as (m' & e & H & _ & Hinv).
    destruct (Hinv Ev) as [-> ->]. rewrite (H l).
    rewrite (fold_log_irrelevant ps m _ l). apply IH.
Qed.

Lemma fold_invalid_log (ps : list (option GeminiResponse * T))
    (m : GroupMap T) (l : list (LogEntry T)) :
  filter isLogInvalid
    (snd (fold_left (processResponse localeCompare) ps (m, l)))
  = filter isLogInvalid l
    ++ List.map (fun p => LogInvalid (snd p))
         (filter (fun p => negb (validPair localeCompare p)) ps).
Proof.
  revert m l. induction ps as [|p ps IH]; intros m l.
  - simpl. now rewrite app_nil_r.
  - cbn [fold_left filter].
    destruct (processResponse_log m l p) as (m' & e & H & He & Hinv).
    rewrite (H l), IH, filter_app. cbn [filter]. rewrite He.
    destruct (validPair localeCompare p) eqn:Ev; cbn [negb map app].
    + now rewrite app_nil_r.
    + destruct (Hinv eq_refl) as [_ ->]. now rewrite <- app_assoc.
Qed.

Lemma collectGroups_skips_invalid (ps : list (option GeminiResponse * T)) :
  fst (collectGroups localeCompare ps)
  = fst (collectGroups localeCompare (filter (validPair localeCompare) ps)).
Proof.
  unfold collectGroups.
  pose proof (fold_skips_invalid ps [] [LogBegin]) as H.
  destruct (fold_left _ ps _) as [m l].
  destruct (fold_left _ (filter _ ps) _) as [m' l']. exact H.
Qed.

Lemma collectGroups_invalid_log (ps : list (option GeminiResponse * T)) :
  filter isLogInvalid (snd (collectGroups localeCompare ps))
  = List.map (fun p => LogInvalid (snd p))
      (filter (fun p => negb (validPair localeCompare p)) ps).
Proof.
  unfold collectGroups.
  pose proof (fold_invalid_log ps [] [LogBegin]) as H.
  destruct (fold_left _ ps _) as [m l]. simpl in *.
  rewrite filter_app. simpl. now rewrite app_nil_r.
Qed.

Lemma groupPairs_log (ps : list (option GeminiResponse * T)) :
  resultLog (groupPairs localeCompare ps)
  = snd (collectGroups localeCompare ps).
Proof.
  unfold groupPairs. now destruct (collectGroups localeCompare ps).
Qed.
End SkippedResponses.

(** C6.  A pair whose response or schema is absent is discarded with a
    log entry naming its temperature, and the grouping goes on: groups
    and score are those of the valid pairs alone. *)
Theorem invalid_pairs_are_skipped
    (localeCompare : jsstring -> jsstring -> Z) (T : Type)
    (pairs : list (option GeminiResponse * T)) :
  let all := groupPairs localeCompare pairs in
  let valid :=
    groupPairs localeCompare (filter (validPair localeCompare) pairs) in
  (forall p : option GeminiResponse * T,
     validPair localeCompare p = false
     <-> (fst p = None \/ exists r, fst p = Some r /\ schema r = None))
  /\ resultGroups all = resultGroups valid
  /\ resultScore all = resultScore valid
  /\ filter isLogInvalid (resultLog all)
     = List.map (fun p => LogInvalid (snd p))
         (filter (fun p => negb (validPair localeCompare p)) pairs).
Proof.
  intros all valid. subst all valid.
  assert (Hg : resultGroups (groupPairs localeCompare pairs)
               = resultGroups
                   (groupPairs localeCompare
                      (filter (validPair localeCompare) pairs))).
  { rewrite !groupPairs_groups. f_equal.
    apply collectGroups_skips_invalid. }
  split; [intros p; apply validPair_false|].
  split; [exact Hg|]. split.
  - rewrite !groupPairs_score. now rewrite Hg.
  - rewrite groupPairs_log. apply collectGroups_invalid_log.
Qed.

Example invalid_pair_is_skipped :
  resultGroups (groupPairs codeUnitCompare tiePairsWithInvalid)
  = resultGroups (groupPairs codeUnitCompare tiePairs)
  /\ filter isLogInvalid
       (resultLog (groupPairs codeUnitCompare tiePairsWithInvalid))
     = [LogInvalid 0.7%Q].
Proof. split; reflexivity. Qed.

(* ================================================================= *)
(** ** The stability score *)

Lemma pairs_without_schema (responses : list (option GeminiResponse))
    (n : nat) :
  Forall (fun r => hasSchema r = false) responses ->
  filter (validPair (T := option Q) codeUnitCompare)
    (List.map (fun ir => (snd ir, nth_error testTemperatures (fst ir)))
              (indexed n responses)) = [].
Proof.
  intros H. revert n. induction H as [|r rs Hr _ IH]; intros n;
    [reflexivity|].
  cbn [indexed List.map filter]. rewrite validPair_hasSchema.
  cbn [fst snd]. rewrite Hr. apply IH.
Qed.

Lemma no_valid_pair_no_group
    (localeCompare : jsstring -> jsstring -> Z) (T : Type)
    (pairs : list (option GeminiResponse * T)) :
  filter (validPair localeCompare) pairs = [] ->
  resultGroups (groupPairs localeCompare pairs) = []
  /\ resultScore (groupPairs localeCompare pairs) = 0%Z.
Proof.
  intros H.
  assert (Hg : resultGroups (groupPairs localeCompare pairs) = []).
  { rewrite groupPairs_groups, collectGroups_skips_invalid, H.
    reflexivity. }
  split; [exact Hg|]. rewrite groupPairs_score, Hg. reflexivity.
Qed.

Lemma validPair_collation
    (localeCompare localeCompare' : jsstring -> jsstring -> Z) (T : Type)
    (p : option GeminiResponse * T) :
  validPair localeCompare p = validPair localeCompare' p.
Proof. now rewrite !validPair_hasSchema. Qed.

Lemma identical_responses_one_group
    (localeCompare : jsstring -> jsstring -> Z)
    (r1 r2 r3 r4 r5 : GeminiResponse) (k : jsstring) :
  keyOfResponse localeCompare r1 = Some k ->
  keyOfResponse localeCompare r2 = Some k ->
  keyOfResponse localeCompare r3 = Some k ->
  keyOfResponse localeCompare r4 = Some k ->
  keyOfResponse localeCompare r5 = Some k ->
  resultGroups (groupResponses localeCompare
                  [Some r1; Some r2; Some r3; Some r4; Some r5])
  = [mkGroup r1 [Some 0.5; Some 0.6; Some 0.7; Some 0.8; Some 0.9]%Q 5].
Proof.
  unfold keyOfResponse. intros H1 H2 H3 H4 H5.
  destruct r1 as [[s1|] j1], r2 as [[s2|] j2], r3 as [[s3|] j3],
    r4 as [[s4|] j4], r5 as [[s5|] j5]; try discriminate.
  cbn [schema option_map] in *.
  injection H1 as H1. injection H2 as H2. injection H3 as H3.
  injection H4 as H4. injection H5 as H5.
  unfold groupResponses, pairWithTemperatures, groupPairs, collectGroups.
  cbn [indexed List.map fst snd nth_error testTemperatures fold_left].
  unfold processResponse. cbn [schema].
  rewrite H1, H2, H3, H4, H5.
  unfold mapSet.
  repeat (progress (rewrite ?jsstring_eqb_refl;
                    cbn [orb mapHas mapModify app geRepresentative
                         geTemperatures])).
  reflexivity.
Qed.

Lemma head_is_largest (T : Type) (gs : list (RobustnessGroup T))
    (g : RobustnessGroup T) :
  StronglySorted (notAfter (bySizeDesc (T:=T))) gs ->
  In g gs -> (count g <= maxCountOf gs)%Z.
Proof.
  intros Hs Hin. destruct gs as [|h r]; [contradiction|].
  cbn [maxCountOf]. destruct Hin as [-> | Hin]; [lia|].
  apply StronglySorted_inv in Hs. destruct Hs as [_ Hall].
  rewrite Forall_forall in Hall. specialize (Hall g Hin).
  unfold notAfter, bySizeDesc in Hall. lia.
Qed.

Lemma groups_sorted (localeCompare : jsstring -> jsstring -> Z) (T : Type)
    (ps : list (option GeminiResponse * T)) :
  StronglySorted (notAfter (bySizeDesc (T:=T)))
                 (resultGroups (groupPairs localeCompare ps)).
Proof.
  rewrite groupPairs_groups. unfold formatGroups.
  apply sortBy_sorted. apply bySizeDesc_consistent.
Qed.

Lemma sameStructure_usersOnce : sameStructure usersOnce usersOnce.
Proof.
  split.
  - intros x. reflexivity.
  - intros c1 c2 [<- | []] [<- | []] _ x. cbn. tauto.
Qed.

Lemma sameStructure_usersTwice : sameStructure usersTwice usersTwice.
Proof.
  split.
  - intros x. reflexivity.
  - intros c1 c2 [<- | []] [<- | []] _ x. cbn. tauto.
Qed.

Lemma usersOnce_usersTwice_sameStructure : sameStructure usersOnce usersTwice.
Proof.
  split.
  - intros x. reflexivity.
  - intros c1 c2 [<- | []] [<- | []] _ x. cbn. tauto.
Qed.

Lemma sameStructure_either_order (s1 s2 : Schema) :
  s1 = idStringNumber \/ s1 = idNumberString ->
  s2 = idStringNumber \/ s2 = idNumberString ->
  sameStructure s1 s2.
Proof.
  intros [-> | ->] [-> | ->]; (split;
    [ intros x; reflexivity
    | intros c1 c2 [<- | []] [<- | []] _ x; cbn; tauto ]).
Qed.

Lemma sameStructure_blog (s1 s2 : Schema) :
  s1 = blogSchema \/ s1 = blogSchemaShuffled ->
  s2 = blogSchema \/ s2 = blogSchemaShuffled ->
  sameStructure s1 s2.
Proof.
  intros H1 H2.
  apply (same_normal_form_same_structure codeUnitCompare_consistent).
  - destruct H2 as [-> | ->];
      [exact blogSchema_uniqueNames | exact blogSchemaShuffled_uniqueNames].
  - destruct H1 as [-> | ->], H2 as [-> | ->]; vm_compute; reflexivity.
Qed.

(** With unique names, responses of one structure have one key. *)
Lemma one_structure_one_key (localeCompare : jsstring -> jsstring -> Z)
    (responses : list (option GeminiResponse))
    (r1 : GeminiResponse) (s1 : Schema) :
  consistentComparator localeCompare ->
  structurallyIdentical responses ->
  uniquelyNamed localeCompare responses ->
  In (Some r1) responses -> schema r1 = Some s1 ->
  forall r, In r responses ->
    exists x, r = Some x
              /\ keyOfResponse localeCompare x
                 = Some (normalizedString localeCompare s1).
Proof.
  intros Hc Hsame Huniq Hin1 Hs1 r Hin.
  destruct (Hsame (Some r1) r Hin1 Hin)
    as (x1 & t1 & x & t & E1 & Ht1 & -> & Ht & Hst).
  injection E1 as <-. rewrite Hs1 in Ht1. injection Ht1 as <-.
  exists x. split; [reflexivity|].
  unfold keyOfResponse. rewrite Ht. cbn [option_map]. f_equal.
  unfold normalizedString. f_equal. symmetry.
  apply (same_structure_same_normal_form Hc).
  - exact (Huniq r1 s1 Hin1 Hs1).
  - exact (Huniq x t Hin Ht).
  - exact Hst.
Qed.

(** C3.  The score is a function of the count of the first group after
    sorting: 5, 4, 3, 2 give 100, 75, 50, 25, and 1 or less gives 0; the
    first group is the largest one; responses that all lack a schema
    give no group and score 0; five responses with one and the same
    normalized schema give one group of count 5 and score 100, and so
    do five structurally identical responses whose schemas keep the
    data model's invariant of unique names. *)
Theorem robustness_score (localeCompare : jsstring -> jsstring -> Z) :
  consistentComparator localeCompare ->
  scoreOf 5 = 100%Z /\ scoreOf 4 = 75%Z /\ scoreOf 3 = 50%Z
  /\ scoreOf 2 = 25%Z
  /\ (forall maxCount, (maxCount <= 1)%Z -> scoreOf maxCount = 0%Z)
  /\ (forall responses,
        resultScore (groupResponses localeCompare responses)
        = scoreOf (maxCountOf
                     (resultGroups (groupResponses localeCompare responses))))
  /\ maxCountOf (T := option Q) [] = 0%Z
  /\ (forall (g : RobustnessGroup (option Q)) gs,
        maxCountOf (g :: gs) = count g)
  /\ (forall responses g,
        In g (resultGroups (groupResponses localeCompare responses)) ->
        (count g
         <= maxCountOf
              (resultGroups (groupResponses localeCompare responses)))%Z)
  /\ (forall responses,
        Forall (fun r => hasSchema r = false) responses ->
        resultGroups (groupResponses localeCompare responses) = []
        /\ resultScore (groupResponses localeCompare responses) = 0%Z)
  /\ (forall r1 r2 r3 r4 r5 k,
        keyOfResponse localeCompare r1 = Some k ->
        keyOfResponse localeCompare r2 = Some k ->
        keyOfResponse localeCompare r3 = Some k ->
        keyOfResponse localeCompare r4 = Some k ->
        keyOfResponse localeCompare r5 = Some k ->
        let result := groupResponses localeCompare
                        [Some r1; Some r2; Some r3; Some r4; Some r5] in
        resultGroups result
        = [mkGroup r1 [Some 0.5; Some 0.6; Some 0.7; Some 0.8; Some 0.9]%Q 5]
        /\ resultScore result = 100%Z)
  /\ (forall responses,
        List.length responses = 5 ->
        structurallyIdentical responses ->
        uniquelyNamed localeCompare responses ->
        let result := groupResponses localeCompare responses in
        exists r1,
          nth_error responses 0 = Some (Some r1)
          /\ resultGroups result
             = [mkGroup r1
                  [Some 0.5; Some 0.6; Some 0.7; Some 0.8; Some 0.9]%Q 5]
          /\ resultScore result = 100%Z).
Proof.
  intros Hc.
  assert (Hkey : forall r1 r2 r3 r4 r5 k,
            keyOfResponse localeCompare r1 = Some k ->
            keyOfResponse localeCompare r2 = Some k ->
            keyOfResponse localeCompare r3 = Some k ->
            keyOfResponse localeCompare r4 = Some k ->
            keyOfResponse localeCompare r5 = Some k ->
            let result := groupResponses localeCompare
                            [Some r1; Some r2; Some r3; Some r4; Some r5] in
            resultGroups result
            = [mkGroup r1
                 [Some 0.5; Some 0.6; Some 0.7; Some 0.8; Some 0.9]%Q 5]
            /\ resultScore result = 100%Z).
  { intros r1 r2 r3 r4 r5 k H1 H2 H3 H4 H5 result. subst result.
    pose proof (identical_responses_one_group
                  localeCompare r1 r2 r3 r4 r5 H1 H2 H3 H4 H5) as Hg.
    split; [exact Hg|].
    unfold groupResponses in *. rewrite groupPairs_score, Hg. reflexivity. }
  repeat match goal with |- _ /\ _ => split end; try reflexivity.
  - intros n Hn. unfold scoreOf.
    destruct (Z.eqb_spec n 5); [lia|]. destruct (Z.eqb_spec n 4); [lia|].
    destruct (Z.eqb_spec n 3); [lia|]. destruct (Z.eqb_spec n 2); [lia|].
    reflexivity.
  - intros responses. apply groupPairs_score.
  - intros responses g Hin. apply head_is_largest; [|exact Hin].
    apply groups_sorted.
  - intros responses H. apply no_valid_pair_no_group.
    rewrite <- (pairs_without_schema 0 H).
    apply filter_ext. intros p. apply validPair_collation.
  - exact Hkey.
  - intros responses Hlen Hsame Huniq result. subst result.
    destruct responses as [|o1 [|o2 [|o3 [|o4 [|o5 [|o6 rest]]]]]];
      try discriminate Hlen.
    destruct (Hsame o1 o1 (or_introl eq_refl) (or_introl eq_refl))
      as (x1 & s1 & _ & _ & -> & Hs1 & _).
    assert (Hall := @one_structure_one_key localeCompare
                      [Some x1; o2; o3; o4; o5] x1 s1 Hc Hsame Huniq
                      (or_introl eq_refl) Hs1).
    destruct (Hall (Some x1)) as (y1 & E1 & K1); [cbn; tauto|].
    destruct (Hall o2) as (x2 & -> & K2); [cbn; tauto|].
    destruct (Hall o3) as (x3 & -> & K3); [cbn; tauto|].
    destruct (Hall o4) as (x4 & -> & K4); [cbn; tauto|].
    destruct (Hall o5) as (x5 & -> & K5); [cbn; tauto|].
    injection E1 as <-.
    exists x1. split; [reflexivity|].
    exact (Hkey x1 x2 x3 x4 x5 _ K1 K2 K3 K4 K5).
Qed.

Lemma blogAndShuffled_identical : structurallyIdentical blogAndShuffled.
Proof.
  intros r1 r2 H1 H2. unfold blogAndShuffled, responseOf in *.
  cbn [In] in H1, H2.
  assert (E1 : exists s, r1 = Some (mkResponse (Some s) (JStr []))
                          /\ (s = blogSchema \/ s = blogSchemaShuffled)).
  { intuition (subst; eauto). }
  assert (E2 : exists s, r2 = Some (mkResponse (Some s) (JStr []))
                          /\ (s = blogSchema \/ s = blogSchemaShuffled)).
  { intuition (subst; eauto). }
  destruct E1 as (s1 & -> & Hs1), E2 as (s2 & -> & Hs2).
  exists (mkResponse (Some s1) (JStr [])), s1,
         (mkResponse (Some s2) (JStr [])), s2.
  do 4 (split; [reflexivity|]).
  apply sameStructure_blog; assumption.
Qed.

Lemma blogAndShuffled_uniquelyNamed :
  uniquelyNamed codeUnitCompare blogAndShuffled.
Proof.
  intros x s Hin Hs. unfold blogAndShuffled, responseOf in Hin.
  cbn [In] in Hin.
  assert (E : s = blogSchema \/ s = blogSchemaShuffled).
  { intuition (match goal with
               | H : Some _ = Some x |- _ => injection H as <-
               end; cbn in Hs; injection Hs as <-; auto). }
  destruct E as [-> | ->];
    [exact blogSchema_uniqueNames | exact blogSchemaShuffled_uniqueNames].
Qed.

Lemma robustness_score_witness :
  scoreOf 1 = 0%Z
  /\ resultScore (groupResponses codeUnitCompare
                    [None; Some (mkResponse None JNull); None; None; None])
     = 0%Z
  /\ (exists r1,
        nth_error blogAndShuffled 0 = Some (Some r1)
        /\ resultGroups (groupResponses codeUnitCompare blogAndShuffled)
           = [mkGroup r1
                [Some 0.5; Some 0.6; Some 0.7; Some 0.8; Some 0.9]%Q 5]
        /\ resultScore (groupResponses codeUnitCompare blogAndShuffled)
           = 100%Z).
Proof.
  destruct (robustness_score codeUnitCompare_consistent)
    as (_ & _ & _ & _ & Hlow & _ & _ & _ & _ & Hnone & _ & Hsame).
  split; [apply Hlow; lia|]. split.
  - apply Hnone. repeat constructor.
  - apply (Hsame blogAndShuffled eq_refl blogAndShuffled_identical
                 blogAndShuffled_uniquelyNamed).
Defined.

Lemma onceAndTwice_identical : structurallyIdentical onceAndTwice.
Proof.
  intros r1 r2 H1 H2. unfold onceAndTwice, responseOf in *.
  cbn [In] in H1, H2.
  assert (E1 : exists s, r1 = Some (mkResponse (Some s) (JStr []))
                          /\ (s = usersOnce \/ s = usersTwice)).
  { intuition (subst; eauto). }
  assert (E2 : exists s, r2 = Some (mkResponse (Some s) (JStr []))
                          /\ (s = usersOnce \/ s = usersTwice)).
  { intuition (subst; eauto). }
  destruct E1 as (s1 & -> & Hs1), E2 as (s2 & -> & Hs2).
  exists (mkResponse (Some s1) (JStr [])), s1,
         (mkResponse (Some s2) (JStr [])), s2.
  do 4 (split; [reflexivity|]).
  destruct Hs1 as [-> | ->], Hs2 as [-> | ->].
  - exact sameStructure_usersOnce.
  - exact usersOnce_usersTwice_sameStructure.
  - exact usersTwice_usersOnce_sameStructure.
  - exact sameStructure_usersTwice.
Qed.

Lemma eitherFieldOrder_identical : structurallyIdentical eitherFieldOrder.
Proof.
  intros r1 r2 H1 H2. unfold eitherFieldOrder, responseOf in *.
  cbn [In] in H1, H2.
  assert (E1 : exists s, r1 = Some (mkResponse (Some s) (JStr []))
                          /\ (s = idStringNumber \/ s = idNumberString)).
  { intuition (subst; eauto). }
  assert (E2 : exists s, r2 = Some (mkResponse (Some s) (JStr []))
                          /\ (s = idStringNumber \/ s = idNumberString)).
  { intuition (subst; eauto). }
  destruct E1 as (s1 & -> & Hs1), E2 as (s2 & -> & Hs2).
  exists (mkResponse (Some s1) (JStr [])), s1,
         (mkResponse (Some s2) (JStr [])), s2.
  do 4 (split; [reflexivity|]).
  apply sameStructure_either_order; assumption.
Qed.

(** C3 as stated fails: five structurally identical responses need not
    form one group.  A field listed once or twice, and two same-named
    fields in either order, give the same sets of names and pairs and
    yet two keys: groups of three and two, and score 50. *)
Lemma structurally_identical_yet_two_groups :
  ~ (structurallyIdentical onceAndTwice ->
     exists g,
       resultGroups (groupResponses codeUnitCompare onceAndTwice) = [g]
       /\ count g = 5%Z
       /\ resultScore (groupResponses codeUnitCompare onceAndTwice) = 100%Z)
  /\ ~ (structurallyIdentical eitherFieldOrder ->
        exists g,
          resultGroups (groupResponses codeUnitCompare eitherFieldOrder)
          = [g]
          /\ count g = 5%Z
          /\ resultScore (groupResponses codeUnitCompare eitherFieldOrder)
             = 100%Z)
  /\ groupSummary (groupResponses codeUnitCompare onceAndTwice)
     = [([Some 0.5; Some 0.7; Some 0.9], 3%Z);
        ([Some 0.6; Some 0.8], 2%Z)]%Q
  /\ resultScore (groupResponses codeUnitCompare onceAndTwice) = 50%Z
  /\ groupSummary (groupResponses codeUnitCompare eitherFieldOrder)
     = [([Some 0.5; Some 0.7; Some 0.9], 3%Z);
        ([Some 0.6; Some 0.8], 2%Z)]%Q
  /\ resultScore (groupResponses codeUnitCompare eitherFieldOrder) = 50%Z.
Proof.
  split; [|split].
  - intros H. destruct (H onceAndTwice_identical) as (g & _ & _ & Hs).
    vm_compute in Hs. discriminate Hs.
  - intros H. destruct (H eitherFieldOrder_identical) as (g & _ & _ & Hs).
    vm_compute in Hs. discriminate Hs.
  - repeat apply conj; vm_compute; reflexivity.
Qed.

(* ================================================================= *)
(** ** The requirement highlighter *)

Section SplitFacts.
Variable canonicalize : codeunit -> codeunit.

(** The pieces of the split, put together again, are the text. *)
Lemma splitLoop_concat (alternatives : list jsstring)
    (rest segment : jsstring) (skip : nat) :
  List.concat (splitLoop canonicalize alternatives rest segment skip)
  = segment ++ skipn skip rest.
Proof.
  revert segment skip.
  induction rest as [|c rest IH]; intros segment skip.
  - simpl. now rewrite skipn_nil, !app_nil_r.
  - cbn [splitLoop]. destruct skip as [|k]; [|now rewrite IH].
    destruct (execAt canonicalize alternatives (c :: rest)) as [[|k]|].
    + destruct segment as [|s segment].
      * now rewrite IH.
      * cbn [List.concat]. rewrite IH. reflexivity.
    + cbn [List.concat]. rewrite IH. cbn [app skipn firstn].
      now rewrite firstn_skipn.
    + rewrite IH. cbn [skipn]. now rewrite <- app_assoc.
Qed.

Lemma split_concat (alternatives : list jsstring) (text : jsstring) :
  List.concat (split canonicalize alternatives text) = text.
Proof.
  destruct text as [|c text].
  - simpl. now destruct (execAt canonicalize alternatives []).
  - unfold split. now rewrite splitLoop_concat.
Qed.
End SplitFacts.

Lemma concat_filter_nonEmpty (parts : list jsstring) :
  List.concat (filter nonEmpty parts) = List.concat parts.
Proof.
  induction parts as [|[|c p] parts IH]; simpl; [reflexivity | exact IH |].
  now rewrite IH.
Qed.

Lemma segmentText_renderPart (toLowerCase : jsstring -> jsstring)
    (phrases : list jsstring) (parts : list jsstring) :
  List.map segmentText (List.map (renderPart toLowerCase phrases) parts)
  = parts.
Proof.
  induction parts as [|p parts IH]; simpl; [reflexivity|].
  rewrite IH. unfold renderPart. now destruct (isHighlight _ _ _).
Qed.

(** *** The pattern is the ordered choice of the literal phrases *)

Lemma readAlternatives_escapeRegExp (h rest current : jsstring) :
  readAlternatives (escapeRegExp h ++ rest) current
  = readAlternatives rest (current ++ h).
Proof.
  revert current. induction h as [|c h IH]; intros current.
  - simpl. now rewrite app_nil_r.
  - cbn [escapeRegExp]. destruct (isSyntaxCharacter c) eqn:Hc.
    + cbn [app readAlternatives].
      change (backslash =? 41)%N with false.
      change (backslash =? 124)%N with false.
      change (backslash =? 92)%N with true. cbv iota.
      rewrite Hc, IH, <- app_assoc. reflexivity.
    + cbn [app readAlternatives]. rewrite Hc.
      unfold isSyntaxCharacter in Hc.
      repeat (apply orb_false_iff in Hc; destruct Hc as [Hc ?]).
      repeat match goal with
      | H : (c =? ?k)%N = false |- context [(c =? ?k)%N] => rewrite H
      end.
      rewrite IH, <- app_assoc. reflexivity.
Qed.

Lemma readAlternatives_joinBar (phrases : list jsstring) :
  readAlternatives (joinBar (List.map escapeRegExp phrases) ++ [41%N]) []
  = Some (alternativesOf phrases).
Proof.
  induction phrases as [|h phrases IH]; [reflexivity|].
  destruct phrases as [|h' phrases].
  - cbn [List.map joinBar]. now rewrite readAlternatives_escapeRegExp.
  - change (joinBar (List.map escapeRegExp (h :: h' :: phrases)))
      with (escapeRegExp h
            ++ 124%N :: joinBar (List.map escapeRegExp (h' :: phrases))).
    rewrite <- app_assoc, readAlternatives_escapeRegExp.
    cbn [app readAlternatives].
    change (124 =? 41)%N with false. change (124 =? 124)%N with true.
    cbv iota. rewrite IH. reflexivity.
Qed.

Lemma readPattern_patternSource (phrases : list jsstring) :
  readPattern (patternSource phrases) = Some (alternativesOf phrases).
Proof. apply readAlternatives_joinBar. Qed.

(** *** What is rendered *)

(** The pattern of the component always lies in the fragment read, so
    the component always renders. *)
Lemma RequirementHighlighter_cons (canonicalize : codeunit -> codeunit)
    (toLowerCase : jsstring -> jsstring) (text : jsstring)
    (v : JsValue) (hs : list JsValue) :
  RequirementHighlighter canonicalize toLowerCase text (Some (v :: hs))
  = Some (List.map (renderPart toLowerCase (uniqueHighlights (v :: hs)))
            (filter nonEmpty
               (split canonicalize
                      (alternativesOf (uniqueHighlights (v :: hs))) text))).
Proof.
  unfold RequirementHighlighter. rewrite readPattern_patternSource.
  reflexivity.
Qed.

Lemma highlighter_renders (canonicalize : codeunit -> codeunit)
    (toLowerCase : jsstring -> jsstring) (text : jsstring)
    (highlights : option (list JsValue)) :
  exists segments,
    RequirementHighlighter canonicalize toLowerCase text highlights
    = Some segments.
Proof.
  destruct highlights as [[|v hs]|]; try (eexists; reflexivity).
  rewrite RequirementHighlighter_cons. eexists. reflexivity.
Qed.

Lemma highlighter_concat (canonicalize : codeunit -> codeunit)
    (toLowerCase : jsstring -> jsstring) (text : jsstring)
    (highlights : option (list JsValue)) (segments : list Segment) :
  RequirementHighlighter canonicalize toLowerCase text highlights
  = Some segments ->
  List.concat (List.map segmentText segments) = text.
Proof.
  destruct highlights as [[|h hs]|];
    try (intros E; injection E as <-; simpl; apply app_nil_r).
  rewrite RequirementHighlighter_cons. intros E. injection E as <-.
  now rewrite segmentText_renderPart, concat_filter_nonEmpty, split_concat.
Qed.

(** C10.  Whatever the text and the highlights, the component renders,
    and the rendered segments, marked and plain, read in order are the
    text: the pattern built from the escaped phrases, the split and the
    filter lose, repeat and move nothing. *)
Theorem segments_rebuild_text (canonicalize : codeunit -> codeunit)
    (toLowerCase : jsstring -> jsstring) (text : jsstring)
    (highlights : option (list JsValue)) :
  exists segments,
    RequirementHighlighter canonicalize toLowerCase text highlights
    = Some segments
    /\ List.concat (List.map segmentText segments) = text.
Proof.
  destruct (highlighter_renders canonicalize toLowerCase text highlights)
    as [segments E].
  exists segments. split; [exact E|].
  exact (highlighter_concat canonicalize toLowerCase text highlights E).
Qed.

(** *** The phrases: filtered, without repetition, longest first *)

Lemma setOf_snoc (xs : list jsstring) (x : jsstring) :
  setOf (xs ++ [x]) = setAdd (setOf xs) x.
Proof. unfold setOf. now rewrite fold_left_app. Qed.

Lemma existsb_eqb_In (x : jsstring) (acc : list jsstring) :
  existsb (jsstring_eqb x) acc = true <-> In x acc.
Proof.
  rewrite existsb_exists. split.
  - intros (y & Hy & E). apply jsstring_eqb_eq in E. now subst.
  - intros H. exists x. split; [exact H | apply jsstring_eqb_refl].
Qed.

Lemma setAdd_In (acc : list jsstring) (x y : jsstring) :
  In y (setAdd acc x) <-> In y acc \/ y = x.
Proof.
  unfold setAdd. destruct (existsb (jsstring_eqb x) acc) eqn:E.
  - apply existsb_eqb_In in E. split; [now left|].
    intros [H | ->]; assumption.
  - rewrite in_app_iff. simpl. split.
    + intros [H|[<- | []]]; auto.
    + intros [H | ->]; auto.
Qed.

Lemma setAdd_known (acc : list jsstring) (x : jsstring) :
  In x acc -> setAdd acc x = acc.
Proof.
  intros H. unfold setAdd. apply existsb_eqb_In in H. now rewrite H.
Qed.

Lemma setOf_In (xs : list jsstring) (x : jsstring) :
  In x (setOf xs) <-> In x xs.
Proof.
  induction xs as [|y xs IH] using rev_ind; [reflexivity|].
  rewrite setOf_snoc, setAdd_In, IH, in_app_iff. simpl.
  intuition (subst; auto).
Qed.

Lemma setOf_NoDup (xs : list jsstring) : NoDup (setOf xs).
Proof.
  induction xs as [|y xs IH] using rev_ind; [constructor|].
  rewrite setOf_snoc. unfold setAdd.
  destruct (existsb (jsstring_eqb y) (setOf xs)) eqn:E; [exact IH|].
  apply NoDup_app.
  - exact IH.
  - repeat constructor. intros [].
  - intros a Ha [<- | []]. apply existsb_eqb_In in Ha. congruence.
Qed.

Lemma stringsOf_In (highlights : list JsValue) (x : jsstring) :
  In x (stringsOf highlights) <-> In (JStr x) highlights.
Proof.
  induction highlights as [|h hs IH]; [reflexivity|].
  destruct h; simpl; rewrite ?IH; split; intros H; auto;
    try (destruct H as [H|H]; [discriminate | exact H]).
  - destruct H as [-> | H]; auto.
  - destruct H as [H|H]; [injection H as ->|]; auto.
Qed.

Lemma stringsOf_app (hs hs' : list JsValue) :
  stringsOf (hs ++ hs') = stringsOf hs ++ stringsOf hs'.
Proof.
  induction hs as [|h hs IH]; [reflexivity|].
  destruct h; simpl; now rewrite ?IH.
Qed.

Lemma byLengthDesc_consistent : consistentComparator byLengthDesc.
Proof. split; unfold byLengthDesc; intros; lia. Qed.

Lemma uniqueHighlights_In (highlights : list JsValue) (h : jsstring) :
  In h (uniqueHighlights highlights) <-> In (JStr h) highlights.
Proof.
  unfold uniqueHighlights. now rewrite sortBy_In, setOf_In, stringsOf_In.
Qed.

Lemma uniqueHighlights_NoDup (highlights : list JsValue) :
  NoDup (uniqueHighlights highlights).
Proof.
  unfold uniqueHighlights.
  eapply Permutation_NoDup;
    [apply Permutation_sym, sortBy_perm | apply setOf_NoDup].
Qed.

Lemma uniqueHighlights_sorted (highlights : list JsValue) :
  StronglySorted (fun a b => List.length b <= List.length a)
                 (uniqueHighlights highlights).
Proof.
  apply (StronglySorted_impl_In (R := notAfter byLengthDesc)).
  - intros a b _ _. unfold notAfter, byLengthDesc. lia.
  - apply sortBy_sorted, byLengthDesc_consistent.
Qed.

Lemma uniqueHighlights_repeated (highlights : list JsValue) (h : JsValue) :
  In h highlights ->
  uniqueHighlights (highlights ++ [h]) = uniqueHighlights highlights.
Proof.
  intros Hin. unfold uniqueHighlights. f_equal.
  rewrite stringsOf_app.
  destruct h; simpl; rewrite ?app_nil_r; try reflexivity.
  rewrite setOf_snoc. apply setAdd_known.
  now apply setOf_In, stringsOf_In.
Qed.

Lemma alternativesOf_sorted (phrases : list jsstring) :
  StronglySorted (fun a b => List.length b <= List.length a) phrases ->
  StronglySorted (fun a b => List.length b <= List.length a)
                 (alternativesOf phrases).
Proof.
  destruct phrases; [|auto]. intros _. repeat constructor.
Qed.

Section MatchFacts.
Variable canonicalize : codeunit -> codeunit.

(** A literal matches where the text starts with the phrase, letter by
    letter up to case. *)
Lemma matchLiteral_spec (phrase rest : jsstring) :
  matchLiteral canonicalize phrase rest = true
  <-> exists m post,
        rest = m ++ post
        /\ List.map canonicalize m = List.map canonicalize phrase.
Proof.
  revert rest. induction phrase as [|a phrase IH]; intros rest.
  - simpl. split; [|reflexivity]. intros _. now exists [], rest.
  - destruct rest as [|b rest]; simpl.
    + split; [discriminate|]. intros (m & post & E & Hm).
      destruct m; discriminate.
    + rewrite andb_true_iff, N.eqb_eq, IH. split.
      * intros (Hab & m & post & -> & Hm). exists (b :: m), post.
        simpl. now rewrite Hab, Hm.
      * intros (m & post & E & Hm). destruct m as [|b' m]; [discriminate|].
        simpl in E, Hm. injection E as -> ->. injection Hm as Hb Hm.
        split; [congruence|]. now exists m, post.
Qed.

Lemma execAt_Some (alternatives : list jsstring) (rest : jsstring)
    (n : nat) :
  execAt canonicalize alternatives rest = Some n ->
  exists h, In h alternatives
            /\ matchLiteral canonicalize h rest = true
            /\ n = List.length h.
Proof.
  induction alternatives as [|h r IH]; simpl; [discriminate|].
  destruct (matchLiteral canonicalize h rest) eqn:E.
  - intros H. injection H as <-. exists h. auto.
  - intros H. destruct (IH H) as (h' & Hin & Hm & ->). exists h'. auto.
Qed.

(** With the alternatives in descending length, the match taken at a
    position is as long as any phrase that matches there. *)
Lemma execAt_longest (alternatives : list jsstring) (rest h : jsstring) :
  StronglySorted (fun a b => List.length b <= List.length a) alternatives ->
  In h alternatives -> matchLiteral canonicalize h rest = true ->
  exists n, execAt canonicalize alternatives rest = Some n
            /\ List.length h <= n.
Proof.
  induction 1 as [|a r Hs IH Hall]; intros Hin Hm; [contradiction|].
  simpl. destruct (matchLiteral canonicalize a rest) eqn:Ea.
  - exists (List.length a). split; [reflexivity|].
    destruct Hin as [-> | Hin]; [lia|].
    rewrite Forall_forall in Hall. now apply Hall.
  - destruct Hin as [-> | Hin]; [congruence|]. now apply IH.
Qed.
End MatchFacts.

(** *** Where the text is cut depends on its letters up to case only *)

Section SplitShape.
Variable canonicalize : codeunit -> codeunit.

Lemma matchLiteral_folded (phrase rest rest' : jsstring) :
  List.map canonicalize rest = List.map canonicalize rest' ->
  matchLiteral canonicalize phrase rest
  = matchLiteral canonicalize phrase rest'.
Proof.
  revert rest rest'.
  induction phrase as [|a phrase IH]; intros rest rest' H; [reflexivity|].
  destruct rest as [|b rest], rest' as [|b' rest']; try discriminate;
    [reflexivity|].
  simpl in *. injection H as Hb H. now rewrite Hb, (IH _ _ H).
Qed.

Lemma execAt_folded (alternatives : list jsstring) (rest rest' : jsstring) :
  List.map canonicalize rest = List.map canonicalize rest' ->
  execAt canonicalize alternatives rest
  = execAt canonicalize alternatives rest'.
Proof.
  intros H. induction alternatives as [|h r IH]; [reflexivity|].
  simpl. now rewrite (matchLiteral_folded h _ _ H), IH.
Qed.

Lemma splitLoop_shape (alternatives : list jsstring)
    (rest rest' segment segment' : jsstring) (skip : nat) :
  List.map canonicalize rest = List.map canonicalize rest' ->
  List.length segment = List.length segment' ->
  List.map (@List.length codeunit)
    (splitLoop canonicalize alternatives rest segment skip)
  = List.map (@List.length codeunit)
      (splitLoop canonicalize alternatives rest' segment' skip).
Proof.
  revert rest' segment segment' skip.
  induction rest as [|c rest IH]; intros [|c' rest'] segment segment' skip
    H Hs; try discriminate.
  - simpl. now rewrite Hs.
  - pose proof H as H0. simpl in H. injection H as Hc H.
    assert (Hl : List.length rest = List.length rest').
    { rewrite <- (length_map canonicalize rest), H. apply length_map. }
    cbn [splitLoop]. destruct skip as [|k]; [|now apply IH].
    rewrite (execAt_folded alternatives _ _ H0).
    destruct (execAt canonicalize alternatives (c' :: rest')) as [[|k]|].
    + destruct segment, segment'; try discriminate.
      * now apply IH.
      * cbn [List.map]. rewrite Hs. f_equal. f_equal. now apply IH.
    + cbn [List.map]. rewrite Hs. f_equal.
      rewrite (IH rest' [] [] k H eq_refl). f_equal.
      cbn [firstn List.length]. now rewrite !length_firstn, Hl.
    + apply IH; [exact H|]. rewrite !length_app. simpl. lia.
Qed.

Lemma split_shape (alternatives : list jsstring) (text text' : jsstring) :
  List.map canonicalize text = List.map canonicalize text' ->
  List.map (@List.length codeunit) (split canonicalize alternatives text)
  = List.map (@List.length codeunit) (split canonicalize alternatives text').
Proof.
  intros H. destruct text as [|c text], text' as [|c' text'];
    try discriminate; [reflexivity|].
  unfold split. now apply splitLoop_shape.
Qed.
End SplitShape.

Lemma cutBy_lengths (parts : list jsstring) (text : jsstring) :
  List.concat parts = text ->
  parts = cutBy (List.map (@List.length codeunit) parts) text.
Proof.
  revert text. induction parts as [|p parts IH]; intros text H;
    [reflexivity|].
  simpl in *. subst text.
  rewrite firstn_app, Nat.sub_diag, firstn_all, firstn_O, app_nil_r.
  rewrite skipn_app, Nat.sub_diag, skipn_all. simpl.
  f_equal. now apply IH.
Qed.

(** *** Hosts agree on ASCII text *)

Section AsciiText.
Variables canonicalize canonicalize' : codeunit -> codeunit.
Hypothesis canonicalize_agree :
  forall c, (c < 128)%N -> canonicalize c = canonicalize' c.

Lemma matchLiteral_ascii (phrase rest : jsstring) :
  isAscii phrase -> isAscii rest ->
  matchLiteral canonicalize phrase rest
  = matchLiteral canonicalize' phrase rest.
Proof.
  intros Hp. revert rest. induction Hp as [|a phrase Ha _ IH];
    intros rest Hr; [reflexivity|].
  destruct Hr as [|b rest Hb Hr]; [reflexivity|].
  simpl. now rewrite !canonicalize_agree, IH.
Qed.

Lemma execAt_ascii (alternatives : list jsstring) (rest : jsstring) :
  Forall isAscii alternatives -> isAscii rest ->
  execAt canonicalize alternatives rest
  = execAt canonicalize' alternatives rest.
Proof.
  intros Ha Hr. induction Ha as [|h r Hh _ IH]; [reflexivity|].
  simpl. now rewrite matchLiteral_ascii, IH.
Qed.

Lemma splitLoop_ascii (alternatives : list jsstring)
    (rest segment : jsstring) (skip : nat) :
  Forall isAscii alternatives -> isAscii rest ->
  splitLoop canonicalize alternatives rest segment skip
  = splitLoop canonicalize' alternatives rest segment skip.
Proof.
  intros Ha Hr. revert segment skip.
  induction Hr as [|c rest Hc Hr IH]; intros segment skip; [reflexivity|].
  cbn [splitLoop]. destruct skip as [|k]; [|apply IH].
  rewrite execAt_ascii by (auto; now constructor).
  destruct (execAt canonicalize' alternatives (c :: rest)) as [[|k]|];
    [destruct segment| |]; now rewrite IH.
Qed.

Lemma split_ascii (alternatives : list jsstring) (text : jsstring) :
  Forall isAscii alternatives -> isAscii text ->
  split canonicalize alternatives text
  = split canonicalize' alternatives text.
Proof.
  intros Ha Ht. unfold split. rewrite splitLoop_ascii by assumption.
  now rewrite execAt_ascii by (auto; constructor).
Qed.
End AsciiText.

Lemma isAscii_check (s : jsstring) :
  forallb (fun c => (c <? 128)%N) s = true -> isAscii s.
Proof.
  intros H. unfold isAscii. rewrite Forall_forall. intros c Hc.
  rewrite forallb_forall in H. now apply N.ltb_lt, H.
Qed.

Lemma asciiLower_lt (c : codeunit) :
  (asciiLower c < 128)%N -> (c < 128)%N.
Proof.
  unfold asciiLower.
  destruct ((65 <=? c)%N && (c <=? 90)%N) eqn:E; [|auto].
  apply andb_true_iff in E. rewrite !N.leb_le in E. lia.
Qed.

Lemma asciiToLowerCase_isAscii (t : jsstring) :
  isAscii (asciiToLowerCase t) -> isAscii t.
Proof.
  unfold isAscii, asciiToLowerCase. rewrite Forall_map.
  apply Forall_impl. exact asciiLower_lt.
Qed.

Lemma asciiUpper_asciiLower (c : codeunit) :
  asciiUpper (asciiLower c) = asciiUpper c.
Proof.
  unfold asciiUpper, asciiLower.
  destruct (N.leb_spec 65 c), (N.leb_spec c 90); cbn [andb];
    repeat match goal with
    | |- context [(?a <=? ?b)%N] =>
        destruct (N.leb_spec a b); cbn [andb]
    end; lia.
Qed.

Section AsciiHighlighting.
Variable canonicalize : codeunit -> codeunit.
Variable toLowerCase : jsstring -> jsstring.
Hypothesis canonicalize_ascii :
  forall c, (c < 128)%N -> canonicalize c = asciiUpper c.
Hypothesis toLowerCase_ascii :
  forall s, isAscii s -> toLowerCase s = asciiToLowerCase s.

Lemma canonicalize_folded (t t' : jsstring) :
  isAscii t -> isAscii t' ->
  asciiToLowerCase t = asciiToLowerCase t' ->
  List.map canonicalize t = List.map canonicalize t'.
Proof.
  intros Ht. revert t'. induction Ht as [|c t Hc _ IH];
    intros t' Ht' E; destruct Ht' as [|c' t' Hc' Ht']; try discriminate;
    [reflexivity|].
  simpl in E. injection E as Ec E. simpl.
  rewrite (IH t' Ht' E), !canonicalize_ascii by assumption.
  now rewrite <- (asciiUpper_asciiLower c), Ec, asciiUpper_asciiLower.
Qed.

Lemma isHighlight_ascii (phrases : list jsstring) (part : jsstring) :
  Forall isAscii phrases -> isAscii part ->
  isHighlight toLowerCase phrases part
  = isHighlight asciiToLowerCase phrases part.
Proof.
  intros Hp Ha. unfold isHighlight.
  induction Hp as [|h phrases Hh _ IH]; [reflexivity|].
  simpl. now rewrite IH, !toLowerCase_ascii by assumption.
Qed.
End AsciiHighlighting.

Lemma isAscii_app (a b : jsstring) :
  isAscii (a ++ b) <-> isAscii a /\ isAscii b.
Proof. unfold isAscii. apply Forall_app. Qed.

Lemma asciiToLowerCase_length (s : jsstring) :
  List.length (asciiToLowerCase s) = List.length s.
Proof. unfold asciiToLowerCase. apply length_map. Qed.

Lemma asciiLower_ascii (c : codeunit) : (c < 128 -> asciiLower c < 128)%N.
Proof.
  unfold asciiLower.
  destruct (N.leb_spec 65 c), (N.leb_spec c 90); cbn [andb]; lia.
Qed.

Lemma isAscii_concat (parts : list jsstring) :
  isAscii (List.concat parts) -> Forall isAscii parts.
Proof.
  induction parts as [|p r IH]; cbn [List.concat]; intros H; [constructor|].
  apply isAscii_app in H. destruct H as [H1 H2].
  constructor; [exact H1 | apply IH; exact H2].
Qed.

(** *** The example of the specification, in any case of its letters *)

Section AsciiExample.
Variable canonicalize : codeunit -> codeunit.
Variable toLowerCase : jsstring -> jsstring.
Hypothesis canonicalize_ascii :
  forall c, (c < 128)%N -> canonicalize c = asciiUpper c.
Hypothesis toLowerCase_ascii :
  forall s, isAscii s -> toLowerCase s = asciiToLowerCase s.

(** On ASCII text and phrases every such host renders the same. *)
Lemma render_on_ascii (text : jsstring) (highlights : list JsValue) :
  isAscii text -> Forall isAscii (stringsOf highlights) ->
  RequirementHighlighter canonicalize toLowerCase text (Some highlights)
  = RequirementHighlighter asciiUpper asciiToLowerCase text
      (Some highlights).
Proof.
  intros Ht Hh. destruct highlights as [|v hs]; [reflexivity|].
  rewrite !RequirementHighlighter_cons. f_equal.
  set (phrases := uniqueHighlights (v :: hs)).
  assert (Ap : Forall isAscii phrases).
  { apply Forall_forall. intros h Hin. rewrite Forall_forall in Hh.
    apply Hh. apply stringsOf_In. apply uniqueHighlights_In. exact Hin. }
  assert (Aa : Forall isAscii (alternativesOf phrases)).
  { destruct phrases; [repeat constructor | exact Ap]. }
  rewrite (@split_ascii canonicalize asciiUpper canonicalize_ascii
             (alternativesOf phrases) text Aa Ht).
  apply map_ext_in. intros p Hp. apply filter_In in Hp.
  destruct Hp as [Hp _]. unfold renderPart.
  rewrite (@isHighlight_ascii toLowerCase toLowerCase_ascii phrases p Ap);
    [reflexivity|].
  assert (Hall : Forall isAscii (split asciiUpper (alternativesOf phrases) text)).
  { apply isAscii_concat. rewrite split_concat. exact Ht. }
  rewrite Forall_forall in Hall. apply Hall. exact Hp.
Qed.

Lemma example_any_case (t : jsstring) :
  asciiToLowerCase t = asciiToLowerCase exampleText ->
  RequirementHighlighter canonicalize toLowerCase t (Some exampleHighlights)
  = Some [Marked (firstn 5 t); Plain (firstn 12 (skipn 5 t));
          Marked (firstn 5 (skipn 17 t)); Plain (skipn 22 t)].
Proof.
  intros Ht.
  assert (Ae : isAscii exampleText) by (apply isAscii_check; reflexivity).
  assert (At : isAscii t).
  { apply asciiToLowerCase_isAscii. rewrite Ht.
    apply isAscii_check. reflexivity. }
  pose proof (canonicalize_folded canonicalize canonicalize_ascii At Ae Ht)
    as Hf.
  unfold exampleHighlights. rewrite RequirementHighlighter_cons.
  replace (uniqueHighlights [JStr (js "posts"); JStr (js "Users")])
    with [js "posts"; js "Users"] by reflexivity.
  cbn [alternativesOf].
  assert (Aa : Forall isAscii [js "posts"; js "Users"])
    by (repeat constructor; apply isAscii_check; reflexivity).
  assert (E : split canonicalize [js "posts"; js "Users"] t
              = cutBy [0; 5; 12; 5; 1] t).
  { rewrite (@cutBy_lengths _ t
               (@split_concat canonicalize [js "posts"; js "Users"] t)) at 1.
    f_equal.
    rewrite (@split_shape canonicalize [js "posts"; js "Users"] t
               exampleText Hf).
    rewrite (@split_ascii canonicalize asciiUpper canonicalize_ascii
               [js "posts"; js "Users"] exampleText Aa Ae).
    reflexivity. }
  rewrite E. clear E Hf.
  unfold asciiToLowerCase in Ht.
  do 23 (destruct t as [|?c t]; [discriminate Ht|]).
  destruct t; [|discriminate Ht].
  cbn [cutBy firstn skipn filter nonEmpty List.map].
  unfold renderPart.
  unfold isAscii in At. rewrite Forall_forall in At.
  repeat rewrite (@isHighlight_ascii toLowerCase toLowerCase_ascii _ _ Aa)
    by (unfold isAscii; repeat constructor; apply At; simpl; tauto).
  clear At Aa Ae.
  unfold exampleText in Ht. cbn in Ht.
  injection Ht as E0 E1 E2 E3 E4 E5 E6 E7 E8 E9 E10 E11 E12 E13 E14 E15 E16
    E17 E18 E19 E20 E21 E22.
  unfold isHighlight, asciiToLowerCase. cbn [List.map existsb].
  rewrite E0, E1, E2, E3, E4, E5, E6, E7, E8, E9, E10, E11, E12, E13, E14,
    E15, E16, E17, E18, E19, E20, E21, E22.
  reflexivity.
Qed.
End AsciiExample.

(** *** Marked spans *)

Lemma in_concat_split (A : Type) (x : list A) (l : list (list A)) :
  In x l -> exists pre post, List.concat l = pre ++ x ++ post.
Proof.
  induction l as [|y l IH]; intros H; [contradiction|].
  destruct H as [-> | H].
  - exists [], (List.concat l). reflexivity.
  - destruct (IH H) as (pre & post & E). exists (y ++ pre), post.
    simpl. now rewrite E, app_assoc.
Qed.

Section MarkedSpans.
Variable canonicalize : codeunit -> codeunit.
Variable toLowerCase : jsstring -> jsstring.

Lemma segment_is_substring (text : jsstring)
    (highlights : option (list JsValue)) (segments : list Segment)
    (seg : Segment) :
  RequirementHighlighter canonicalize toLowerCase text highlights
  = Some segments ->
  In seg segments ->
  exists pre post, text = pre ++ segmentText seg ++ post.
Proof.
  intros R H. apply (in_map segmentText) in H.
  apply in_concat_split in H. destruct H as (pre & post & E).
  rewrite (highlighter_concat canonicalize toLowerCase text highlights R)
    in E.
  now exists pre, post.
Qed.

Lemma marked_is_highlight (text : jsstring) (highlights : list JsValue)
    (segments : list Segment) (part : jsstring) :
  RequirementHighlighter canonicalize toLowerCase text (Some highlights)
  = Some segments ->
  In (Marked part) segments ->
  exists h, In (JStr h) highlights /\ toLowerCase h = toLowerCase part.
Proof.
  destruct highlights as [|h0 hs].
  - intros R. injection R as <-. intros [H|[]]. discriminate.
  - rewrite RequirementHighlighter_cons. intros R. injection R as <-.
    rewrite in_map_iff.
    intros (p & E & _). unfold renderPart in E.
    destruct (isHighlight toLowerCase (uniqueHighlights (h0 :: hs)) p)
      eqn:Hp; [|discriminate].
    injection E as ->. unfold isHighlight in Hp.
    apply existsb_exists in Hp. destruct Hp as (h & Hin & Hh).
    exists h. split; [now apply uniqueHighlights_In|].
    now apply jsstring_eqb_eq.
Qed.

Lemma repeated_highlight (text : jsstring) (highlights : list JsValue)
    (h : JsValue) :
  In h highlights ->
  RequirementHighlighter canonicalize toLowerCase text
    (Some (highlights ++ [h]))
  = RequirementHighlighter canonicalize toLowerCase text (Some highlights).
Proof.
  intros Hin. destruct highlights as [|h0 hs]; [contradiction|].
  cbn [app]. rewrite !RequirementHighlighter_cons.
  change (h0 :: hs ++ [h]) with ((h0 :: hs) ++ [h]).
  now rewrite uniqueHighlights_repeated.
Qed.

Lemma longest_phrase_first (highlights : list JsValue)
    (rest h : jsstring) :
  In (JStr h) highlights ->
  matchLiteral canonicalize h rest = true ->
  exists n,
    execAt canonicalize (alternativesOf (uniqueHighlights highlights)) rest
    = Some n
    /\ List.length h <= n.
Proof.
  intros Hin Hm. apply uniqueHighlights_In in Hin.
  apply execAt_longest; [| |exact Hm].
  - apply alternativesOf_sorted, uniqueHighlights_sorted.
  - destruct (uniqueHighlights highlights); [contradiction | exact Hin].
Qed.
End MarkedSpans.

(** C9.  On hosts whose case mappings act on ASCII text as usual: the
    example text with the highlights posts and Users is rendered as
    Users (marked), the text between, posts (marked) and the full stop,
    whatever the case of the letters of the text.  The pattern the
    component builds from the escaped phrases denotes the phrases
    themselves, so a phrase holding pattern syntax is matched as it
    reads: with the highlight a+b, the text a+b is marked and the text
    aab is not.  In general the component always renders; a literal
    matches exactly where the text reads the phrase up to case, and the
    cuts depend on the text up to case only; a marked span is a piece of
    the text equal, up to case, to a highlight; the phrases are tried in
    descending length, so the match taken at a position is as long as
    any highlight matching there; a phrase is kept once, a repeated
    highlight changes nothing, and the segments tile the text, so no
    portion of it is marked twice. *)
Theorem highlighter_contract (canonicalize : codeunit -> codeunit)
    (toLowerCase : jsstring -> jsstring) :
  (forall c, (c < 128)%N -> canonicalize c = asciiUpper c) ->
  (forall s, isAscii s -> toLowerCase s = asciiToLowerCase s) ->
  let render := RequirementHighlighter canonicalize toLowerCase in
  render exampleText (Some exampleHighlights)
  = Some [Marked (js "Users"); Plain (js " can create ");
          Marked (js "posts"); Plain (js ".")]
  /\ (forall t,
        asciiToLowerCase t = asciiToLowerCase exampleText ->
        render t (Some exampleHighlights)
        = Some [Marked (firstn 5 t); Plain (firstn 12 (skipn 5 t));
                Marked (firstn 5 (skipn 17 t)); Plain (skipn 22 t)])
  /\ render formulaText (Some formulaHighlights)
     = Some [Plain (js "aab or "); Marked (js "A+B"); Plain (js " ");
             Marked (js "("); Marked (js "a+b"); Plain (js ")")]
  /\ (forall highlights,
        readPattern (patternSource (uniqueHighlights highlights))
        = Some (alternativesOf (uniqueHighlights highlights)))
  /\ (forall text highlights,
        exists segments, render text highlights = Some segments)
  /\ (forall phrase rest,
        matchLiteral canonicalize phrase rest = true
        <-> exists m post,
              rest = m ++ post
              /\ List.map canonicalize m = List.map canonicalize phrase)
  /\ (forall alternatives text text',
        List.map canonicalize text = List.map canonicalize text' ->
        List.map (@List.length codeunit)
                 (split canonicalize alternatives text)
        = List.map (@List.length codeunit)
                   (split canonicalize alternatives text'))
  /\ (forall text highlights segments part,
        render text (Some highlights) = Some segments ->
        In (Marked part) segments ->
        (exists h, In (JStr h) highlights
                   /\ toLowerCase h = toLowerCase part)
        /\ exists pre post, text = pre ++ part ++ post)
  /\ (forall highlights,
        StronglySorted (fun a b => List.length b <= List.length a)
                       (uniqueHighlights highlights))
  /\ (forall highlights rest h,
        In (JStr h) highlights ->
        matchLiteral canonicalize h rest = true ->
        exists n,
          execAt canonicalize
                 (alternativesOf (uniqueHighlights highlights)) rest
          = Some n
          /\ List.length h <= n)
  /\ (forall highlights, NoDup (uniqueHighlights highlights))
  /\ (forall text highlights h,
        In h highlights ->
        render text (Some (highlights ++ [h]))
        = render text (Some highlights))
  /\ (forall text highlights segments,
        render text highlights = Some segments ->
        List.concat (List.map segmentText segments) = text).
Proof.
  intros Hc Hl render. subst render.
  repeat match goal with |- _ /\ _ => split end.
  - rewrite (@example_any_case canonicalize toLowerCase Hc Hl
               exampleText eq_refl).
    reflexivity.
  - intros t Ht. now apply example_any_case.
  - rewrite (@render_on_ascii canonicalize toLowerCase Hc Hl).
    + reflexivity.
    + apply isAscii_check. reflexivity.
    + repeat constructor; apply isAscii_check; reflexivity.
  - intros highlights. apply readPattern_patternSource.
  - intros text highlights. apply highlighter_renders.
  - apply matchLiteral_spec.
  - intros alternatives text text'. apply split_shape.
  - intros text highlights segments part R H. split.
    + exact (@marked_is_highlight canonicalize toLowerCase text highlights
               segments part R H).
    + exact (@segment_is_substring canonicalize toLowerCase text
               (Some highlights) segments (Marked part) R H).
  - apply uniqueHighlights_sorted.
  - intros highlights rest h. apply longest_phrase_first.
  - apply uniqueHighlights_NoDup.
  - intros text highlights h. apply repeated_highlight.
  - intros text highlights segments. apply highlighter_concat.
Qed.

(** The choice is among the phrases that match at one position; the
    scan still goes from left to right, so a phrase that starts earlier
    in the text is found first. *)
Example leftmost_match_comes_first :
  RequirementHighlighter asciiUpper asciiToLowerCase (js "Users can")
    (Some [JStr (js "rs can"); JStr (js "Users")])
  = Some [Marked (js "Users"); Plain (js " can")].
Proof. reflexivity. Qed.

Lemma highlighter_contract_witness :
  RequirementHighlighter asciiUpper asciiToLowerCase
    exampleText (Some exampleHighlights)
  = Some [Marked (js "Users"); Plain (js " can create ");
          Marked (js "posts"); Plain (js ".")]
  /\ RequirementHighlighter asciiUpper asciiToLowerCase
       (js "USERS can create Posts.") (Some exampleHighlights)
     = Some [Marked (js "USERS"); Plain (js " can create ");
             Marked (js "Posts"); Plain (js ".")]
  /\ RequirementHighlighter asciiUpper asciiToLowerCase
       formulaText (Some formulaHighlights)
     = Some [Plain (js "aab or "); Marked (js "A+B"); Plain (js " ");
             Marked (js "("); Marked (js "a+b"); Plain (js ")")].
Proof.
  destruct (highlighter_contract asciiUpper asciiToLowerCase
              (fun c _ => eq_refl) (fun s _ => eq_refl))
    as (H1 & H2 & H3 & _).
  split; [exact H1|]. split; [|exact H3].
  exact (H2 (js "USERS can create Posts.") eq_refl).
Defined.

(* ================================================================= *)
(** ** The robustness run *)

Lemma fulfilledTexts_Some (cs : list CallState) (texts : list ApiText) :
  fulfilledTexts cs = Some texts ->
  Forall (fun c => isFulfilled c = true) cs.
Proof.
  revert texts. induction cs as [|c cs IH]; intros texts H; [constructor|].
  destruct c; try discriminate. simpl in H.
  destruct (fulfilledTexts cs) as [ts|]; [|discriminate].
  constructor; [reflexivity | now apply (IH ts)].
Qed.

Lemma fulfilledTexts_None (cs : list CallState) :
  fulfilledTexts cs = None ->
  Forall (fun c => isRejected c = false) cs ->
  Exists (fun c => isPending c = true) cs.
Proof.
  induction cs as [|c cs IH]; intros H Hr; [discriminate|].
  inversion Hr as [|? ? Hc Hcs]; subst.
  destruct c; try discriminate.
  - now left.
  - simpl in H. destruct (fulfilledTexts cs); [discriminate|].
    right. now apply IH.
Qed.

Lemma setNth_length (A : Type) (i : nat) (x : A) (l : list A) :
  List.length (setNth i x l) = List.length l.
Proof.
  revert i. induction l as [|y l IH]; intros [|i]; simpl; auto.
Qed.

Lemma setNth_Forall (A : Type) (P : A -> Prop) (i : nat) (x : A)
    (l : list A) :
  P x -> Forall P l -> Forall P (setNth i x l).
Proof.
  intros Hx H. revert i. induction H as [|y l Hy Hl IH]; intros [|i];
    simpl; constructor; auto.
Qed.

Lemma setNth_Exists_new (A : Type) (P : A -> Prop) (i : nat) (x y : A)
    (l : list A) :
  nth_error l i = Some y -> P x -> Exists P (setNth i x l).
Proof.
  revert i. induction l as [|z l IH]; intros [|i] H Hx; try discriminate;
    simpl in *.
  - now left.
  - right. now apply (IH i).
Qed.

Lemma setNth_Exists_kept (A : Type) (P : A -> Prop) (i : nat) (x y : A)
    (l : list A) :
  nth_error l i = Some y -> ~ P y -> Exists P l -> Exists P (setNth i x l).
Proof.
  revert i. induction l as [|z l IH]; intros [|i] H Hy He;
    try discriminate; simpl in *.
  - injection H as ->. inversion He; subst; [contradiction | now right].
  - inversion He; subst; [now left | right; now apply (IH i)].
Qed.

Lemma pending_not_all_fulfilled (cs : list CallState) (i : nat) :
  nth_error cs i = Some Pending ->
  ~ Forall (fun c => isFulfilled c = true) cs.
Proof.
  intros H Hall. rewrite Forall_forall in Hall.
  apply nth_error_In in H. apply Hall in H. discriminate.
Qed.

Section RunFacts.
Variable localeCompare : jsstring -> jsstring -> Z.

Lemma initial_invariant : runInvariant initialRun.
Proof.
  split; [|split; [|split]]; cbn; intros; try discriminate; reflexivity.
Qed.

Lemma click_invariant (st : RunState) :
  runInvariant st -> runInvariant (step localeCompare st Click).
Proof.
  intros Inv. cbn [step].
  destruct (isTestingRobustness (ui st)); [exact Inv|].
  split; [|split; [|split]]; cbn; intros; try discriminate.
  repeat split; try reflexivity.
  - repeat constructor.
  - now left.
Qed.

Lemma testing_while_awaiting (st : RunState) :
  runInvariant st -> awaiting st = true ->
  isTestingRobustness (ui st) = true.
Proof.
  intros (_ & Ib & _) Hw.
  destruct (isTestingRobustness (ui st)); [reflexivity|].
  rewrite (Ib eq_refl) in Hw. discriminate.
Qed.

(** A call that settles after the outcome changes nothing but itself. *)
Lemma settle_idle (st : RunState) (i : nat) (result : CallState) :
  runInvariant st -> nth_error (calls st) i = Some Pending ->
  awaiting st = false ->
  runInvariant (mkRun (ui st) (setNth i result (calls st)) false).
Proof.
  intros (Ia & Ib & Ic & Id) Hi Hw.
  assert (Hnf := @pending_not_all_fulfilled (calls st) i Hi).
  split; [|split; [|split]]; cbn [ui calls awaiting].
  - intros Ht. destruct (Ia Ht) as (Ha & _). congruence.
  - reflexivity.
  - intros score Hs. elim Hnf. now apply (Ic score).
  - intros message Hm. left.
    destruct (Id _ Hm) as [He|Hf]; [|contradiction].
    apply setNth_Exists_kept with (y := Pending); auto. discriminate.
Qed.

Lemma settle_invariant (st : RunState) (i : nat) (result : CallState) :
  runInvariant st ->
  runInvariant (step localeCompare st (Settle i result)).
Proof.
  intros Inv. cbn [step].
  destruct (nth_error (calls st) i) as [[| |]|] eqn:Hi; try exact Inv.
  destruct result as [|text|reason]; [exact Inv| |];
    unfold afterSettle; cbn [awaiting ui calls];
    (destruct (awaiting st) eqn:Hw; [|now apply settle_idle]);
    pose proof (testing_while_awaiting Inv Hw) as Ht;
    destruct Inv as (Ia & Ib & Ic & Id);
    destruct (Ia Ht) as (_ & Hlen & Hrej & _ & Hscore & Herr).
  - (* the call fulfils *)
    assert (Hrej' : Forall (fun c => isRejected c = false)
                           (setNth i (Fulfilled text) (calls st)))
      by (now apply setNth_Forall).
    destruct (fulfilledTexts (setNth i (Fulfilled text) (calls st)))
      as [texts|] eqn:Hf.
    + apply fulfilledTexts_Some in Hf.
      destruct (parseResponses texts) as [reason|responses];
        (split; [|split; [|split]]);
        cbn [ui calls awaiting failWith succeedWith isTestingRobustness
             robustnessScore robustnessError];
        intros; try discriminate; try congruence; auto.
    + split; [|split; [|split]]; cbn [ui calls awaiting];
        intros; try congruence.
      repeat split; auto.
      * now rewrite setNth_length.
      * now apply fulfilledTexts_None.
  - (* the call is rejected *)
    split; [|split; [|split]];
      cbn [ui calls awaiting failWith isTestingRobustness
           robustnessScore robustnessError];
      intros; try discriminate; try congruence.
    left. now apply setNth_Exists_new with (y := Pending).
Qed.

Lemma run_invariant (events : list Event) :
  runInvariant (run localeCompare events).
Proof.
  unfold run. induction events as [|e events IH] using rev_ind.
  - apply initial_invariant.
  - rewrite fold_left_app. cbn [fold_left].
    destruct e; [now apply click_invariant | now apply settle_invariant].
Qed.

(** A rejection while the handler waits ends the test at once. *)
Lemma rejection_ends_test (st : RunState) (i : nat)
    (reason : option jsstring) :
  awaiting st = true -> nth_error (calls st) i = Some Pending ->
  let st' := step localeCompare st (Settle i (Rejected reason)) in
  ui st' = failWith (ui st) (serviceError reason)
  /\ calls st' = setNth i (Rejected reason) (calls st).
Proof.
  intros Hw Hi. cbn [step]. rewrite Hi. unfold afterSettle.
  cbn [awaiting]. rewrite Hw. split; reflexivity.
Qed.

(** The fulfilment of the last pending call while the handler waits
    ends the test with what the texts give. *)
Lemma last_fulfilment_ends_test (st : RunState) (i : nat)
    (text : ApiText) (texts : list ApiText) :
  awaiting st = true -> nth_error (calls st) i = Some Pending ->
  fulfilledTexts (setNth i (Fulfilled text) (calls st)) = Some texts ->
  let st' := step localeCompare st (Settle i (Fulfilled text)) in
  calls st' = setNth i (Fulfilled text) (calls st)
  /\ ui st' = match parseResponses texts with
              | inl reason => failWith (ui st) (serviceError reason)
              | inr responses => succeedWith localeCompare (ui st) responses
              end.
Proof.
  intros Hw Hi Hf. cbn [step]. rewrite Hi. unfold afterSettle.
  cbn [awaiting calls ui]. rewrite Hw, Hf.
  destruct (parseResponses texts); split; reflexivity.
Qed.

(** A fulfilment that leaves a call pending leaves the handler waiting. *)
Lemma fulfilment_keeps_waiting (st : RunState) (i : nat) (text : ApiText) :
  awaiting st = true -> nth_error (calls st) i = Some Pending ->
  fulfilledTexts (setNth i (Fulfilled text) (calls st)) = None ->
  let st' := step localeCompare st (Settle i (Fulfilled text)) in
  calls st' = setNth i (Fulfilled text) (calls st) /\ ui st' = ui st.
Proof.
  intros Hw Hi Hf. cbn [step]. rewrite Hi. unfold afterSettle.
  cbn [awaiting calls ui]. rewrite Hw, Hf. split; reflexivity.
Qed.
End RunFacts.

Lemma parseResponses_json (values : list (option GeminiResponse)) :
  parseResponses (List.map JsonText values) = inr values.
Proof.
  induction values as [|v r IH]; [reflexivity|].
  cbn [List.map parseResponses]. rewrite IH. reflexivity.
Qed.

Lemma parseResponses_empty_text (values : list (option GeminiResponse))
    (rest : list ApiText) :
  parseResponses (List.map JsonText values ++ EmptyText :: rest)
  = inl (Some (js "Received an empty response from the API.")).
Proof.
  induction values as [|v r IH]; [reflexivity|].
  cbn [List.map app parseResponses]. rewrite IH. reflexivity.
Qed.

Lemma parseResponses_throwing_text (values : list (option GeminiResponse))
    (message : jsstring) (rest : list ApiText) :
  parseResponses (List.map JsonText values ++ ThrowingText message :: rest)
  = inl (Some message).
Proof.
  induction values as [|v r IH]; [reflexivity|].
  cbn [List.map app parseResponses]. rewrite IH. reflexivity.
Qed.

(** C5 as stated fails: when the call at 0.5 is rejected first, the test
    has its outcome, [Failed], while the four other calls are pending. *)
Lemma outcome_while_calls_pending :
  ~ (hasOutcome (run codeUnitCompare firstCallRejected) = true ->
     Forall (fun c => isPending c = false)
            (calls (run codeUnitCompare firstCallRejected))).
Proof.
  intros H. specialize (H eq_refl).
  inversion H as [|c cs _ Hcs]; subst.
  inversion Hcs as [|c' cs' Hp _]; subst. discriminate Hp.
Qed.

(** C5, as amended.  The five calls are issued together when the test
    starts; while the test runs there is no outcome; [Succeeded] is
    reached only with all five calls fulfilled; [Failed] is reached
    with a call rejected, or with all calls fulfilled and a response
    that is empty or does not parse; the rejection of one call while
    the test runs gives the outcome [Failed] at once, the other calls
    staying as they are; a fulfilment that leaves a call pending gives
    no outcome; and the fulfilment of the last pending call gives
    [Failed] when a text is empty or does not parse, with the error of
    the first such text, and [Succeeded] with the score of the parsed
    responses otherwise. *)
Theorem robustness_run_outcomes
    (localeCompare : jsstring -> jsstring -> Z) (events : list Event) :
  let st := run localeCompare events in
  (forall st0,
     isTestingRobustness (ui st0) = false ->
     calls (step localeCompare st0 Click)
     = [Pending; Pending; Pending; Pending; Pending]
     /\ awaiting (step localeCompare st0 Click) = true)
  /\ (isTestingRobustness (ui st) = true ->
      List.length (calls st) = 5 /\ hasOutcome st = false)
  /\ (forall score,
        robustnessScore (ui st) = Some score ->
        Forall (fun c => isFulfilled c = true) (calls st))
  /\ (forall message,
        robustnessError (ui st) = Some message ->
        Exists (fun c => isRejected c = true) (calls st)
        \/ Forall (fun c => isFulfilled c = true) (calls st))
  /\ (forall i reason,
        isTestingRobustness (ui st) = true ->
        nth_error (calls st) i = Some Pending ->
        let st' := step localeCompare st (Settle i (Rejected reason)) in
        hasOutcome st' = true
        /\ robustnessError (ui st') = Some (serviceError reason)
        /\ calls st' = setNth i (Rejected reason) (calls st))
  /\ (forall i text,
        isTestingRobustness (ui st) = true ->
        nth_error (calls st) i = Some Pending ->
        fulfilledTexts (setNth i (Fulfilled text) (calls st)) = None ->
        let st' := step localeCompare st (Settle i (Fulfilled text)) in
        isTestingRobustness (ui st') = true
        /\ hasOutcome st' = false
        /\ calls st' = setNth i (Fulfilled text) (calls st))
  /\ (forall i text values rest,
        isTestingRobustness (ui st) = true ->
        nth_error (calls st) i = Some Pending ->
        fulfilledTexts (setNth i (Fulfilled text) (calls st))
        = Some (List.map JsonText values ++ EmptyText :: rest) ->
        let st' := step localeCompare st (Settle i (Fulfilled text)) in
        hasOutcome st' = true
        /\ robustnessScore (ui st') = None
        /\ robustnessError (ui st')
           = Some (js ("Failed to run robustness test: "
                       ++ "Received an empty response from the API.")))
  /\ (forall i text values message rest,
        isTestingRobustness (ui st) = true ->
        nth_error (calls st) i = Some Pending ->
        fulfilledTexts (setNth i (Fulfilled text) (calls st))
        = Some (List.map JsonText values ++ ThrowingText message :: rest) ->
        let st' := step localeCompare st (Settle i (Fulfilled text)) in
        hasOutcome st' = true
        /\ robustnessScore (ui st') = None
        /\ robustnessError (ui st')
           = Some (js "Failed to run robustness test: " ++ message))
  /\ (forall i text responses,
        isTestingRobustness (ui st) = true ->
        nth_error (calls st) i = Some Pending ->
        fulfilledTexts (setNth i (Fulfilled text) (calls st))
        = Some (List.map JsonText responses) ->
        let st' := step localeCompare st (Settle i (Fulfilled text)) in
        hasOutcome st' = true
        /\ robustnessError (ui st') = None
        /\ robustnessScore (ui st')
           = Some (resultScore (groupResponses localeCompare responses))
        /\ robustnessComparisonGroups (ui st')
           = resultGroups (groupResponses localeCompare responses)).
Proof.
  intros st. pose proof (run_invariant localeCompare events) as Inv.
  fold st in Inv. destruct Inv as (Ia & Ib & Ic & Id).
  split; [|split; [|split; [|split; [|split; [|split; [|split; [|split]]]]]]].
  - intros st0 H0. cbn [step]. rewrite H0. split; reflexivity.
  - intros Ht. destruct (Ia Ht) as (_ & Hlen & _ & _ & Hs & He).
    split; [exact Hlen|]. unfold hasOutcome. now rewrite Ht.
  - exact Ic.
  - exact Id.
  - intros i reason Ht Hi st'. destruct (Ia Ht) as (Hw & _).
    destruct (@rejection_ends_test localeCompare st i reason Hw Hi)
      as [Hu Hc].
    fold st' in Hu, Hc. split; [|split; [|exact Hc]].
    + unfold hasOutcome. rewrite Hu. cbn. apply orb_true_r.
    + now rewrite Hu.
  - intros i text Ht Hi Hf st'. destruct (Ia Ht) as (Hw & _).
    destruct (@fulfilment_keeps_waiting localeCompare st i text Hw Hi Hf)
      as [Hc Hu].
    fold st' in Hu, Hc. split; [|split; [|exact Hc]].
    + now rewrite Hu.
    + unfold hasOutcome. rewrite Hu, Ht. reflexivity.
  - intros i text values rest Ht Hi Hf st'.
    destruct (Ia Ht) as (Hw & _ & _ & _ & Hs & _).
    destruct (@last_fulfilment_ends_test localeCompare st i text _ Hw Hi Hf)
      as [_ Hu].
    fold st' in Hu. rewrite parseResponses_empty_text in Hu.
    unfold hasOutcome. rewrite Hu.
    cbn [failWith isTestingRobustness robustnessScore robustnessError].
    split; [cbn; apply orb_true_r|]. split; [exact Hs | reflexivity].
  - intros i text values message rest Ht Hi Hf st'.
    destruct (Ia Ht) as (Hw & _ & _ & _ & Hs & _).
    destruct (@last_fulfilment_ends_test localeCompare st i text _ Hw Hi Hf)
      as [_ Hu].
    fold st' in Hu. rewrite parseResponses_throwing_text in Hu.
    unfold hasOutcome. rewrite Hu.
    cbn [failWith isTestingRobustness robustnessScore robustnessError].
    split; [cbn; apply orb_true_r|]. split; [exact Hs | reflexivity].
  - intros i text responses Ht Hi Hf st'.
    destruct (Ia Ht) as (Hw & _ & _ & _ & _ & He).
    destruct (@last_fulfilment_ends_test localeCompare st i text _ Hw Hi Hf)
      as [_ Hu].
    fold st' in Hu. rewrite parseResponses_json in Hu.
    unfold hasOutcome. rewrite Hu.
    cbn [succeedWith isTestingRobustness robustnessScore robustnessError
         robustnessComparisonGroups].
    split; [reflexivity|]. split; [exact He|]. split; reflexivity.
Qed.

Lemma robustness_run_outcomes_witness :
  (robustnessError
     (ui (run codeUnitCompare firstCallRejected))
   = Some (js "Failed to run robustness test: quota exceeded")
   /\ calls (run codeUnitCompare firstCallRejected)
      = [Rejected (Some (js "quota exceeded"));
         Pending; Pending; Pending; Pending])
  /\ (hasOutcome (run codeUnitCompare
                    (fourFulfilled ++ [Settle 2 (Fulfilled EmptyText)]))
      = true
      /\ robustnessScore
           (ui (run codeUnitCompare
                  (fourFulfilled ++ [Settle 2 (Fulfilled EmptyText)])))
         = None
      /\ robustnessError
           (ui (run codeUnitCompare
                  (fourFulfilled ++ [Settle 2 (Fulfilled EmptyText)])))
         = Some (js ("Failed to run robustness test: "
                     ++ "Received an empty response from the API."))).
Proof.
  split.
  - destruct (robustness_run_outcomes codeUnitCompare [Click])
      as (_ & _ & _ & _ & Hrej & _).
    destruct (Hrej 0 (Some (js "quota exceeded")) eq_refl eq_refl)
      as (_ & He & Hc).
    split; [exact He | exact Hc].
  - destruct (robustness_run_outcomes codeUnitCompare fourFulfilled)
      as (_ & _ & _ & _ & _ & _ & Hempty & _).
    exact (Hempty 2 EmptyText
             [responseOf usersOnce; responseOf usersOnce]
             [JsonText (responseOf usersOnce);
              JsonText (responseOf blogSchema)]
             eq_refl eq_refl eq_refl).
Defined.

(* ================================================================= *)
(** ** Further properties of the normalizer *)

Lemma trimStart_split (s : jsstring) :
  exists pre, s = pre ++ trimStart s /\ allWhiteSpace pre.
Proof.
  induction s as [|c r IH]; simpl.
  - exists []. split; [reflexivity | constructor].
  - destruct (isWhiteSpace c) eqn:E.
    + destruct IH as [pre [H1 H2]]. exists (c :: pre). split.
      * simpl. f_equal. exact H1.
      * constructor; assumption.
    + exists []. split; [reflexivity | constructor].
Qed.

Lemma trimEnd_split (s : jsstring) :
  exists post, s = trimEnd s ++ post /\ allWhiteSpace post.
Proof.
  unfold trimEnd. destruct (trimStart_split (rev s)) as [pre [H1 H2]].
  exists (rev pre). split.
  - rewrite <- rev_app_distr, <- H1, rev_involutive. reflexivity.
  - unfold allWhiteSpace in *. apply Forall_rev. exact H2.
Qed.

Lemma trim_split (s : jsstring) :
  exists pre post,
    s = pre ++ trim s ++ post /\ allWhiteSpace pre /\ allWhiteSpace post.
Proof.
  destruct (trimStart_split s) as [pre [H1 H2]].
  destruct (trimEnd_split (trimStart s)) as [post [H3 H4]].
  exists pre, post. unfold trim. rewrite <- H3. auto.
Qed.

Lemma trim_cleanEnds (s : jsstring) : cleanEnds (trim s).
Proof.
  unfold trim. destruct (trimStart_head s) as [E | [c [r [E Hc]]]].
  - rewrite E. exact I.
  - rewrite E. destruct (@trimEnd_keeps_head c r Hc) as [r' Hr'].
    rewrite Hr'. simpl. split; [exact Hc|].
    assert (L : isWhiteSpace (last (trimEnd (c :: r)) c) = false).
    { unfold trimEnd.
      destruct (trimStart_head (rev (c :: r))) as [E2 | [d [q [E2 Hd]]]].
      - rewrite E2. simpl. exact Hc.
      - rewrite E2. simpl. rewrite last_last. exact Hd. }
    rewrite Hr' in L. exact L.
Qed.

Lemma safeString_string (s : jsstring) : safeString (JStr s) = trim s.
Proof. destruct s; reflexivity. Qed.

(** X1: A string name or type is normalized by removing exactly the white
    space around it: the original is the normalized text between two runs
    of white space, and the normalized text neither starts nor ends with
    white space.  What lies between (inner spaces, letter case) is
    kept. *)
Theorem safeString_removes_surrounding_white_space (s : jsstring) :
  exists pre post,
    s = pre ++ safeString (JStr s) ++ post
    /\ allWhiteSpace pre /\ allWhiteSpace post
    /\ cleanEnds (safeString (JStr s)).
Proof.
  rewrite safeString_string.
  destruct (trim_split s) as [pre [post [H1 [H2 H3]]]].
  exists pre, post. repeat split; try assumption. apply trim_cleanEnds.
Qed.

Lemma sameText_fields (fs fs' : list Field) :
  Forall2 sameFieldText fs fs' ->
  List.map normalizeField fs = List.map normalizeField fs'.
Proof.
  induction 1 as [|f f' r r' [H1 H2] _ IH]; simpl; [reflexivity|].
  f_equal; [|exact IH]. unfold normalizeField. rewrite H1, H2. reflexivity.
Qed.

Lemma sameText_collections (localeCompare : jsstring -> jsstring -> Z)
    (cs cs' : list Collection) :
  Forall2 sameCollectionText cs cs' ->
  List.map (normalizeCollection localeCompare) cs
  = List.map (normalizeCollection localeCompare) cs'.
Proof.
  induction 1 as [|c c' r r' [H1 H2] _ IH]; simpl; [reflexivity|].
  f_equal; [|exact IH]. unfold normalizeCollection.
  rewrite H1. fold (fieldsOf c) (fieldsOf c').
  rewrite (sameText_fields H2). reflexivity.
Qed.

(** X2: Descriptions, relevantRequirements and the white space around
    names and types never reach the comparison key: two schemas whose
    collections and fields carry, position by position, the same trimmed
    names and types have the same key, for every collation. *)
Theorem descriptive_text_is_ignored
    (localeCompare : jsstring -> jsstring -> Z) (s s' : Schema) :
  sameText s s' ->
  normalizedString localeCompare s = normalizedString localeCompare s'.
Proof.
  intros H. unfold normalizedString, normalizeSchema.
  fold (collectionsOf s) (collectionsOf s').
  rewrite (sameText_collections localeCompare H). reflexivity.
Qed.

Lemma descriptive_text_is_ignored_witness :
  sameText usersOnce usersOnceAnnotated
  /\ normalizedString codeUnitCompare usersOnce
     = normalizedString codeUnitCompare usersOnceAnnotated.
Proof.
  assert (H : sameText usersOnce usersOnceAnnotated).
  { repeat constructor. }
  split; [exact H|].
  apply (@descriptive_text_is_ignored codeUnitCompare
           usersOnce usersOnceAnnotated H).
Defined.

(** X3: The comparison key loses nothing of the normalized object: two
    schemas have the same key exactly when they normalize to the same
    names and types in the same order, whatever code units the names
    hold (quotes, backslashes, control characters, lone surrogates). *)
Theorem same_key_iff_same_normal_form
    (localeCompare : jsstring -> jsstring -> Z) (s1 s2 : Schema) :
  normalizedString localeCompare s1 = normalizedString localeCompare s2
  <-> normalizeSchema localeCompare s1 = normalizeSchema localeCompare s2.
Proof.
  split.
  - intros H. apply stringifyNSchema_injective. exact H.
  - intros H. unfold normalizedString. rewrite H. reflexivity.
Qed.

(** X4: With a consistent collation the normalized object is in order:
    its collections are sorted by name and the fields of each collection
    are sorted by name. *)
Theorem normalized_output_is_sorted
    (localeCompare : jsstring -> jsstring -> Z) (s : Schema) :
  consistentComparator localeCompare ->
  let n := normalizeSchema localeCompare s in
  StronglySorted
    (fun a b => (localeCompare (ncName a) (ncName b) <= 0)%Z)
    (nCollections n)
  /\ Forall
       (fun nc =>
          StronglySorted
            (fun a b => (localeCompare (nfName a) (nfName b) <= 0)%Z)
            (ncFields nc))
       (nCollections n).
Proof.
  intros Hc n. split.
  - exact (sortBy_sorted (compareCollections_consistent Hc) _).
  - apply Forall_forall. intros nc Hin. subst n.
    unfold normalizeSchema in Hin. cbn [nCollections] in Hin.
    apply sortBy_In in Hin. apply in_map_iff in Hin.
    destruct Hin as [c [<- _]]. cbn [normalizeCollection ncFields].
    exact (sortBy_sorted (compareFields_consistent Hc) _).
Qed.

Lemma normalized_output_is_sorted_witness :
  consistentComparator codeUnitCompare
  /\ StronglySorted
       (fun a b => (codeUnitCompare (ncName a) (ncName b) <= 0)%Z)
       (nCollections (normalizeSchema codeUnitCompare blogSchema))
  /\ Forall
       (fun nc =>
          StronglySorted
            (fun a b => (codeUnitCompare (nfName a) (nfName b) <= 0)%Z)
            (ncFields nc))
       (nCollections (normalizeSchema codeUnitCompare blogSchema)).
Proof.
  split; [exact codeUnitCompare_consistent|].
  exact (@normalized_output_is_sorted codeUnitCompare blogSchema
           codeUnitCompare_consistent).
Defined.

Lemma normalizeCollection_pairs (localeCompare : jsstring -> jsstring -> Z)
    (c : Collection) :
  Permutation (nFieldPairs (normalizeCollection localeCompare c))
              (fieldPairs c).
Proof.
  unfold nFieldPairs, fieldPairs, normalizeCollection. cbn [ncFields].
  fold (fieldsOf c).
  eapply Permutation_trans.
  - apply Permutation_map. apply sortBy_perm.
  - rewrite map_map. apply Permutation_refl.
Qed.

(** X5: Normalizing drops, merges and invents nothing: the normalized
    object lists the trimmed collection names of the schema, each as
    often as the schema does, and every normalized collection holds the
    trimmed (name, type) pairs of the collection it comes from, each as
    often as there.  Duplicates are kept. *)
Theorem normalization_keeps_every_entry
    (localeCompare : jsstring -> jsstring -> Z) (s : Schema) :
  let n := normalizeSchema localeCompare s in
  Permutation (List.map ncName (nCollections n)) (collectionNames s)
  /\ (forall c, In c (collectionsOf s) ->
        exists nc, In nc (nCollections n)
                   /\ ncName nc = safeString (cName c)
                   /\ Permutation (nFieldPairs nc) (fieldPairs c))
  /\ (forall nc, In nc (nCollections n) ->
        exists c, In c (collectionsOf s)
                  /\ ncName nc = safeString (cName c)
                  /\ Permutation (nFieldPairs nc) (fieldPairs c)).
Proof.
  intros n. subst n. unfold normalizeSchema. cbn [nCollections].
  fold (collectionsOf s). split; [|split].
  - eapply Permutation_trans.
    + apply Permutation_map. apply sortBy_perm.
    + unfold collectionNames. rewrite map_map. apply Permutation_refl.
  - intros c Hin. exists (normalizeCollection localeCompare c).
    split; [|split].
    + apply sortBy_In. apply in_map. exact Hin.
    + reflexivity.
    + apply normalizeCollection_pairs.
  - intros nc Hin. apply sortBy_In in Hin. apply in_map_iff in Hin.
    destruct Hin as [c [<- Hin]]. exists c. split; [exact Hin|].
    split; [reflexivity | apply normalizeCollection_pairs].
Qed.

(** X6: When collection names are unique in the schema and field names
    are unique in each collection, listing the collections or the fields
    in another order does not change the key. *)
Theorem order_is_irrelevant_with_unique_names
    (localeCompare : jsstring -> jsstring -> Z) (s s' : Schema) :
  consistentComparator localeCompare ->
  uniqueNames localeCompare s -> permutedSchema s s' ->
  normalizedString localeCompare s' = normalizedString localeCompare s.
Proof.
  intros Hc Hu Hp. apply unique_names_order_independent; assumption.
Qed.

Lemma blogSchema_reordered : permutedSchema blogSchema blogSchemaReordered.
Proof.
  exists [ mkCollection JNull JUndefined None [];
           collection "Users"
             [ field "email" "String"; field "Email" "String" ];
           collection " posts "
             [ field "title" "String"; field " author" "ObjectID";
               field "body" " String " ] ].
  split.
  - cbn. apply Permutation_sym.
    apply (@Permutation_cons_app _ _ [_; _] [] _). apply perm_swap.
  - cbn. repeat constructor.
    apply (@Permutation_cons_app _ _ [_] [_] _).
    apply (@Permutation_cons_app _ _ [_] [] _). apply Permutation_refl.
Qed.

Lemma order_is_irrelevant_with_unique_names_witness :
  normalizedString codeUnitCompare blogSchemaReordered
  = normalizedString codeUnitCompare blogSchema.
Proof.
  apply (@order_is_irrelevant_with_unique_names codeUnitCompare
           blogSchema blogSchemaReordered).
  - exact codeUnitCompare_consistent.
  - exact blogSchema_uniqueNames.
  - exact blogSchema_reordered.
Defined.

(* ================================================================= *)
(** ** Further properties of the grouper *)

Lemma flat_map_empty (A B : Type) (l : list A) :
  flat_map (fun _ : A => @nil B) l = [].
Proof. induction l; simpl; auto. Qed.

Lemma flat_map_same (A B : Type) (f g : A -> list B) (l : list A) :
  (forall x, In x l -> f x = g x) -> flat_map f l = flat_map g l.
Proof.
  induction l as [|a l IH]; simpl; intros H; [reflexivity|].
  rewrite (H a (or_introl eq_refl)), IH; auto.
Qed.

Section Partition.
Variable localeCompare : jsstring -> jsstring -> Z.
Variable T : Type.

Lemma validPair_key (p : option GeminiResponse * T) :
  validPair localeCompare p = true
  <-> exists k, keyOfPair localeCompare p = Some k.
Proof.
  unfold validPair. destruct (keyOfPair localeCompare p).
  - split; eauto.
  - split; [discriminate | intros [k H]; discriminate].
Qed.

(** The pairs of the keys of a duplicate-free list that holds every key
    met are the valid pairs. *)
Lemma partition_by_key (ks : list jsstring)
    (ps : list (option GeminiResponse * T)) :
  NoDup ks ->
  (forall p k, In p ps -> keyOfPair localeCompare p = Some k -> In k ks) ->
  Permutation (flat_map (fun k => pairsWithKey localeCompare k ps) ks)
              (filter (validPair localeCompare) ps).
Proof.
  intros Hnd. induction ps as [|p ps IH]; intros Hks.
  - cbn [pairsWithKey filter]. rewrite flat_map_empty. constructor.
  - assert (IH' := IH (fun q k Hq => Hks q k (or_intror Hq))). clear IH.
    destruct (keyOfPair localeCompare p) as [kp|] eqn:Ek.
    + assert (Hv : validPair localeCompare p = true)
        by (apply validPair_key; eauto).
      cbn [filter]. rewrite Hv.
      assert (Hin : In kp ks) by (apply (Hks p kp); [left; reflexivity|exact Ek]).
      apply in_split in Hin. destruct Hin as [l1 [l2 ->]].
      apply NoDup_remove_2 in Hnd.
      rewrite flat_map_app in *. cbn [flat_map] in *.
      assert (E1 : flat_map (fun k => pairsWithKey localeCompare k (p :: ps)) l1
                   = flat_map (fun k => pairsWithKey localeCompare k ps) l1).
      { apply flat_map_same. intros k Hk. unfold pairsWithKey. cbn [filter].
        rewrite (hasKey_valid localeCompare k p Ek).
        assert (Hne : jsstring_eqb k kp = false).
        { apply jsstring_eqb_neq. intros ->. apply Hnd.
          apply in_or_app. left. exact Hk. }
        rewrite Hne. reflexivity. }
      assert (E2 : flat_map (fun k => pairsWithKey localeCompare k (p :: ps)) l2
                   = flat_map (fun k => pairsWithKey localeCompare k ps) l2).
      { apply flat_map_same. intros k Hk. unfold pairsWithKey. cbn [filter].
        rewrite (hasKey_valid localeCompare k p Ek).
        assert (Hne : jsstring_eqb k kp = false).
        { apply jsstring_eqb_neq. intros ->. apply Hnd.
          apply in_or_app. right. exact Hk. }
        rewrite Hne. reflexivity. }
      rewrite E1, E2.
      assert (E3 : pairsWithKey localeCompare kp (p :: ps)
                   = p :: pairsWithKey localeCompare kp ps).
      { unfold pairsWithKey. cbn [filter].
        rewrite (hasKey_valid localeCompare kp p Ek), jsstring_eqb_refl.
        reflexivity. }
      rewrite E3. cbn [app].
      eapply Permutation_trans; [apply Permutation_sym, Permutation_middle|].
      apply perm_skip. exact IH'.
    + assert (Hv : validPair localeCompare p = false).
      { unfold validPair. rewrite Ek. reflexivity. }
      cbn [filter]. rewrite Hv.
      rewrite (@flat_map_same _ _
                 (fun k => pairsWithKey localeCompare k (p :: ps))
                 (fun k => pairsWithKey localeCompare k ps)); [exact IH'|].
      intros k _. unfold pairsWithKey. cbn [filter].
      rewrite (hasKey_invalid localeCompare k p Ek). reflexivity.
Qed.

Lemma entries_temperatures (ps : list (option GeminiResponse * T))
    (m : GroupMap T) :
  Forall (entryMatches localeCompare ps) m ->
  flat_map (fun g => temperatures g)
           (List.map (withCount (T:=T)) (mapValues m))
  = List.map snd
      (flat_map (fun k => pairsWithKey localeCompare k ps) (List.map fst m)).
Proof.
  induction 1 as [|ke m [Ht _] _ IH]; [reflexivity|].
  cbn [mapValues List.map flat_map] in *. rewrite map_app.
  unfold mapValues in IH. rewrite IH.
  cbn [withCount temperatures]. rewrite Ht. reflexivity.
Qed.

Lemma invariant_covers (ps : list (option GeminiResponse * T))
    (m : GroupMap T) (p : option GeminiResponse * T) (k : jsstring) :
  groupsInvariant localeCompare ps m ->
  In p ps -> keyOfPair localeCompare p = Some k -> In k (List.map fst m).
Proof.
  intros [Hhas _] Hin Ek. apply mapHas_true_In. rewrite Hhas.
  apply existsb_hasKey. apply in_map_iff. exists p. auto.
Qed.

(** The temperatures of the groups are those of the valid pairs. *)
Lemma grouped_temperatures (ps : list (option GeminiResponse * T)) :
  Permutation
    (groupedTemperatures (resultGroups (groupPairs localeCompare ps)))
    (List.map snd (filter (validPair localeCompare) ps)).
Proof.
  unfold groupedTemperatures. rewrite <- flat_map_concat_map.
  rewrite groupPairs_groups.
  pose proof (collectGroups_invariant localeCompare ps) as Inv.
  set (m := fst (collectGroups localeCompare ps)) in *.
  eapply Permutation_trans.
  - apply Permutation_flat_map. apply formatGroups_perm.
  - destruct Inv as [Hhas [Hent Hord]].
    rewrite (entries_temperatures Hent).
    apply Permutation_map. apply partition_by_key.
    + apply (@invariant_NoDup localeCompare T ps m).
      split; [exact Hhas | split; assumption].
    + intros p k Hp Hk.
      apply (@invariant_covers ps m p k); auto.
      split; [exact Hhas | split; assumption].
Qed.

Lemma count_is_length (gs : list (RobustnessGroup T)) :
  Forall (fun g => count g = Z.of_nat (List.length (temperatures g))) gs ->
  totalCount gs = Z.of_nat (List.length (groupedTemperatures gs)).
Proof.
  unfold totalCount, groupedTemperatures.
  induction 1 as [|g gs Hg _ IH]; [reflexivity|].
  cbn [List.map fold_right List.concat]. rewrite length_app, Nat2Z.inj_add.
  rewrite IH, Hg. reflexivity.
Qed.

Lemma group_shape (ps : list (option GeminiResponse * T))
    (g : RobustnessGroup T) :
  In g (resultGroups (groupPairs localeCompare ps)) ->
  exists k,
    groupKey localeCompare g = Some k
    /\ existsb (hasKey localeCompare k) ps = true
    /\ temperatures g = List.map snd (pairsWithKey localeCompare k ps)
    /\ pairsWithKey localeCompare k ps <> []
    /\ count g = agreement localeCompare k ps.
Proof.
  rewrite groupPairs_groups. intros Hin.
  pose proof (collectGroups_invariant localeCompare ps) as Inv.
  destruct (group_of_entry g Inv Hin) as [[k e] [Hke [-> Hm]]].
  exists k. split; [exact (entry_key Hm)|].
  destruct Inv as [Hhas _]. destruct Hm as [Ht [t [rest Hr]]].
  cbn [fst snd] in *. split; [|split; [|split]].
  - rewrite <- Hhas. apply (mapHas_In k e). exact Hke.
  - exact Ht.
  - rewrite Hr. discriminate.
  - unfold agreement. cbn [withCount count]. rewrite Ht, length_map.
    reflexivity.
Qed.

Lemma key_has_group (ps : list (option GeminiResponse * T)) (k : jsstring) :
  existsb (hasKey localeCompare k) ps = true ->
  exists g, In g (resultGroups (groupPairs localeCompare ps))
            /\ count g = agreement localeCompare k ps.
Proof.
  intros Hk. rewrite groupPairs_groups.
  pose proof (collectGroups_invariant localeCompare ps) as Inv.
  set (m := fst (collectGroups localeCompare ps)) in *.
  destruct Inv as [Hhas [Hent Hord]].
  rewrite <- Hhas in Hk. apply mapHas_true_In in Hk.
  apply in_map_iff in Hk. destruct Hk as [[k' e] [Ek Hin]].
  cbn [fst] in Ek. subst k'.
  exists (withCount e). split.
  - unfold formatGroups. apply sortBy_In. apply in_map.
    unfold mapValues. apply in_map_iff. exists (k, e). auto.
  - rewrite Forall_forall in Hent. destruct (Hent _ Hin) as [Ht _].
    cbn [fst snd] in Ht. unfold agreement. cbn [withCount count].
    rewrite Ht, length_map. reflexivity.
Qed.

Lemma maxCount_nonneg (ps : list (option GeminiResponse * T)) :
  (0 <= maxCountOf (resultGroups (groupPairs localeCompare ps)))%Z.
Proof.
  destruct (resultGroups (groupPairs localeCompare ps)) as [|g r] eqn:E.
  - cbn. lia.
  - cbn [maxCountOf].
    assert (Hin : In g (resultGroups (groupPairs localeCompare ps)))
      by (rewrite E; left; reflexivity).
    destruct (group_shape ps g Hin) as [k [_ [_ [_ [_ Hc]]]]].
    rewrite Hc. unfold agreement. lia.
Qed.

(** The largest count is the largest agreement between the pairs. *)
Lemma maxCount_upper (ps : list (option GeminiResponse * T)) (k : jsstring) :
  (agreement localeCompare k ps
   <= maxCountOf (resultGroups (groupPairs localeCompare ps)))%Z.
Proof.
  destruct (existsb (hasKey localeCompare k) ps) eqn:Ek.
  - destruct (key_has_group ps k Ek) as [g [Hin Hc]]. rewrite <- Hc.
    apply head_is_largest; [apply groups_sorted | exact Hin].
  - unfold agreement. rewrite (pairsWithKey_absent localeCompare k ps Ek).
    cbn [List.length Z.of_nat]. apply maxCount_nonneg.
Qed.

Lemma maxCount_attained (ps : list (option GeminiResponse * T)) :
  resultGroups (groupPairs localeCompare ps) <> [] ->
  exists k,
    existsb (hasKey localeCompare k) ps = true
    /\ agreement localeCompare k ps
       = maxCountOf (resultGroups (groupPairs localeCompare ps)).
Proof.
  intros Hne.
  destruct (resultGroups (groupPairs localeCompare ps)) as [|g r] eqn:E;
    [congruence|].
  assert (Hin : In g (resultGroups (groupPairs localeCompare ps)))
    by (rewrite E; left; reflexivity).
  destruct (group_shape ps g Hin) as [k [_ [Hk [_ [_ Hc]]]]].
  exists k. split; [exact Hk|]. cbn [maxCountOf]. symmetry. exact Hc.
Qed.

Lemma groups_empty_iff (ps : list (option GeminiResponse * T)) :
  resultGroups (groupPairs localeCompare ps) = []
  <-> filter (validPair localeCompare) ps = [].
Proof.
  split.
  - intros E. pose proof (grouped_temperatures ps) as P. rewrite E in P.
    cbn in P. apply Permutation_nil in P.
    destruct (filter (validPair localeCompare) ps); [reflexivity|discriminate].
  - intros E. apply (no_valid_pair_no_group localeCompare ps E).
Qed.
End Partition.

(** X7: Every response with a schema is counted in exactly one group:
    the temperatures of the groups, taken together, are the temperatures
    of the responses with a schema, each as often as it was given; the
    counts add up to the number of these responses, and no group is
    empty. *)
Theorem every_valid_response_is_counted_once
    (localeCompare : jsstring -> jsstring -> Z) (T : Type)
    (pairs : list (option GeminiResponse * T)) :
  let gs := resultGroups (groupPairs localeCompare pairs) in
  let valid := filter (validPair localeCompare) pairs in
  Permutation (groupedTemperatures gs) (List.map snd valid)
  /\ totalCount gs = Z.of_nat (List.length valid)
  /\ Forall (fun g => (1 <= count g)%Z) gs
  /\ List.length gs <= List.length valid.
Proof.
  intros gs valid.
  assert (P := grouped_temperatures localeCompare pairs).
  fold gs valid in P.
  assert (Hc : Forall (fun g => count g = Z.of_nat (List.length (temperatures g))
                                /\ (1 <= count g)%Z) gs).
  { apply Forall_forall. intros g Hin.
    destruct (group_shape localeCompare pairs g Hin)
      as [k [_ [_ [Ht [Hne Hc]]]]].
    unfold agreement in Hc. rewrite Ht, length_map. split; [exact Hc|].
    rewrite Hc. destruct (pairsWithKey localeCompare k pairs);
      [congruence | cbn [List.length]; lia]. }
  assert (Hsum : totalCount gs = Z.of_nat (List.length valid)).
  { rewrite count_is_length.
    - rewrite (Permutation_length P), length_map. reflexivity.
    - eapply Forall_impl; [|exact Hc]. intros g [H _]. exact H. }
  split; [exact P|]. split; [exact Hsum|]. split.
  - eapply Forall_impl; [|exact Hc]. intros g [_ H]. exact H.
  - assert (Hlen : (Z.of_nat (List.length gs) <= totalCount gs)%Z).
    { clear - Hc. unfold totalCount.
      induction Hc as [|g r [_ H1] _ IH]; cbn [List.length List.map fold_right];
        [lia|]. rewrite Nat2Z.inj_succ. lia. }
    lia.
Qed.

(** X8: The number the score is computed from is the largest agreement
    between the responses: no key is shared by more responses than the
    first group counts, and when some response has a schema, some key is
    shared by exactly that many; without any, it is 0. *)
Theorem max_count_is_the_largest_agreement
    (localeCompare : jsstring -> jsstring -> Z) (T : Type)
    (pairs : list (option GeminiResponse * T)) :
  let maxCount := maxCountOf (resultGroups (groupPairs localeCompare pairs)) in
  (forall k, (agreement localeCompare k pairs <= maxCount)%Z)
  /\ (Exists (fun p => validPair localeCompare p = true) pairs ->
      exists k, In (Some k) (List.map (keyOfPair localeCompare (T:=T)) pairs)
                /\ agreement localeCompare k pairs = maxCount)
  /\ (Forall (fun p => validPair localeCompare p = false) pairs ->
      maxCount = 0%Z).
Proof.
  intros maxCount. split; [|split].
  - intros k. apply maxCount_upper.
  - intros Hex.
    destruct (@maxCount_attained localeCompare T pairs) as [k [Hk Hc]].
    + intros E. apply groups_empty_iff in E.
      apply Exists_exists in Hex. destruct Hex as [p [Hin Hv]].
      assert (Hf : In p (filter (validPair localeCompare) pairs))
        by (apply filter_In; auto).
      rewrite E in Hf. contradiction.
    + exists k. split; [|exact Hc]. apply existsb_hasKey. exact Hk.
  - intros Hall. subst maxCount.
    assert (E : filter (validPair localeCompare) pairs = []).
    { clear - Hall. induction Hall as [|p r Hp _ IH]; [reflexivity|].
      cbn [filter]. rewrite Hp. exact IH. }
    apply groups_empty_iff in E. rewrite E. reflexivity.
Qed.

Lemma pairWithTemperatures_fst_from (responses : list (option GeminiResponse))
    (n : nat) :
  List.map fst
    (List.map (fun ir : nat * option GeminiResponse =>
                 (snd ir, nth_error testTemperatures (fst ir)))
              (indexed n responses))
  = responses.
Proof.
  revert n. induction responses as [|r rs IH]; intros n; [reflexivity|].
  cbn [indexed List.map fst snd]. rewrite IH. reflexivity.
Qed.

Lemma pairWithTemperatures_fst (responses : list (option GeminiResponse)) :
  List.map fst (pairWithTemperatures responses) = responses.
Proof. apply pairWithTemperatures_fst_from. Qed.

Lemma pairWithTemperatures_length (responses : list (option GeminiResponse)) :
  List.length (pairWithTemperatures responses) = List.length responses.
Proof.
  rewrite <- (pairWithTemperatures_fst responses) at 2.
  rewrite length_map. reflexivity.
Qed.

Lemma filter_whole (A : Type) (f : A -> bool) (l : list A) :
  List.length (filter f l) = List.length l ->
  Forall (fun x => f x = true) l.
Proof.
  induction l as [|a l IH]; cbn [filter List.length]; intros H;
    [constructor|].
  pose proof (filter_length_le f l) as Hle.
  destruct (f a) eqn:E.
  - cbn [List.length] in H. constructor; [exact E | apply IH; lia].
  - lia.
Qed.

Lemma agreement_le_length (localeCompare : jsstring -> jsstring -> Z)
    (T : Type) (k : jsstring) (ps : list (option GeminiResponse * T)) :
  (agreement localeCompare k ps <= Z.of_nat (List.length ps))%Z.
Proof.
  unfold agreement, pairsWithKey.
  pose proof (filter_length_le (hasKey localeCompare k) ps). lia.
Qed.

Lemma maxCount_le_length (localeCompare : jsstring -> jsstring -> Z)
    (T : Type) (ps : list (option GeminiResponse * T)) :
  (0 <= maxCountOf (resultGroups (groupPairs localeCompare ps))
   <= Z.of_nat (List.length ps))%Z.
Proof.
  split; [apply maxCount_nonneg|].
  destruct (resultGroups (groupPairs localeCompare ps)) as [|g r] eqn:E.
  - cbn. lia.
  - destruct (@maxCount_attained localeCompare T ps) as [k [_ Hk]].
    + rewrite E. discriminate.
    + rewrite E in Hk. rewrite <- Hk. apply agreement_le_length.
Qed.

Lemma maxCount_zero_or_attained (localeCompare : jsstring -> jsstring -> Z)
    (T : Type) (ps : list (option GeminiResponse * T)) :
  maxCountOf (resultGroups (groupPairs localeCompare ps)) = 0%Z
  \/ exists k,
       agreement localeCompare k ps
       = maxCountOf (resultGroups (groupPairs localeCompare ps)).
Proof.
  destruct (resultGroups (groupPairs localeCompare ps)) as [|g r] eqn:E.
  - left. reflexivity.
  - right. destruct (@maxCount_attained localeCompare T ps) as [k [_ Hk]].
    + rewrite E. discriminate.
    + rewrite E in Hk. exists k. exact Hk.
Qed.

Lemma hasKey_response (localeCompare : jsstring -> jsstring -> Z) (T : Type)
    (k : jsstring) (p : option GeminiResponse * T) :
  hasKey localeCompare k p = true ->
  exists x, fst p = Some x /\ keyOfResponse localeCompare x = Some k.
Proof.
  unfold hasKey, keyOfPair. destruct (fst p) as [x|]; [|discriminate].
  destruct (keyOfResponse localeCompare x) as [k'|] eqn:E; [|discriminate].
  intros H. apply jsstring_eqb_eq in H. subst k'. exists x. auto.
Qed.

(** X9: With five responses, the score is 100 exactly when all five have
    a schema and the same key, and 0 exactly when no key is shared by two
    responses. *)
Theorem score_extremes_for_five_responses
    (localeCompare : jsstring -> jsstring -> Z)
    (responses : list (option GeminiResponse)) :
  List.length responses = 5 ->
  let score := resultScore (groupResponses localeCompare responses) in
  (score = 100%Z
   <-> exists k,
         Forall (fun r => exists x, r = Some x
                                    /\ keyOfResponse localeCompare x = Some k)
                responses)
  /\ (score = 0%Z
      <-> forall k,
            (agreement localeCompare k (pairWithTemperatures responses)
             <= 1)%Z).
Proof.
  intros Hlen score. subst score. unfold groupResponses.
  set (ps := pairWithTemperatures responses).
  assert (Hps : List.length ps = 5)
    by (unfold ps; rewrite pairWithTemperatures_length; exact Hlen).
  rewrite groupPairs_score.
  pose proof (maxCount_le_length localeCompare ps) as Hb. rewrite Hps in Hb.
  pose proof (maxCount_upper localeCompare ps) as Hup.
  set (M := maxCountOf (resultGroups (groupPairs localeCompare ps))) in *.
  split; split.
  - intros Hs.
    assert (HM : M = 5%Z).
    { unfold scoreOf in Hs.
      destruct (M =? 5)%Z eqn:E5; [lia|].
      destruct (M =? 4)%Z; [discriminate|].
      destruct (M =? 3)%Z; [discriminate|].
      destruct (M =? 2)%Z; discriminate. }
    destruct (maxCount_zero_or_attained localeCompare ps) as [E | [k Hk]];
      fold M in E || fold M in Hk; [lia|].
    exists k.
    assert (Hall : Forall (fun p => hasKey localeCompare k p = true) ps).
    { apply filter_whole. unfold agreement, pairsWithKey in Hk. lia. }
    rewrite <- (pairWithTemperatures_fst responses). fold ps.
    apply Forall_map. eapply Forall_impl; [|exact Hall].
    intros p Hp. apply hasKey_response in Hp.
    destruct Hp as [x [H1 H2]]. exists x. auto.
  - intros [k Hall].
    destruct responses as [|o1 [|o2 [|o3 [|o4 [|o5 [|o6 rest]]]]]];
      try discriminate.
    repeat match goal with
           | H : Forall _ (_ :: _) |- _ =>
               apply Forall_cons_iff in H;
               let x := fresh "x" in
               let Hx := fresh "Hx" in
               let Kx := fresh "Kx" in
               destruct H as [[x [Hx Kx]] H]; subst
           end.
    unfold M, ps.
    change (groupPairs localeCompare
              (pairWithTemperatures [Some x; Some x0; Some x1; Some x2; Some x3]))
      with (groupResponses localeCompare
              [Some x; Some x0; Some x1; Some x2; Some x3]).
    rewrite (identical_responses_one_group localeCompare x x0 x1 x2 x3
               Kx Kx0 Kx1 Kx2 Kx3).
    reflexivity.
  - intros Hs k.
    assert (HM : (M <= 1)%Z).
    { unfold scoreOf in Hs.
      destruct (M =? 5)%Z eqn:E5; [discriminate|].
      destruct (M =? 4)%Z eqn:E4; [discriminate|].
      destruct (M =? 3)%Z eqn:E3; [discriminate|].
      destruct (M =? 2)%Z eqn:E2; [discriminate|]. lia. }
    specialize (Hup k). lia.
  - intros Hall.
    assert (HM : (M <= 1)%Z).
    { destruct (maxCount_zero_or_attained localeCompare ps) as [E | [k Hk]];
        fold M in E || fold M in Hk.
      - lia.
      - rewrite <- Hk. apply Hall. }
    unfold scoreOf.
    destruct (M =? 5)%Z eqn:E5; [lia|].
    destruct (M =? 4)%Z eqn:E4; [lia|].
    destruct (M =? 3)%Z eqn:E3; [lia|].
    destruct (M =? 2)%Z eqn:E2; [lia|]. reflexivity.
Qed.

Lemma score_extremes_for_five_responses_witness :
  List.length threeAndTwo = 5
  /\ ((resultScore (groupResponses codeUnitCompare threeAndTwo) = 100%Z
       <-> exists k,
             Forall (fun r => exists x,
                         r = Some x
                         /\ keyOfResponse codeUnitCompare x = Some k)
                    threeAndTwo)
      /\ (resultScore (groupResponses codeUnitCompare threeAndTwo) = 0%Z
          <-> forall k,
                (agreement codeUnitCompare k
                           (pairWithTemperatures threeAndTwo) <= 1)%Z)).
Proof.
  split; [reflexivity|].
  apply (@score_extremes_for_five_responses codeUnitCompare threeAndTwo).
  reflexivity.
Defined.

(* ================================================================= *)
(** ** The score display *)

(** X10: The label shown with a score is decided by the size of the
    largest group alone: Highly Robust for 5, Robust for 4, Moderately
    Stable for 3, Slightly Unstable for 2 and Highly Unstable for any
    other size; two results carry the same label exactly when they carry
    the same score. *)
Theorem label_follows_largest_group :
  (forall maxCount,
     text (getScoreDetails (scoreOf maxCount))
     = if (maxCount =? 5)%Z then js "Highly Robust"
       else if (maxCount =? 4)%Z then js "Robust"
       else if (maxCount =? 3)%Z then js "Moderately Stable"
       else if (maxCount =? 2)%Z then js "Slightly Unstable"
       else js "Highly Unstable")
  /\ (forall m1 m2,
        text (getScoreDetails (scoreOf m1))
        = text (getScoreDetails (scoreOf m2))
        <-> scoreOf m1 = scoreOf m2).
Proof.
  split.
  - intros m. unfold scoreOf.
    destruct (m =? 5)%Z; [reflexivity|].
    destruct (m =? 4)%Z; [reflexivity|].
    destruct (m =? 3)%Z; [reflexivity|].
    destruct (m =? 2)%Z; reflexivity.
  - intros m1 m2. unfold scoreOf.
    destruct (m1 =? 5)%Z; [|destruct (m1 =? 4)%Z;
      [|destruct (m1 =? 3)%Z; [|destruct (m1 =? 2)%Z]]];
    (destruct (m2 =? 5)%Z; [|destruct (m2 =? 4)%Z;
      [|destruct (m2 =? 3)%Z; [|destruct (m2 =? 2)%Z]]]);
    (split; intros H; first [reflexivity | discriminate H
                            | vm_compute in H; discriminate H]).
Qed.

Lemma existsb_hasSchema (localeCompare : jsstring -> jsstring -> Z)
    (T : Type) (ps : list (option GeminiResponse * T)) :
  existsb hasSchema (List.map fst ps) = false
  <-> filter (validPair localeCompare) ps = [].
Proof.
  induction ps as [|p ps IH]; cbn [List.map existsb filter].
  - split; reflexivity.
  - rewrite (validPair_hasSchema localeCompare p).
    destruct (hasSchema (fst p)); cbn [orb].
    + split; discriminate.
    + exact IH.
Qed.

(** X11: After a test that delivered its five responses the page shows
    the score with its label, and offers the comparison exactly when at
    least one response had a schema.  Starting a test clears the score
    display.  A failed test writes the error only and leaves the score
    display as it was: no score is shown when the test fails from the
    state its start has set, and the score of a later test stays beside
    the error when a call of an earlier test, started before the
    requirements were edited, is rejected afterwards. *)
Theorem score_display_after_a_test
    (localeCompare : jsstring -> jsstring -> Z) (u : UiState)
    (responses : list (option GeminiResponse)) (message : jsstring) :
  scoreViewOf (succeedWith localeCompare u responses)
  = Some (mkScoreView
            (getScoreDetails
               (resultScore (groupResponses localeCompare responses)))
            (resultScore (groupResponses localeCompare responses))
            (existsb hasSchema responses))
  /\ scoreViewOf (failWith u message) = scoreViewOf u
  /\ (forall p, scoreViewOf (robustness (handleRobustnessTest p)) = None)
  /\ (forall p,
        scoreViewOf (failWith (robustness (handleRobustnessTest p)) message)
        = None)
  /\ (let p := runPage codeUnitCompare sampleTemplate [] []
                       failureAfterLaterSuccess in
      robustnessError (robustness p)
      = Some (js "Failed to run robustness test: quota exceeded")
      /\ scoreViewOf (robustness p)
         = Some (mkScoreView (getScoreDetails 100) 100 true)).
Proof.
  split; [|split; [|split; [|split]]].
  - unfold scoreViewOf, succeedWith, RobustnessScoreDisplay.
    cbn [robustnessScore robustnessComparisonGroups].
    do 2 f_equal. unfold groupResponses.
    set (ps := pairWithTemperatures responses).
    rewrite <- (pairWithTemperatures_fst responses). fold ps.
    destruct (existsb hasSchema (List.map fst ps)) eqn:E.
    + destruct (resultGroups (groupPairs localeCompare ps)) eqn:G;
        [|reflexivity].
      apply groups_empty_iff in G.
      apply (existsb_hasSchema localeCompare) in G. congruence.
    + apply (existsb_hasSchema localeCompare) in E.
      apply groups_empty_iff in E. rewrite E. reflexivity.
  - reflexivity.
  - intros p. reflexivity.
  - intros p. reflexivity.
  - split; vm_compute; reflexivity.
Qed.

(* ================================================================= *)
(** ** Further properties of the run *)

Lemma setNth_same (A : Type) (i : nat) (x : A) (l : list A) :
  i < List.length l -> nth_error (setNth i x l) i = Some x.
Proof.
  revert i. induction l as [|y r IH]; intros i H; cbn [List.length] in H;
    [lia|].
  destruct i as [|j]; cbn [setNth nth_error]; [reflexivity|].
  apply IH. lia.
Qed.

Lemma setNth_other (A : Type) (i j : nat) (x : A) (l : list A) :
  i <> j -> nth_error (setNth i x l) j = nth_error l j.
Proof.
  revert i j. induction l as [|y r IH]; intros i j H.
  - destruct i; reflexivity.
  - destruct i as [|i'], j as [|j']; cbn [setNth nth_error];
      try reflexivity; try congruence.
    apply IH. congruence.
Qed.

Lemma fulfilledTexts_pending (cs : list CallState) (j : nat) :
  nth_error cs j = Some Pending -> fulfilledTexts cs = None.
Proof.
  revert j. induction cs as [|c r IH]; intros j H.
  - destruct j; discriminate.
  - destruct j as [|j']; cbn [nth_error] in H.
    + injection H as ->. reflexivity.
    + cbn [fulfilledTexts]. destruct c; try reflexivity.
      rewrite (IH j' H). reflexivity.
Qed.

Lemma fulfilledTexts_all (cs : list CallState) (texts : list ApiText) :
  List.length cs = List.length texts ->
  (forall i, i < List.length cs ->
     nth_error cs i = Some (Fulfilled (nth i texts EmptyText))) ->
  fulfilledTexts cs = Some texts.
Proof.
  revert texts. induction cs as [|c r IH]; intros texts Hlen H.
  - destruct texts; [reflexivity | discriminate].
  - destruct texts as [|t ts]; [discriminate|].
    cbn [List.length] in *.
    assert (H0 := H 0 ltac:(lia)). cbn [nth_error nth] in H0.
    injection H0 as ->. cbn [fulfilledTexts].
    rewrite (IH ts); [reflexivity | lia |].
    intros i Hi. exact (H (S i) ltac:(lia)).
Qed.

Section CompletionOrder.
Variable localeCompare : jsstring -> jsstring -> Z.
Variable texts : list ApiText.

Lemma settle_in_any_order (order : list nat) (cs : list CallState)
    (u : UiState) :
  NoDup order -> order <> [] ->
  List.length cs = List.length texts ->
  (forall i, In i order -> nth_error cs i = Some Pending) ->
  (forall i, i < List.length cs -> ~ In i order ->
     nth_error cs i = Some (Fulfilled (nth i texts EmptyText))) ->
  ui (fold_left (step localeCompare) (fulfilAll texts order)
                (mkRun u cs true))
  = outcomeOf localeCompare u texts.
Proof.
  revert cs. induction order as [|i rest IH]; intros cs Hnd Hne Hlen Hp Hf;
    [congruence|].
  cbn [fulfilAll List.map fold_left].
  assert (Hi : nth_error cs i = Some Pending) by (apply Hp; left; reflexivity).
  assert (Hlt : i < List.length cs).
  { apply nth_error_Some. rewrite Hi. discriminate. }
  unfold step at 2. cbn [calls ui awaiting]. rewrite Hi.
  unfold afterSettle. cbn [awaiting calls ui].
  set (t := nth i texts EmptyText).
  set (cs' := setNth i (Fulfilled t) cs).
  apply NoDup_cons_iff in Hnd. destruct Hnd as [Hni Hnd].
  assert (Hlen' : List.length cs' = List.length texts)
    by (unfold cs'; rewrite setNth_length; exact Hlen).
  assert (Hp' : forall j, In j rest -> nth_error cs' j = Some Pending).
  { intros j Hj. unfold cs'. rewrite setNth_other.
    - apply Hp. right. exact Hj.
    - intros ->. contradiction. }
  assert (Hf' : forall j, j < List.length cs' -> ~ In j rest ->
                  nth_error cs' j = Some (Fulfilled (nth j texts EmptyText))).
  { intros j Hj Hnj. destruct (Nat.eq_dec i j) as [<- | Hij].
    - unfold cs'. rewrite setNth_same; [reflexivity | exact Hlt].
    - unfold cs'. rewrite setNth_other; [|exact Hij]. apply Hf.
      + unfold cs' in Hj. rewrite setNth_length in Hj. exact Hj.
      + intros [E | Hin]; [congruence | contradiction]. }
  destruct rest as [|j rest'].
  - rewrite (fulfilledTexts_all cs' texts Hlen').
    + cbn [fulfilAll List.map fold_left]. unfold outcomeOf.
      destruct (parseResponses texts); reflexivity.
    + intros j Hj. apply Hf'; [exact Hj | intros []].
  - rewrite (fulfilledTexts_pending cs' j);
      [|apply Hp'; left; reflexivity].
    apply IH; try assumption. discriminate.
Qed.
End CompletionOrder.

(** X12: The order in which the five calls complete does not matter:
    when all five fulfil, in whatever order, the page ends with the
    result computed from the five texts in temperature order (the score
    and groups, or the error of the first text in temperature order that
    is empty or does not parse). *)
Theorem completion_order_is_irrelevant
    (localeCompare : jsstring -> jsstring -> Z) (st : RunState)
    (texts : list ApiText) (order : list nat) :
  isTestingRobustness (ui st) = false ->
  List.length texts = 5 ->
  Permutation order [0; 1; 2; 3; 4] ->
  ui (fold_left (step localeCompare) (Click :: fulfilAll texts order) st)
  = outcomeOf localeCompare (mkUi true None None []) texts.
Proof.
  intros Hidle Hlen Hperm. cbn [fold_left]. unfold step at 2.
  rewrite Hidle. cbn [List.map testTemperatures].
  apply settle_in_any_order.
  - apply (Permutation_NoDup (Permutation_sym Hperm)).
    repeat constructor; cbn; intuition lia.
  - intros ->. apply Permutation_nil in Hperm. discriminate.
  - cbn [List.length]. lia.
  - intros i Hi. apply (Permutation_in _ Hperm) in Hi.
    cbn in Hi. intuition (subst; reflexivity).
  - intros i Hi Hni. exfalso. apply Hni.
    apply (Permutation_in _ (Permutation_sym Hperm)).
    cbn [List.length] in Hi. cbn.
    destruct i as [|[|[|[|[|i]]]]]; auto 6. lia.
Qed.

Lemma completion_order_is_irrelevant_witness :
  isTestingRobustness (ui initialRun) = false
  /\ List.length fiveTexts = 5
  /\ ui (fold_left (step codeUnitCompare)
                   (Click :: fulfilAll fiveTexts arrivalOrder) initialRun)
     = outcomeOf codeUnitCompare (mkUi true None None []) fiveTexts.
Proof.
  split; [reflexivity|]. split; [reflexivity|].
  apply (@completion_order_is_irrelevant codeUnitCompare initialRun
           fiveTexts arrivalOrder); [reflexivity | reflexivity |].
  unfold arrivalOrder.
  apply Permutation_sym.
  apply (@Permutation_cons_app _ _ [3] [4; 1; 2] 0).
  apply (@Permutation_cons_app _ _ [3; 4] [2] 1).
  apply (@Permutation_cons_app _ _ [3; 4] [] 2).
  apply Permutation_refl.
Defined.

Lemma settle_when_idle (localeCompare : jsstring -> jsstring -> Z)
    (st : RunState) (e : Event) :
  awaiting st = false -> isSettle e = true ->
  ui (step localeCompare st e) = ui st
  /\ awaiting (step localeCompare st e) = false.
Proof.
  intros Ha He. destruct e as [|i result]; [discriminate|].
  unfold step.
  destruct (nth_error (calls st) i) as [[| |]|]; auto;
    destruct result; auto;
    unfold afterSettle; cbn [awaiting ui]; rewrite Ha; auto.
Qed.

Lemma settlements_when_idle (localeCompare : jsstring -> jsstring -> Z)
    (late : list Event) (st : RunState) :
  awaiting st = false ->
  Forall (fun e => isSettle e = true) late ->
  ui (fold_left (step localeCompare) late st) = ui st.
Proof.
  revert st. induction late as [|e late IH]; intros st Ha Hall;
    [reflexivity|].
  apply Forall_cons_iff in Hall. destruct Hall as [He Hall].
  destruct (settle_when_idle localeCompare st e Ha He) as [Hu Ha'].
  cbn [fold_left]. rewrite (IH _ Ha' Hall). exact Hu.
Qed.

(** X13: Once a test has ended, calls of that test that complete later
    change nothing on the page: after an early failure, the remaining
    calls fulfilling or failing never replace the error by a score or by
    another error. *)
Theorem late_settlements_change_nothing
    (localeCompare : jsstring -> jsstring -> Z)
    (events late : list Event) :
  isTestingRobustness (ui (run localeCompare events)) = false ->
  Forall (fun e => isSettle e = true) late ->
  ui (run localeCompare (events ++ late)) = ui (run localeCompare events).
Proof.
  intros Hidle Hlate. unfold run. rewrite fold_left_app.
  apply settlements_when_idle; [|exact Hlate].
  pose proof (run_invariant localeCompare events) as [_ [H _]].
  apply H. exact Hidle.
Qed.

Lemma late_settlements_change_nothing_witness :
  isTestingRobustness (ui (run codeUnitCompare firstCallRejected)) = false
  /\ Forall (fun e => isSettle e = true) lateFulfilments
  /\ ui (run codeUnitCompare (firstCallRejected ++ lateFulfilments))
     = ui (run codeUnitCompare firstCallRejected).
Proof.
  assert (H1 : isTestingRobustness (ui (run codeUnitCompare firstCallRejected))
               = false) by reflexivity.
  assert (H2 : Forall (fun e => isSettle e = true) lateFulfilments)
    by (repeat constructor).
  split; [exact H1|]. split; [exact H2|].
  apply (@late_settlements_change_nothing codeUnitCompare
           firstCallRejected lateFulfilments H1 H2).
Defined.

(** X14: The texts are parsed in temperature order and the first one
    that is empty or does not parse ends the parsing with its error,
    whatever comes after it; the parsed responses are returned only when
    every text parses, and then in the order of the texts. *)
Theorem first_bad_text_decides :
  (forall values, parseResponses (List.map JsonText values) = inr values)
  /\ (forall texts values,
        parseResponses texts = inr values ->
        texts = List.map JsonText values)
  /\ (forall values rest,
        parseResponses (List.map JsonText values ++ EmptyText :: rest)
        = inl (Some (js "Received an empty response from the API.")))
  /\ (forall values message rest,
        parseResponses
          (List.map JsonText values ++ ThrowingText message :: rest)
        = inl (Some message)).
Proof.
  split; [|split; [|split]].
  - induction values as [|v r IH]; [reflexivity|].
    cbn [List.map parseResponses]. rewrite IH. reflexivity.
  - induction texts as [|t r IH]; intros values H.
    + injection H as <-. reflexivity.
    + destruct t as [|m|v]; cbn [parseResponses] in H; try discriminate.
      destruct (parseResponses r) as [e|vs]; [discriminate|].
      injection H as <-. cbn [List.map]. f_equal. apply IH. reflexivity.
  - induction values as [|v r IH]; intros rest; [reflexivity|].
    cbn [List.map app parseResponses]. rewrite IH. reflexivity.
  - induction values as [|v r IH]; intros message rest; [reflexivity|].
    cbn [List.map app parseResponses]. rewrite IH. reflexivity.
Qed.

(* ================================================================= *)
(** ** Further properties of the highlighter *)

Lemma escapeRegExp_plain (s : jsstring) :
  Forall (fun c => isSyntaxCharacter c = false) s -> escapeRegExp s = s.
Proof.
  induction 1 as [|c r Hc _ IH]; [reflexivity|].
  cbn [escapeRegExp]. rewrite Hc, IH. reflexivity.
Qed.

(** X15: The pattern built from the phrases denotes the phrases
    themselves: after escaping, every phrase stands in the pattern as a
    literal, whatever pattern syntax it contains, and the pattern reads
    back as the ordered choice between the phrases.  A phrase without
    pattern syntax is left as it is. *)
Theorem pattern_denotes_the_phrases :
  (forall phrases,
     readPattern (patternSource phrases) = Some (alternativesOf phrases))
  /\ (forall highlights,
        readPattern (patternSource (uniqueHighlights highlights))
        = Some (alternativesOf (uniqueHighlights highlights)))
  /\ (forall s,
        Forall (fun c => isSyntaxCharacter c = false) s ->
        escapeRegExp s = s).
Proof.
  split; [|split].
  - apply readPattern_patternSource.
  - intros highlights. apply readPattern_patternSource.
  - apply escapeRegExp_plain.
Qed.

Lemma asciiLower_asciiUpper (c : codeunit) :
  asciiLower (asciiUpper c) = asciiLower c.
Proof.
  unfold asciiLower, asciiUpper.
  destruct (N.leb_spec 97 c), (N.leb_spec c 122); cbn [andb];
    repeat match goal with
           | |- context [N.leb ?a ?b] => destruct (N.leb_spec a b)
           end; cbn [andb]; lia.
Qed.

Lemma upper_equal_lower_equal (a b : jsstring) :
  List.map asciiUpper a = List.map asciiUpper b ->
  asciiToLowerCase a = asciiToLowerCase b.
Proof.
  intros H. unfold asciiToLowerCase.
  assert (E : forall s, List.map asciiLower s
                        = List.map asciiLower (List.map asciiUpper s)).
  { intros s. rewrite map_map. apply map_ext. intros c.
    symmetry. apply asciiLower_asciiUpper. }
  rewrite (E a), (E b), H. reflexivity.
Qed.

Lemma asciiToLowerCase_ascii (s : jsstring) :
  isAscii s -> isAscii (asciiToLowerCase s).
Proof.
  unfold isAscii, asciiToLowerCase. intros H. apply Forall_map.
  eapply Forall_impl; [|exact H]. intros c. apply asciiLower_ascii.
Qed.

Section Occurrence.
Variable canonicalize : codeunit -> codeunit.
Variable alternatives : list jsstring.
Hypothesis alternatives_sorted :
  StronglySorted (fun a b : jsstring => List.length b <= List.length a)
                 alternatives.

(** When a non-empty alternative matches somewhere in the text still to
    be scanned, the loop cuts out a non-empty match. *)
Lemma splitLoop_finds (rest : jsstring) :
  forall (segment pre rest2 h : jsstring),
    rest = pre ++ rest2 ->
    In h alternatives -> h <> [] ->
    matchLiteral canonicalize h rest2 = true ->
    exists pre0 rest0 k,
      rest = pre0 ++ rest0
      /\ execAt canonicalize alternatives rest0 = Some (S k)
      /\ In (firstn (S k) rest0)
            (splitLoop canonicalize alternatives rest segment 0).
Proof.
  induction rest as [|c rest' IH]; intros segment pre rest2 h E Hin Hne Hm.
  - destruct pre; [|discriminate]. cbn [app] in E. subst rest2.
    destruct h; [congruence | discriminate].
  - assert (Hhere :
      forall k, execAt canonicalize alternatives (c :: rest') = Some (S k) ->
        exists pre0 rest0 k0,
          c :: rest' = pre0 ++ rest0
          /\ execAt canonicalize alternatives rest0 = Some (S k0)
          /\ In (firstn (S k0) rest0)
                (splitLoop canonicalize alternatives (c :: rest') segment 0)).
    { intros k Hk. exists [], (c :: rest'), k. split; [reflexivity|].
      split; [exact Hk|]. cbn [splitLoop]. rewrite Hk.
      right. left. reflexivity. }
    destruct pre as [|c0 pre'].
    + cbn [app] in E. subst rest2.
      destruct (execAt_longest canonicalize (c :: rest') h
                  alternatives_sorted Hin Hm) as [n [Hn Hlen]].
      destruct n as [|k].
      * destruct h; [congruence | cbn in Hlen; lia].
      * apply (Hhere k Hn).
    + cbn [app] in E. injection E as <- E.
      destruct (execAt canonicalize alternatives (c :: rest')) as [[|k]|] eqn:Hk.
      * destruct (IH [c] pre' rest2 h E Hin Hne Hm)
          as [pre0 [rest0 [k0 [E0 [Hk0 Hin0]]]]].
        exists (c :: pre0), rest0, k0. split; [cbn; f_equal; exact E0|].
        split; [exact Hk0|]. cbn [splitLoop]. rewrite Hk.
        destruct segment; [exact Hin0 | right; right; exact Hin0].
      * apply (Hhere k eq_refl).
      * destruct (IH (segment ++ [c]) pre' rest2 h E Hin Hne Hm)
          as [pre0 [rest0 [k0 [E0 [Hk0 Hin0]]]]].
        exists (c :: pre0), rest0, k0. split; [cbn; f_equal; exact E0|].
        split; [exact Hk0|]. cbn [splitLoop]. rewrite Hk. exact Hin0.
Qed.
End Occurrence.

Lemma matchLiteral_firstn (canonicalize : codeunit -> codeunit)
    (h rest : jsstring) :
  matchLiteral canonicalize h rest = true ->
  List.map canonicalize (firstn (List.length h) rest)
  = List.map canonicalize h.
Proof.
  intros H. apply matchLiteral_spec in H. destruct H as [m [post [-> Hm]]].
  assert (L : List.length m = List.length h).
  { rewrite <- (length_map canonicalize m), Hm. apply length_map. }
  rewrite <- L, firstn_app, Nat.sub_diag, firstn_all. cbn [firstn].
  rewrite app_nil_r. exact Hm.
Qed.

Lemma isAscii_firstn (n : nat) (s : jsstring) :
  isAscii s -> isAscii (firstn n s).
Proof.
  intros H. rewrite <- (firstn_skipn n s) in H.
  apply isAscii_app in H. tauto.
Qed.

Lemma map_ascii (canonicalize : codeunit -> codeunit) (s : jsstring) :
  (forall c, (c < 128)%N -> canonicalize c = asciiUpper c) ->
  isAscii s -> List.map canonicalize s = List.map asciiUpper s.
Proof.
  intros Hc H. induction H as [|c r Hlt _ IH]; [reflexivity|].
  cbn [List.map]. rewrite (Hc c Hlt), IH. reflexivity.
Qed.

Lemma marked_nonEmpty (canonicalize : codeunit -> codeunit)
    (toLowerCase : jsstring -> jsstring) (text : jsstring)
    (highlights : list JsValue) (segments : list Segment)
    (part : jsstring) :
  RequirementHighlighter canonicalize toLowerCase text (Some highlights)
  = Some segments ->
  In (Marked part) segments -> part <> [].
Proof.
  destruct highlights as [|v hs].
  - intros R. injection R as <-. intros [H | []]. discriminate.
  - rewrite RequirementHighlighter_cons. intros R. injection R as <-.
    intros H. apply in_map_iff in H. destruct H as [p [Hp Hin]].
    apply filter_In in Hin. destruct Hin as [_ Hne].
    unfold renderPart in Hp.
    destruct (isHighlight toLowerCase (uniqueHighlights (v :: hs)) p);
      [|discriminate].
    injection Hp as <-. destruct p; [discriminate | discriminate].
Qed.

(** X16: On ASCII text the component renders, and a part of the text is
    highlighted exactly when some non-empty highlight phrase occurs in
    the text, up to letter case: no occurrence is lost to the pattern or
    to the splitting, whatever pattern syntax the phrases hold, and
    nothing is highlighted without one. *)
Theorem highlighted_iff_a_phrase_occurs
    (canonicalize : codeunit -> codeunit)
    (toLowerCase : jsstring -> jsstring)
    (text : jsstring) (highlights : list JsValue) :
  (forall c, (c < 128)%N -> canonicalize c = asciiUpper c) ->
  (forall s, isAscii s -> toLowerCase s = asciiToLowerCase s) ->
  isAscii text ->
  Forall isAscii (stringsOf highlights) ->
  exists segments,
    RequirementHighlighter canonicalize toLowerCase text (Some highlights)
    = Some segments
    /\ ((exists part, In (Marked part) segments)
        <-> exists h, In (JStr h) highlights /\ h <> [] /\ occursIn h text).
Proof.
  intros Hcan Hlow Htext Hhs.
  assert (Hphr : forall h, In (JStr h) highlights -> isAscii h).
  { intros h Hh. rewrite Forall_forall in Hhs. apply Hhs.
    apply stringsOf_In. exact Hh. }
  destruct (highlighter_renders canonicalize toLowerCase text
              (Some highlights)) as [segments R].
  exists segments. split; [exact R|].
  split.
  - intros [part Hin].
    destruct (@marked_is_highlight canonicalize toLowerCase text highlights
                segments part R Hin) as [h [Hh Heq]].
    destruct (@segment_is_substring canonicalize toLowerCase text
                (Some highlights) segments (Marked part) R Hin)
      as [pre [post E]].
    cbn [segmentText] in E.
    assert (Hpart : isAscii part).
    { rewrite E in Htext. apply isAscii_app in Htext.
      destruct Htext as [_ Ht]. apply isAscii_app in Ht. tauto. }
    rewrite (Hlow h (Hphr h Hh)), (Hlow part Hpart) in Heq.
    exists h. split; [exact Hh|]. split.
    + intros ->.
      apply (@marked_nonEmpty canonicalize toLowerCase text highlights
               segments part R Hin).
      destruct part; [reflexivity | discriminate].
    + exists pre, part, post. split; [exact E | symmetry; exact Heq].
  - intros [h [Hh [Hne [pre [m [post [E Hm]]]]]]].
    destruct highlights as [|v hs]; [contradiction|].
    rewrite RequirementHighlighter_cons in R. injection R as <-.
    set (highlights := v :: hs) in *.
    set (phrases := uniqueHighlights highlights).
    assert (Hinp : In h phrases) by (apply uniqueHighlights_In; exact Hh).
    assert (Halt : alternativesOf phrases = phrases).
    { destruct phrases; [contradiction | reflexivity]. }
    assert (Hsorted := uniqueHighlights_sorted highlights). fold phrases in Hsorted.
    assert (Hascii : Forall isAscii phrases).
    { apply Forall_forall. intros x Hx. apply Hphr.
      apply uniqueHighlights_In. exact Hx. }
    assert (Hmatch : matchLiteral canonicalize h (m ++ post) = true).
    { apply matchLiteral_spec. exists m, post. split; [reflexivity|].
      rewrite E in Htext. apply isAscii_app in Htext.
      destruct Htext as [_ Ht]. apply isAscii_app in Ht.
      destruct Ht as [Hma _].
      apply (canonicalize_folded canonicalize Hcan); auto. }
    destruct text as [|c text'].
    { destruct pre; [|discriminate]. destruct m; [|discriminate].
      destruct h; [congruence | discriminate]. }
    destruct (@splitLoop_finds canonicalize phrases Hsorted (c :: text')
                [] pre (m ++ post) h E Hinp Hne Hmatch)
      as [pre0 [rest0 [k [E0 [Hk Hin0]]]]].
    destruct (execAt_Some canonicalize phrases rest0 Hk)
      as [h' [Hh' [Hm' Hlen']]].
    exists (firstn (S k) rest0). rewrite Halt.
    apply in_map_iff. exists (firstn (S k) rest0). split.
    + unfold renderPart.
      assert (Hr0 : isAscii rest0).
      { rewrite E0 in Htext. apply isAscii_app in Htext. tauto. }
      assert (Hhl : isHighlight toLowerCase phrases (firstn (S k) rest0) = true).
      { unfold isHighlight. apply existsb_exists. exists h'.
        split; [exact Hh'|]. apply jsstring_eqb_eq.
        assert (Hh'a : isAscii h') by (rewrite Forall_forall in Hascii; auto).
        rewrite (Hlow h' Hh'a), (Hlow _ (isAscii_firstn (S k) Hr0)).
        apply upper_equal_lower_equal. symmetry.
        rewrite Hlen'.
        rewrite <- (map_ascii canonicalize Hcan Hh'a).
        rewrite <- (map_ascii canonicalize Hcan
                      (isAscii_firstn (List.length h') Hr0)).
        apply matchLiteral_firstn. exact Hm'. }
      rewrite Hhl. reflexivity.
    + apply filter_In. split.
      * unfold split. exact Hin0.
      * destruct rest0 as [|c0 r0]; [|reflexivity].
        destruct h'; [discriminate Hlen' | discriminate Hm'].
Qed.

Lemma highlighted_iff_a_phrase_occurs_witness :
  exists segments,
    RequirementHighlighter asciiUpper asciiToLowerCase formulaText
                           (Some formulaHighlights)
    = Some segments
    /\ ((exists part, In (Marked part) segments)
        <-> exists h, In (JStr h) formulaHighlights /\ h <> []
                      /\ occursIn h formulaText).
Proof.
  apply (@highlighted_iff_a_phrase_occurs asciiUpper asciiToLowerCase
           formulaText formulaHighlights
           (fun c _ => eq_refl) (fun s _ => eq_refl)
           (isAscii_check formulaText eq_refl)).
  repeat constructor; apply isAscii_check; reflexivity.
Defined.

Lemma splitLoop_empty_pattern (canonicalize : codeunit -> codeunit)
    (rest segment : jsstring) :
  filter nonEmpty (splitLoop canonicalize [[]] rest segment 0)
  = filter nonEmpty [segment] ++ List.map (fun c => [c]) rest.
Proof.
  revert segment. induction rest as [|c r IH]; intros segment.
  - cbn [splitLoop List.map]. rewrite app_nil_r. reflexivity.
  - cbn [splitLoop execAt matchLiteral List.length].
    destruct segment as [|s0 s].
    + rewrite IH. reflexivity.
    + cbn [filter nonEmpty]. rewrite IH. reflexivity.
Qed.

(** X17: Highlights that hold no string at all (the untyped data the
    component guards against) highlight nothing: the text is rendered
    unmarked, one code unit per part. *)
Theorem highlights_without_strings_mark_nothing
    (canonicalize : codeunit -> codeunit)
    (toLowerCase : jsstring -> jsstring)
    (text : jsstring) (highlights : list JsValue) :
  highlights <> [] ->
  stringsOf highlights = [] ->
  RequirementHighlighter canonicalize toLowerCase text (Some highlights)
  = Some (List.map (fun c => Plain [c]) text).
Proof.
  intros Hne Hs.
  destruct highlights as [|v hs]; [congruence|].
  rewrite RequirementHighlighter_cons. f_equal.
  unfold uniqueHighlights. rewrite Hs. cbn [setOf fold_left sortBy fold_right
                                             alternativesOf].
  assert (E : filter nonEmpty (split canonicalize [[]] text)
              = List.map (fun c => [c]) text).
  { destruct text as [|c r]; [reflexivity|].
    unfold split. rewrite splitLoop_empty_pattern. reflexivity. }
  rewrite E, map_map. reflexivity.
Qed.

Lemma highlights_without_strings_mark_nothing_witness :
  RequirementHighlighter asciiUpper asciiToLowerCase (js "posts")
    (Some [JNull; JNum 3; JObject])
  = Some (List.map (fun c => Plain [c]) (js "posts")).
Proof.
  apply (@highlights_without_strings_mark_nothing asciiUpper asciiToLowerCase
           (js "posts") [JNull; JNum 3; JObject]).
  - discriminate.
  - reflexivity.
Defined.

(** *** Completeness of the scan *)

Section ScanProperties.
Variable canonicalize : codeunit -> codeunit.

Lemma noMatchIn_snoc (phrases : list jsstring) (part : jsstring)
    (c : codeunit) (after : jsstring) :
  noMatchIn canonicalize phrases part (c :: after) ->
  noMatchAt canonicalize phrases (c :: after) ->
  noMatchIn canonicalize phrases (part ++ [c]) after.
Proof.
  intros Hp Hc. induction part as [|x s IH].
  - cbn. split; [exact Hc | exact I].
  - cbn [noMatchIn app] in *. destruct Hp as [H1 H2]. split.
    + rewrite <- app_assoc. exact H1.
    + apply IH. exact H2.
Qed.

Lemma noMatchIn_phrases (phrases phrases' : list jsstring)
    (part after : jsstring) :
  (forall h, h <> [] -> In h phrases' -> In h phrases) ->
  noMatchIn canonicalize phrases part after ->
  noMatchIn canonicalize phrases' part after.
Proof.
  intros Hsub. induction part as [|x s IH]; [auto|].
  cbn [noMatchIn]. intros [H1 H2]. split; [|apply IH; exact H2].
  intros h Hin Hne. apply H1; [apply Hsub; assumption | exact Hne].
Qed.

Lemma execAt_None (alternatives : list jsstring) (rest h : jsstring) :
  execAt canonicalize alternatives rest = None ->
  In h alternatives -> matchLiteral canonicalize h rest = false.
Proof.
  induction alternatives as [|a r IH]; intros He Hin; [contradiction|].
  cbn [execAt] in He.
  destruct (matchLiteral canonicalize a rest) eqn:Ea; [discriminate|].
  destruct Hin as [-> | Hin]; [exact Ea | apply IH; assumption].
Qed.

Variable alternatives : list jsstring.
Hypothesis alternatives_sorted :
  StronglySorted (fun a b : jsstring => List.length b <= List.length a)
                 alternatives.

Lemma execAt_no_match (rest : jsstring) :
  execAt canonicalize alternatives rest = None
  \/ execAt canonicalize alternatives rest = Some 0 ->
  noMatchAt canonicalize alternatives rest.
Proof.
  intros He h Hin Hne.
  destruct (matchLiteral canonicalize h rest) eqn:Em; [|reflexivity].
  exfalso.
  destruct (execAt_longest canonicalize rest h alternatives_sorted Hin Em)
    as [n [Hn Hlen]].
  destruct h; [congruence|]. cbn [List.length] in Hlen.
  destruct He as [He | He]; rewrite He in Hn; [discriminate|].
  injection Hn as <-. lia.
Qed.

Lemma splitLoop_scanned (rest : jsstring) :
  forall (segment : jsstring) (skip : nat),
    (skip = 0 /\ noMatchIn canonicalize alternatives segment rest)
    \/ segment = [] ->
    scanned canonicalize alternatives
            (splitLoop canonicalize alternatives rest segment skip).
Proof.
  induction rest as [|c rest' IH]; intros segment skip H.
  - cbn [splitLoop scanned].
    destruct H as [[_ H] | ->]; [exact H | exact I].
  - destruct skip as [|k].
    + assert (Hseg : noMatchIn canonicalize alternatives segment (c :: rest')).
      { destruct H as [[_ H] | ->]; [exact H | exact I]. }
      cbn [splitLoop].
      destruct (execAt canonicalize alternatives (c :: rest'))
        as [[|n]|] eqn:He.
      * assert (Hc : noMatchAt canonicalize alternatives (c :: rest'))
          by (apply execAt_no_match; right; exact He).
        assert (Hnext : scanned canonicalize alternatives
                          (splitLoop canonicalize alternatives rest' [c] 0)).
        { apply IH. left. split; [reflexivity|].
          cbn [noMatchIn app]. split; [exact Hc | exact I]. }
        destruct segment as [|s0 s]; [exact Hnext|].
        cbn [scanned]. split; [|split; [left; reflexivity | exact Hnext]].
        rewrite splitLoop_concat. cbn [skipn app]. exact Hseg.
      * cbn [scanned]. split; [|split].
        -- rewrite splitLoop_concat. cbn [app].
           change (skipn n rest') with (skipn (S n) (c :: rest')).
           rewrite firstn_skipn. exact Hseg.
        -- right.
           destruct (execAt_Some canonicalize alternatives (c :: rest') He)
             as [h [Hin [Hm Hlen]]].
           exists h. split; [exact Hin|]. rewrite Hlen.
           apply matchLiteral_firstn. exact Hm.
        -- apply IH. right. reflexivity.
      * apply IH. left. split; [reflexivity|].
        apply noMatchIn_snoc; [exact Hseg|].
        apply execAt_no_match. left. exact He.
    + cbn [splitLoop]. apply IH.
      destruct H as [[H _] | ->]; [discriminate | right; reflexivity].
Qed.

Lemma split_scanned (text : jsstring) :
  scanned canonicalize alternatives (split canonicalize alternatives text).
Proof.
  unfold split. destruct text as [|c r].
  - destruct (execAt canonicalize alternatives []); cbn; exact I.
  - apply splitLoop_scanned. right. reflexivity.
Qed.
End ScanProperties.

Lemma rendered_text (toLowerCase : jsstring -> jsstring)
    (phrases parts : list jsstring) :
  List.concat
    (List.map segmentText
       (List.map (renderPart toLowerCase phrases) (filter nonEmpty parts)))
  = List.concat parts.
Proof.
  rewrite segmentText_renderPart. apply concat_filter_nonEmpty.
Qed.

Section UnmarkedParts.
Variable canonicalize : codeunit -> codeunit.
Variable toLowerCase : jsstring -> jsstring.
Variable phrases : list jsstring.
Variable alternatives : list jsstring.
Hypothesis captures_marked :
  forall c, c <> [] -> isAscii c -> captureOf canonicalize alternatives c ->
            isHighlight toLowerCase phrases c = true.

Lemma render_unmarkedClean (n : nat) :
  forall parts,
    List.length parts <= n ->
    Forall isAscii parts ->
    scanned canonicalize alternatives parts ->
    unmarkedClean canonicalize alternatives
      (List.map (renderPart toLowerCase phrases) (filter nonEmpty parts)).
Proof.
  induction n as [|n IH]; intros parts Hlen Hascii Hscan.
  - destruct parts; [exact I | cbn in Hlen; lia].
  - destruct parts as [|s [|c more]]; [exact I | |].
    + cbn [scanned] in Hscan. cbn [filter].
      destruct s as [|s0 s]; [exact I|].
      cbn [nonEmpty List.map]. unfold renderPart.
      destruct (isHighlight toLowerCase phrases (s0 :: s)); [exact I|].
      cbn [unmarkedClean List.map List.concat]. split; [exact Hscan | exact I].
    + cbn [scanned] in Hscan. destruct Hscan as [Hs [Hc Hmore]].
      apply Forall_cons_iff in Hascii. destruct Hascii as [_ Hascii].
      apply Forall_cons_iff in Hascii. destruct Hascii as [Hca Hascii].
      assert (Hrest : unmarkedClean canonicalize alternatives
                (List.map (renderPart toLowerCase phrases)
                          (filter nonEmpty more))).
      { apply IH; [cbn in Hlen; lia | exact Hascii | exact Hmore]. }
      assert (Hcm : unmarkedClean canonicalize alternatives
                (List.map (renderPart toLowerCase phrases)
                          (filter nonEmpty (c :: more)))).
      { cbn [filter]. destruct c as [|c0 c']; [exact Hrest|].
        cbn [nonEmpty List.map]. unfold renderPart at 1.
        rewrite (captures_marked (c := c0 :: c')); [exact Hrest | | | ];
          [discriminate | exact Hca | exact Hc]. }
      change (filter nonEmpty (s :: c :: more))
        with (if nonEmpty s then s :: filter nonEmpty (c :: more)
              else filter nonEmpty (c :: more)).
      destruct s as [|s0 s]; [exact Hcm|].
      cbn [nonEmpty List.map]. unfold renderPart at 1.
      destruct (isHighlight toLowerCase phrases (s0 :: s)); [exact Hcm|].
      cbn [unmarkedClean]. split; [|exact Hcm].
      rewrite rendered_text. exact Hs.
Qed.
End UnmarkedParts.

(** X26: On ASCII text the component renders, and no occurrence of a
    highlight phrase is left in unmarked text: at no position of an
    unmarked part does a non-empty highlight phrase match the text that
    starts there, whatever the letter case and whatever pattern syntax
    the phrases hold. *)
Theorem unmarked_text_holds_no_match
    (canonicalize : codeunit -> codeunit)
    (toLowerCase : jsstring -> jsstring)
    (text : jsstring) (highlights : list JsValue) :
  (forall c, (c < 128)%N -> canonicalize c = asciiUpper c) ->
  (forall s, isAscii s -> toLowerCase s = asciiToLowerCase s) ->
  isAscii text ->
  Forall isAscii (stringsOf highlights) ->
  exists segments,
    RequirementHighlighter canonicalize toLowerCase text (Some highlights)
    = Some segments
    /\ unmarkedClean canonicalize (uniqueHighlights highlights) segments.
Proof.
  intros Hcan Hlow Htext Hhs.
  destruct (highlighter_renders canonicalize toLowerCase text
              (Some highlights)) as [segments R].
  exists segments. split; [exact R|].
  destruct highlights as [|v hs].
  - injection R as <-. cbn [unmarkedClean]. split; [|exact I].
    clear. generalize (List.concat (List.map segmentText [])).
    intros after. induction text as [|c r IH]; [exact I|].
    cbn [noMatchIn]. split; [|exact IH]. intros h [].
  - rewrite RequirementHighlighter_cons in R. injection R as <-.
    set (highlights := v :: hs) in *.
    set (phrases := uniqueHighlights highlights).
    assert (Hascii : forall h, In h phrases -> isAscii h).
    { intros h Hh. rewrite Forall_forall in Hhs. apply Hhs.
      apply stringsOf_In. apply uniqueHighlights_In. exact Hh. }
    assert (Hsub : forall h, h <> [] -> In h (alternativesOf phrases) ->
                             In h phrases).
    { intros h Hne Hin. destruct phrases; [|exact Hin].
      destruct Hin as [<- | []]. congruence. }
    assert (Hclean :
      unmarkedClean canonicalize (alternativesOf phrases)
        (List.map (renderPart toLowerCase phrases)
           (filter nonEmpty
              (split canonicalize (alternativesOf phrases) text)))).
    { apply (@render_unmarkedClean canonicalize toLowerCase phrases
               (alternativesOf phrases)) with
        (n := List.length (split canonicalize (alternativesOf phrases) text)).
      - intros c Hne Hc [E | [h [Hin Hmap]]]; [congruence|].
        assert (Hhne : h <> []).
        { intros ->. destruct c; [congruence | discriminate]. }
        assert (Hp : In h phrases) by (apply Hsub; assumption).
        unfold isHighlight. apply existsb_exists. exists h.
        split; [exact Hp|]. apply jsstring_eqb_eq.
        rewrite (Hlow h (Hascii h Hp)), (Hlow c Hc).
        apply upper_equal_lower_equal.
        rewrite <- (map_ascii canonicalize Hcan (Hascii h Hp)).
        rewrite <- (map_ascii canonicalize Hcan Hc). symmetry. exact Hmap.
      - apply le_n.
      - apply isAscii_concat. rewrite split_concat. exact Htext.
      - apply split_scanned. apply alternativesOf_sorted.
        apply uniqueHighlights_sorted. }
    revert Hclean.
    generalize (List.map (renderPart toLowerCase phrases)
                  (filter nonEmpty
                     (split canonicalize (alternativesOf phrases) text))).
    intros segs. induction segs as [|[p|p] more IH]; [auto | |];
      cbn [unmarkedClean].
    + exact IH.
    + intros [H1 H2]. split; [|apply IH; exact H2].
      apply (@noMatchIn_phrases canonicalize (alternativesOf phrases)
               phrases p (List.concat (List.map segmentText more)));
        [|exact H1].
      intros h Hne Hin. destruct phrases; [contradiction | exact Hin].
Qed.

Lemma unmarked_text_holds_no_match_witness :
  exists segments,
    RequirementHighlighter asciiUpper asciiToLowerCase formulaText
                           (Some formulaHighlights)
    = Some segments
    /\ unmarkedClean asciiUpper (uniqueHighlights formulaHighlights)
                     segments.
Proof.
  apply (@unmarked_text_holds_no_match asciiUpper asciiToLowerCase
           formulaText formulaHighlights
           (fun c _ => eq_refl) (fun s _ => eq_refl)
           (isAscii_check formulaText eq_refl)).
  repeat constructor; apply isAscii_check; reflexivity.
Defined.

(* ================================================================= *)
(** ** The schema display *)


Lemma field_is_not_collection (a b : jsstring) :
  jsstring_eqb (js "field-" ++ a) (js "collection-" ++ b) = false.
Proof. apply jsstring_eqb_neq. discriminate. Qed.


Lemma collection_starts_not_field (a b : jsstring) :
  startsWith (js "collection-" ++ a) (js "field-" ++ b) = false.
Proof.
  unfold startsWith. apply jsstring_eqb_neq.
  cbn. discriminate.
Qed.


Lemma startsWith_spec (s prefix : jsstring) :
  startsWith s prefix = true <-> exists rest, s = prefix ++ rest.
Proof.
  unfold startsWith. rewrite jsstring_eqb_eq. split.
  - intros H. exists (skipn (List.length prefix) s).
    rewrite <- H at 1. symmetry. apply firstn_skipn.
  - intros [rest ->]. rewrite firstn_app, Nat.sub_diag, firstn_all.
    cbn [firstn]. apply app_nil_r.
Qed.

Lemma split_at_first (x : codeunit) (a b r r' : jsstring) :
  ~ In x a -> ~ In x b -> a ++ x :: r = b ++ x :: r' -> a = b.
Proof.
  revert b. induction a as [|y a IH]; intros b Ha Hb E.
  - destruct b as [|z b]; [reflexivity|].
    cbn in E. injection E as -> _. exfalso. apply Hb. left. reflexivity.
  - destruct b as [|z b].
    + cbn in E. injection E as -> _. exfalso. apply Ha. left. reflexivity.
    + cbn in E. injection E as -> E. f_equal.
      apply IH; [| |exact E].
      * intros H. apply Ha. right. exact H.
      * intros H. apply Hb. right. exact H.
Qed.

(** X19: For collection names without a hyphen, hovering a field or a
    collection draws active exactly the collections that carry the name
    of the hovered one. *)
Theorem same_named_collections_are_active
    (templateString : JsValue -> jsstring)
    (c c' : Collection) (f : Field) :
  ~ In 45%N (templateString (cName c)) ->
  ~ In 45%N (templateString (cName c')) ->
  (isCollectionActive templateString
     (Some (fieldHover templateString c f)) c' = true
   <-> templateString (cName c) = templateString (cName c'))
  /\ (isCollectionActive templateString
        (Some (handleCollectionHover templateString c)) c' = true
      <-> templateString (cName c) = templateString (cName c')).
Proof.
  intros Hc Hc'.
  unfold isCollectionActive, fieldHover, handleCollectionHover,
    fieldId, collectionId.
  cbn [heId]. split.
  - rewrite field_is_not_collection. cbn [orb]. rewrite startsWith_spec.
    split.
    + intros [rest E]. rewrite <- !app_assoc in E.
      apply app_inv_head in E.
      apply (@split_at_first 45%N _ _ _ _ Hc Hc' E).
    + intros <-. exists (templateString (fName f)).
      rewrite <- !app_assoc. reflexivity.
  - rewrite collection_starts_not_field, orb_false_r, jsstring_eqb_eq.
    split.
    + intros E. apply app_inv_head in E. exact E.
    + intros ->. reflexivity.
Qed.

Lemma same_named_collections_are_active_witness :
  (isCollectionActive sampleTemplate
     (Some (fieldHover sampleTemplate
              (collection "users" []) (field "id" "String")))
     (collection "posts" []) = true
   <-> sampleTemplate (cName (collection "users" []))
       = sampleTemplate (cName (collection "posts" [])))
  /\ (isCollectionActive sampleTemplate
        (Some (handleCollectionHover sampleTemplate
                 (collection "users" [])))
        (collection "posts" []) = true
      <-> sampleTemplate (cName (collection "users" []))
          = sampleTemplate (cName (collection "posts" []))).
Proof.
  apply (@same_named_collections_are_active sampleTemplate
           (collection "users" []) (collection "posts" [])
           (field "id" "String")).
  - vm_compute. intuition discriminate.
  - vm_compute. intuition discriminate.
Defined.

(* ================================================================= *)
(** ** Schema generation and the page *)

Lemma allWhiteSpace_trimStart (s : jsstring) :
  allWhiteSpace s -> trimStart s = [].
Proof.
  induction 1 as [|c r Hc _ IH]; [reflexivity|].
  cbn [trimStart]. rewrite Hc. exact IH.
Qed.

Lemma trim_blank (s : jsstring) : trim s = [] <-> allWhiteSpace s.
Proof.
  split.
  - intros H. destruct (trim_split s) as [pre [post [E [H1 H2]]]].
    rewrite H in E. cbn [app] in E. rewrite E.
    unfold allWhiteSpace in *. apply Forall_app. auto.
  - intros H. unfold trim. rewrite (allWhiteSpace_trimStart H). reflexivity.
Qed.

Ltac page_fields :=
  cbn [requirements generatedSchema pageJustification isLoading error
       hoveredElement fontSize robustness isRobustnessModalOpen generating
       tests].

Section PageProperties.
Variable localeCompare : jsstring -> jsstring -> Z.
Variable templateString : JsValue -> jsstring.
Variable emptyJsonMessage : jsstring.
Variable nullResponseMessage : jsstring.

Lemma collectionAt_In (p : Page) (i : nat) (c : Collection) :
  collectionAt p i = Some c ->
  exists s, generatedSchema p = Some s /\ In c (collectionsOf s).
Proof.
  unfold collectionAt. destruct (generatedSchema p) as [s|]; [|discriminate].
  intros H. exists s. split; [reflexivity|].
  apply (nth_error_In _ _ H).
Qed.

Lemma fieldAt_In (p : Page) (i j : nat) (c : Collection) (f : Field) :
  fieldAt p i j = Some (c, f) ->
  exists s, generatedSchema p = Some s /\ In c (collectionsOf s)
            /\ In f (fieldsOf c).
Proof.
  unfold fieldAt. destruct (collectionAt p i) as [c0|] eqn:Ec; [|discriminate].
  destruct (nth_error (fieldsOf c0) j) as [f0|] eqn:Ef; [|discriminate].
  intros H. injection H as <- <-.
  destruct (collectionAt_In p i Ec) as [s [Hs Hin]].
  exists s. split; [exact Hs|]. split; [exact Hin|].
  apply (nth_error_In _ _ Ef).
Qed.

Lemma initialPage_invariant : pageInvariant templateString initialPage.
Proof.
  unfold pageInvariant, initialPage. cbn.
  split; [reflexivity|]. split; [discriminate|].
  split; [reflexivity|]. split; [auto|]. discriminate.
Qed.

Lemma hover_invariant (p : Page) (s : Schema) (h : HoveredElement) :
  pageInvariant templateString p ->
  generatedSchema p = Some s -> elementOf templateString s h ->
  pageInvariant templateString (handleHover p (Some h)).
Proof.
  intros (HA & HB & HC & HD & HE) Hs Hel.
  unfold pageInvariant, handleHover. page_fields.
  split; [exact HA|]. split; [exact HB|]. split; [exact HC|].
  split.
  - intros E. congruence.
  - intros h0 E. injection E as <-. exists s. auto.
Qed.

Lemma unhover_invariant (p : Page) :
  pageInvariant templateString p ->
  pageInvariant templateString (handleHover p None).
Proof.
  intros (HA & HB & HC & HD & HE).
  unfold pageInvariant, handleHover. page_fields.
  split; [exact HA|]. split; [exact HB|]. split; [exact HC|].
  split.
  - intros E. split; [reflexivity | apply HD; exact E].
  - discriminate.
Qed.

Lemma stepPage_invariant (p : Page) (e : PageEvent) :
  pageInvariant templateString p ->
  pageInvariant templateString
    (stepPage localeCompare templateString emptyJsonMessage
              nullResponseMessage p e).
Proof.
  intros Inv. pose proof Inv as (HA & HB & HC & HD & HE).
  destruct e; cbn [stepPage].
  - (* ChangeRequirements *)
    destruct (generatedSchema p) eqn:Es; [exact Inv|].
    unfold pageInvariant. page_fields. rewrite ?Es in *.
    split; [exact HA|]. split; [exact HB|]. split; [congruence|].
    split; [exact HD | exact HE].
  - (* ClickGenerate *)
    destruct (generatedSchema p) eqn:Es; [exact Inv|].
    destruct (isLoading p) eqn:El; [exact Inv|].
    unfold handleGenerateSchema.
    destruct (trim (requirements p)).
    + unfold pageInvariant. page_fields. rewrite ?Es, ?El in *.
      split; [exact HA|]. split; [discriminate|].
      split; [congruence|]. split; [exact HD | exact HE].
    + unfold pageInvariant, resetRobustnessState. page_fields.
      rewrite ?Es, ?El in *. rewrite HA.
      split; [reflexivity|]. split; [auto|]. split; [congruence|].
      split; [auto | discriminate].
  - (* GenerationSettles *)
    destruct (generating p) as [|k] eqn:Eg; [exact Inv|].
    destruct (generateSchemaFromRequirements emptyJsonMessage result)
      as [outcome|]; [|exact Inv].
    assert (El : isLoading p = true).
    { destruct (isLoading p); [reflexivity | discriminate]. }
    rewrite El in HA. destruct (HB El) as [Es Ee].
    destruct (HD Es) as [Hh Hm].
    assert (Hk : k = 0) by lia. subst k.
    unfold afterGeneration.
    destruct outcome as [message | [response|]];
      unfold pageInvariant; page_fields; rewrite ?Eg, ?Es, ?Ee, ?Hh, ?Hm;
      cbn [pred];
      (split; [reflexivity|]); (split; [discriminate|]).
    + split; [congruence|]. split; [auto | discriminate].
    + split; [reflexivity|]. split; [auto | discriminate].
    + split; [congruence|]. split; [auto | discriminate].
  - (* ClickEdit *)
    destruct (generatedSchema p) eqn:Es; [|exact Inv].
    unfold handleEditRequirements, resetRobustnessState, pageInvariant.
    page_fields. rewrite ?Es.
    split; [exact HA|]. split; [auto|]. split; [congruence|].
    split; [auto | discriminate].
  - (* ClickTest *)
    destruct (generatedSchema p) eqn:Es; [|exact Inv].
    destruct (isTestingRobustness (robustness p)); [exact Inv|].
    unfold handleRobustnessTest, pageInvariant. page_fields. rewrite ?Es.
    split; [exact HA|]. split; [exact HB|]. split; [exact HC|].
    split; [exact HD | exact HE].
  - (* TestSettles *)
    unfold afterTestSettles.
    destruct (nth_error (tests p) test) as [[cs suspended]|]; [|exact Inv].
    destruct (nth_error cs index) as [[| |]|]; try exact Inv;
      destruct result; try exact Inv;
      unfold pageInvariant; page_fields;
      (split; [exact HA|]); (split; [exact HB|]); (split; [exact HC|]);
      (split; [exact HD | exact HE]).
  - (* EnterCollection *)
    destruct (collectionAt p i) as [c|] eqn:Ec; [|exact Inv].
    destruct (collectionAt_In p i Ec) as [s [Hs Hin]].
    apply (hover_invariant Inv Hs). exists c. auto.
  - (* LeaveCollection *)
    destruct (collectionAt p i); [|exact Inv].
    apply unhover_invariant. exact Inv.
  - (* EnterField *)
    destruct (fieldAt p i j) as [[c f]|] eqn:Ef; [|exact Inv].
    destruct (fieldAt_In p i j Ef) as [s [Hs [Hin Hf]]].
    apply (hover_invariant Inv Hs). exists c. split; [exact Hin|].
    right. exists f. auto.
  - (* LeaveField *)
    destruct (fieldAt p i j) as [[c f]|] eqn:Ef; [|exact Inv].
    destruct (fieldAt_In p i j Ef) as [s [Hs [Hin Hf]]].
    apply (hover_invariant Inv Hs). exists c. auto.
  - (* ChangeFontSize *)
    destruct (generatedSchema p) eqn:Es; [|exact Inv].
    destruct ((12 <=? value) && (value <=? 24))%Z; [|exact Inv].
    unfold pageInvariant. page_fields. rewrite ?Es.
    split; [exact HA|]. split; [exact HB|]. split; [exact HC|].
    split; [exact HD | exact HE].
  - (* ClickViewComparison *)
    destruct (generatedSchema p) eqn:Es; [|exact Inv].
    destruct (robustnessScore (robustness p)); [|exact Inv].
    destruct (robustnessComparisonGroups (robustness p)); [exact Inv|].
    unfold pageInvariant. page_fields. rewrite ?Es.
    split; [exact HA|]. split; [exact HB|]. split; [exact HC|].
    split; [congruence | exact HE].
  - (* CloseModal *)
    destruct (isRobustnessModalOpen p); [|exact Inv].
    unfold pageInvariant. page_fields.
    split; [exact HA|]. split; [exact HB|]. split; [exact HC|].
    split; [|exact HE].
    intros E. split; [apply HD; exact E | reflexivity].
Qed.

Lemma runPage_invariant (events : list PageEvent) :
  pageInvariant templateString
    (runPage localeCompare templateString emptyJsonMessage
             nullResponseMessage events).
Proof.
  unfold runPage.
  assert (G : forall p, pageInvariant templateString p ->
            pageInvariant templateString
              (fold_left (stepPage localeCompare templateString
                            emptyJsonMessage nullResponseMessage)
                         events p)).
  { induction events as [|e r IH]; intros p Hp; [exact Hp|].
    cbn [fold_left]. apply IH. apply stepPage_invariant. exact Hp. }
  apply G. apply initialPage_invariant.
Qed.
End PageProperties.

(** X20: At most one generation call is in flight, and the page shows one
    thing at a time: the loading state exactly while that call is
    pending, and then neither a schema nor an error; a schema never
    together with an error. *)
Theorem one_generation_at_a_time
    (localeCompare : jsstring -> jsstring -> Z)
    (templateString : JsValue -> jsstring)
    (emptyJsonMessage nullResponseMessage : jsstring)
    (events : list PageEvent) :
  let p := runPage localeCompare templateString emptyJsonMessage
                   nullResponseMessage events in
  generating p <= 1
  /\ (isLoading p = true <-> generating p = 1)
  /\ (isLoading p = true -> generatedSchema p = None /\ error p = None)
  /\ (generatedSchema p <> None -> error p = None /\ isLoading p = false).
Proof.
  intros p.
  destruct (runPage_invariant localeCompare templateString emptyJsonMessage
              nullResponseMessage events) as (HA & HB & HC & HD & HE).
  fold p in HA, HB, HC, HD, HE.
  split; [|split; [|split]].
  - rewrite HA. destruct (isLoading p); lia.
  - rewrite HA. destruct (isLoading p); split; congruence.
  - exact HB.
  - intros Hs. split; [apply HC; exact Hs|].
    destruct (isLoading p) eqn:El; [|reflexivity].
    destruct (HB eq_refl) as [E _]. contradiction.
Qed.

(** X21: What is highlighted always belongs to the schema on the page:
    the hovered element, when there is one, was built from a collection
    of the shown schema or from one of its fields, so the highlights are
    its relevantRequirements; while no schema is shown nothing is hovered,
    no highlight is given and the comparison modal is closed. *)
Theorem highlights_belong_to_the_shown_schema
    (localeCompare : jsstring -> jsstring -> Z)
    (templateString : JsValue -> jsstring)
    (emptyJsonMessage nullResponseMessage : jsstring)
    (events : list PageEvent) :
  let p := runPage localeCompare templateString emptyJsonMessage
                   nullResponseMessage events in
  (generatedSchema p = None ->
   hoveredElement p = None /\ highlightsOf p = []
   /\ isRobustnessModalOpen p = false)
  /\ (forall h, hoveredElement p = Some h ->
        exists s, generatedSchema p = Some s
                  /\ elementOf templateString s h)
  /\ (highlightsOf p = []
      \/ exists s c,
           generatedSchema p = Some s /\ In c (collectionsOf s)
           /\ (highlightsOf p = cRelevantRequirements c
               \/ exists f, In f (fieldsOf c)
                            /\ highlightsOf p = fRelevantRequirements f)).
Proof.
  intros p.
  destruct (runPage_invariant localeCompare templateString emptyJsonMessage
              nullResponseMessage events) as (HA & HB & HC & HD & HE).
  fold p in HA, HB, HC, HD, HE.
  split; [|split].
  - intros Hs. destruct (HD Hs) as [Hh Hm]. unfold highlightsOf.
    rewrite Hh. auto.
  - exact HE.
  - unfold highlightsOf. destruct (hoveredElement p) as [h|] eqn:Eh;
      [|left; reflexivity].
    destruct (HE h eq_refl) as [s [Hs [c [Hin Hc]]]].
    right. exists s, c. split; [exact Hs|]. split; [exact Hin|].
    destruct Hc as [-> | [f [Hf ->]]].
    + left. reflexivity.
    + right. exists f. split; [exact Hf | reflexivity].
Qed.

(** X22: With requirements that are empty or all white space the
    Generate button only sets the error message: no call is made and
    nothing else on the page changes.  With any other requirements it
    starts a call and puts the page in its loading state. *)
Theorem blank_requirements_are_refused
    (localeCompare : jsstring -> jsstring -> Z)
    (templateString : JsValue -> jsstring)
    (emptyJsonMessage nullResponseMessage : jsstring) (p : Page) :
  generatedSchema p = None -> isLoading p = false ->
  let p' := stepPage localeCompare templateString emptyJsonMessage
                     nullResponseMessage p ClickGenerate in
  (allWhiteSpace (requirements p) ->
   p' = mkPage (requirements p) None (pageJustification p) false
               (Some (js "Please provide your application requirements."))
               (hoveredElement p) (fontSize p) (robustness p)
               (isRobustnessModalOpen p) (generating p) (tests p))
  /\ (~ allWhiteSpace (requirements p) ->
      isLoading p' = true /\ generating p' = S (generating p)
      /\ error p' = None /\ generatedSchema p' = None).
Proof.
  intros Hs Hl p'. subst p'. cbn [stepPage]. rewrite Hs, Hl.
  unfold handleGenerateSchema. split.
  - intros Hb. apply trim_blank in Hb. rewrite Hb, Hs, Hl. reflexivity.
  - intros Hn. destruct (trim (requirements p)) eqn:Et.
    + exfalso. apply Hn. apply trim_blank. exact Et.
    + unfold resetRobustnessState. page_fields. auto.
Qed.

Lemma blank_requirements_are_refused_witness :
  (allWhiteSpace (requirements blankPage) ->
   stepPage codeUnitCompare sampleTemplate [] [] blankPage ClickGenerate
   = mkPage (requirements blankPage) None (pageJustification blankPage)
            false
            (Some (js "Please provide your application requirements."))
            (hoveredElement blankPage) (fontSize blankPage)
            (robustness blankPage) (isRobustnessModalOpen blankPage)
            (generating blankPage) (tests blankPage))
  /\ (~ allWhiteSpace (requirements blankPage) ->
      isLoading (stepPage codeUnitCompare sampleTemplate [] [] blankPage
                          ClickGenerate) = true
      /\ generating (stepPage codeUnitCompare sampleTemplate [] [] blankPage
                              ClickGenerate)
         = S (generating blankPage)
      /\ error (stepPage codeUnitCompare sampleTemplate [] [] blankPage
                         ClickGenerate) = None
      /\ generatedSchema (stepPage codeUnitCompare sampleTemplate [] []
                                   blankPage ClickGenerate) = None).
Proof.
  apply (@blank_requirements_are_refused codeUnitCompare sampleTemplate
           [] [] blankPage); reflexivity.
Defined.

(** X23: A generation ends the loading state in one of two ways.  A
    response that the page can render (no schema at all, or a schema
    whose collections and their fields are there, with names, types and
    justification that are no objects) puts its schema and its
    justification on the page, with no error.  A rejected call, a text that is empty or does
    not parse, and a response that is null leave no schema and set the
    error: the reason prefixed by Failed to generate schema, the fixed
    unknown-error text for a reason that is no Error, and for a null
    response the host's own message without prefix. *)
Theorem generation_outcomes
    (localeCompare : jsstring -> jsstring -> Z)
    (templateString : JsValue -> jsstring)
    (emptyJsonMessage nullResponseMessage : jsstring)
    (events : list PageEvent) (result : CallState) :
  let go := stepPage localeCompare templateString emptyJsonMessage
                     nullResponseMessage in
  let p := runPage localeCompare templateString emptyJsonMessage
                   nullResponseMessage events in
  generatedSchema p = None -> isLoading p = false ->
  ~ allWhiteSpace (requirements p) ->
  isPending result = false ->
  let p2 := go (go p ClickGenerate) (GenerationSettles result) in
  isLoading p2 = false /\ generating p2 = 0
  /\ requirements p2 = requirements p
  /\ robustness p2 = mkUi false None None []
  /\ match result with
     | Fulfilled (JsonText (Some response)) =>
         responseDisplayable response = true ->
         generatedSchema p2 = schema response
         /\ pageJustification p2 = justification response
         /\ error p2 = None
     | Fulfilled (JsonText None) =>
         generatedSchema p2 = None /\ error p2 = Some nullResponseMessage
     | Fulfilled EmptyText =>
         generatedSchema p2 = None
         /\ error p2
            = Some (js "Failed to generate schema: " ++ emptyJsonMessage)
     | Fulfilled (ThrowingText message) =>
         generatedSchema p2 = None
         /\ error p2 = Some (js "Failed to generate schema: " ++ message)
     | Rejected (Some message) =>
         generatedSchema p2 = None
         /\ error p2 = Some (js "Failed to generate schema: " ++ message)
     | Rejected None =>
         generatedSchema p2 = None
         /\ error p2
            = Some (js "An unknown error occurred while generating the schema.")
     | Pending => True
     end.
Proof.
  intros go p Hs Hl Hn Hr p2.
  destruct (runPage_invariant localeCompare templateString emptyJsonMessage
              nullResponseMessage events) as (HA & _).
  fold p in HA. rewrite Hl in HA.
  assert (E1 : go p ClickGenerate
               = mkPage (requirements p) None (JStr []) true None None
                        (fontSize p) (mkUi false None None []) false 1
                        (tests p)).
  { unfold go. cbn [stepPage]. rewrite Hs, Hl. unfold handleGenerateSchema.
    destruct (trim (requirements p)) eqn:Et.
    - exfalso. apply Hn. apply trim_blank. exact Et.
    - unfold resetRobustnessState. page_fields. rewrite HA. reflexivity. }
  subst p2. rewrite E1. unfold go. cbn [stepPage]. page_fields.
  destruct result as [|[|message|[response|]]|[message|]];
    try discriminate Hr;
    cbn [generateSchemaFromRequirements afterGeneration generationError];
    page_fields; cbn [pred]; auto 10.
Qed.

Lemma generation_outcomes_witness :
  isLoading (runPage codeUnitCompare sampleTemplate [] [] generateUsers)
  = false
  /\ generatedSchema
       (runPage codeUnitCompare sampleTemplate [] [] generateUsers)
     = Some usersOnce
  /\ error (runPage codeUnitCompare sampleTemplate [] [] generateUsers)
     = None.
Proof.
  pose proof (@generation_outcomes codeUnitCompare sampleTemplate [] [] []
                (Fulfilled (JsonText (Some usersResponse)))) as H.
  cbv zeta in H.
  assert (Hn : ~ allWhiteSpace
                 (requirements (runPage codeUnitCompare sampleTemplate
                                        [] [] []))).
  { intros Hb. apply Forall_inv in Hb. discriminate Hb. }
  destruct (H eq_refl eq_refl Hn eq_refl) as (H1 & _ & _ & _ & Hshown).
  destruct (Hshown eq_refl) as (H5 & _ & H7).
  split; [exact H1|]. split; [exact H5 | exact H7].
Defined.

(** X24: Edit Requirements brings back the input page: no schema, no
    justification, no error, nothing hovered, not loading, the robustness
    results cleared and the modal closed.  Only the requirements text and
    the font size are kept; robustness tests in flight are not
    cancelled. *)
Theorem edit_returns_to_the_input_page
    (localeCompare : jsstring -> jsstring -> Z)
    (templateString : JsValue -> jsstring)
    (emptyJsonMessage nullResponseMessage : jsstring)
    (events : list PageEvent) :
  let p := runPage localeCompare templateString emptyJsonMessage
                   nullResponseMessage events in
  generatedSchema p <> None ->
  stepPage localeCompare templateString emptyJsonMessage
           nullResponseMessage p ClickEdit
  = mkPage (requirements p) None (JStr []) false None None (fontSize p)
           (mkUi false None None []) false 0 (tests p).
Proof.
  intros p Hs.
  destruct (runPage_invariant localeCompare templateString emptyJsonMessage
              nullResponseMessage events) as (HA & HB & _).
  fold p in HA, HB.
  assert (Hl : isLoading p = false).
  { destruct (isLoading p) eqn:El; [|reflexivity].
    destruct (HB eq_refl) as [E _]. contradiction. }
  rewrite Hl in HA. cbn [stepPage].
  destruct (generatedSchema p) eqn:Es; [|congruence].
  unfold handleEditRequirements, resetRobustnessState. page_fields.
  rewrite Hl, HA. reflexivity.
Qed.

Lemma edit_returns_to_the_input_page_witness :
  stepPage codeUnitCompare sampleTemplate [] []
           (runPage codeUnitCompare sampleTemplate [] [] generateUsers)
           ClickEdit
  = mkPage placeholderRequirements None (JStr []) false None None 16
           (mkUi false None None []) false 0 [].
Proof.
  apply (@edit_returns_to_the_input_page codeUnitCompare sampleTemplate
           [] [] generateUsers).
  discriminate.
Defined.

(* ================================================================= *)
(** ** Robustness tests on the page *)

Lemma setNth_app_left (A : Type) (i : nat) (x : A) (l1 l2 : list A) :
  i < List.length l1 -> setNth i x (l1 ++ l2) = setNth i x l1 ++ l2.
Proof.
  revert i. induction l1 as [|y r IH]; intros i H; cbn [List.length] in H;
    [lia|].
  destruct i as [|j]; cbn [setNth app]; [reflexivity|].
  rewrite IH; [reflexivity | lia].
Qed.

Lemma setNth_app_last (A : Type) (x y : A) (l : list A) :
  setNth (List.length l) x (l ++ [y]) = l ++ [x].
Proof.
  induction l as [|z r IH]; cbn [List.length setNth app]; [reflexivity|].
  rewrite IH. reflexivity.
Qed.

Section TestingProperties.
Variable localeCompare : jsstring -> jsstring -> Z.
Variable templateString : JsValue -> jsstring.
Variable emptyJsonMessage : jsstring.
Variable nullResponseMessage : jsstring.

Lemma other_test_settles (p : Page) (test : nat)
    (entry : list CallState * bool) (u : UiState) :
  testingInvariant p ->
  isTestingRobustness u = isTestingRobustness (robustness p) ->
  (forall cs, nth_error (tests p) test <> Some (cs, true)) ->
  testingInvariant
    (mkPage (requirements p) (generatedSchema p) (pageJustification p)
            (isLoading p) (error p) (hoveredElement p) (fontSize p)
            u (isRobustnessModalOpen p) (generating p)
            (setNth test entry (tests p))).
Proof.
  intros Inv Hu Hne. unfold testingInvariant. page_fields.
  rewrite Hu. intros Hflag.
  destruct (Inv Hflag) as [Hs [earlier [cs [E [Hlen [Hrej Hpen]]]]]].
  split; [exact Hs|].
  rewrite E in *.
  destruct (Nat.lt_trichotomy test (List.length earlier)) as [Hlt | [Heq | Hgt]].
  - exists (setNth test entry earlier), cs.
    rewrite (setNth_app_left _ _ _ Hlt). auto.
  - exfalso. apply (Hne cs). subst test.
    rewrite nth_error_app2, Nat.sub_diag; [reflexivity | lia].
  - exists earlier, cs. split; [|auto].
    assert (Hnone : nth_error (earlier ++ [(cs, true)]) test = None).
    { apply nth_error_None. rewrite length_app. cbn [List.length]. lia. }
    clear - Hnone. revert test Hnone.
    induction (earlier ++ [(cs, true)]) as [|y r IH]; intros test Hnone.
    + destruct test; reflexivity.
    + destruct test as [|j]; [discriminate|].
      cbn [setNth]. f_equal. apply IH. exact Hnone.
Qed.

Lemma stepPage_testing (p : Page) (e : PageEvent) :
  pageInvariant templateString p ->
  testingInvariant p ->
  testingInvariant
    (stepPage localeCompare templateString emptyJsonMessage
              nullResponseMessage p e).
Proof.
  intros (HA & HB & _) Inv. destruct e; cbn [stepPage].
  - destruct (generatedSchema p) eqn:Es; [exact Inv|].
    unfold testingInvariant in *. page_fields. rewrite ?Es in *. exact Inv.
  - destruct (generatedSchema p); [exact Inv|].
    destruct (isLoading p); [exact Inv|].
    unfold handleGenerateSchema. destruct (trim (requirements p)).
    + exact Inv.
    + unfold testingInvariant, resetRobustnessState. page_fields.
      cbn [isTestingRobustness]. discriminate.
  - destruct (generating p) as [|k] eqn:Eg; [exact Inv|].
    destruct (generateSchemaFromRequirements emptyJsonMessage result)
      as [outcome|]; [|exact Inv].
    assert (El : isLoading p = true).
    { destruct (isLoading p); [reflexivity | discriminate]. }
    destruct (HB El) as [Es _].
    unfold testingInvariant. intros Hflag. exfalso.
    assert (Hflag' : isTestingRobustness (robustness p) = true).
    { destruct outcome as [message | [response|]]; exact Hflag. }
    destruct (Inv Hflag') as [Hs _]. contradiction.
  - destruct (generatedSchema p); [|exact Inv].
    unfold testingInvariant, handleEditRequirements, resetRobustnessState.
    page_fields. cbn [isTestingRobustness]. discriminate.
  - destruct (generatedSchema p) eqn:Es; [|exact Inv].
    destruct (isTestingRobustness (robustness p)); [exact Inv|].
    unfold testingInvariant, handleRobustnessTest. page_fields.
    intros _. split; [congruence|].
    exists (tests p), [Pending; Pending; Pending; Pending; Pending].
    split; [reflexivity|]. split; [reflexivity|].
    split; [repeat constructor | left; reflexivity].
  - unfold afterTestSettles.
    destruct (nth_error (tests p) test) as [[cs' suspended]|] eqn:Et;
      [|exact Inv].
    destruct (nth_error cs' index) as [[| |]|] eqn:Ei; try exact Inv;
      destruct result as [|text|reason]; try exact Inv;
      unfold afterSettle; cbn [awaiting ui calls];
      destruct suspended.
    + (* a suspended test receives a text *)
      destruct (fulfilledTexts (setNth index (Fulfilled text) cs')) eqn:Ef.
      * destruct (parseResponses l); cbn [ui calls awaiting];
          unfold testingInvariant; page_fields;
          cbn [failWith succeedWith isTestingRobustness]; discriminate.
      * cbn [ui calls awaiting]. unfold testingInvariant. page_fields.
        intros Hflag.
        destruct (Inv Hflag) as [Hs [earlier [cs [E [Hlen [Hrej Hpen]]]]]].
        split; [exact Hs|].
        rewrite E in *.
        destruct (Nat.lt_trichotomy test (List.length earlier))
          as [Hlt | [Heq | Hgt]].
        -- exists (setNth test
                     (setNth index (Fulfilled text) cs', true) earlier), cs.
           rewrite (setNth_app_left _ _ _ Hlt). auto.
        -- subst test.
           rewrite nth_error_app2, Nat.sub_diag in Et; [|lia].
           cbn [nth_error] in Et. injection Et as <-.
           exists earlier, (setNth index (Fulfilled text) cs).
           rewrite setNth_app_last. split; [reflexivity|].
           split; [rewrite setNth_length; exact Hlen|].
           assert (Hr : Forall (fun c => isRejected c = false)
                               (setNth index (Fulfilled text) cs))
             by (apply setNth_Forall; [reflexivity | exact Hrej]).
           split; [exact Hr|].
           apply fulfilledTexts_None; assumption.
        -- exfalso.
           assert (Hnone : nth_error (earlier ++ [(cs, true)]) test = None).
           { apply nth_error_None. rewrite length_app. cbn [List.length].
             lia. }
           congruence.
    + (* a test that has ended receives a text *)
      cbn [ui calls awaiting].
      apply (@other_test_settles p test _ (robustness p) Inv eq_refl).
      intros cs. rewrite Et. congruence.
    + (* a suspended test sees a call rejected *)
      cbn [ui calls awaiting]. unfold testingInvariant. page_fields.
      cbn [failWith isTestingRobustness]. discriminate.
    + cbn [ui calls awaiting].
      apply (@other_test_settles p test _ (robustness p) Inv eq_refl).
      intros cs. rewrite Et. congruence.
  - destruct (collectionAt p i); exact Inv.
  - destruct (collectionAt p i); exact Inv.
  - destruct (fieldAt p i j) as [[c f]|]; exact Inv.
  - destruct (fieldAt p i j) as [[c f]|]; exact Inv.
  - destruct (generatedSchema p) eqn:Es; [|exact Inv].
    destruct ((12 <=? value) && (value <=? 24))%Z; [|exact Inv].
    unfold testingInvariant in *. page_fields. rewrite ?Es in *. exact Inv.
  - destruct (generatedSchema p) eqn:Es; [|exact Inv].
    destruct (robustnessScore (robustness p)); [|exact Inv].
    destruct (robustnessComparisonGroups (robustness p)); [exact Inv|].
    unfold testingInvariant in *. page_fields. rewrite ?Es in *. exact Inv.
  - destruct (isRobustnessModalOpen p); exact Inv.
Qed.

Lemma runPage_testing (events : list PageEvent) :
  testingInvariant
    (runPage localeCompare templateString emptyJsonMessage
             nullResponseMessage events).
Proof.
  unfold runPage.
  assert (G : forall p, pageInvariant templateString p ->
            testingInvariant p ->
            testingInvariant
              (fold_left (stepPage localeCompare templateString
                            emptyJsonMessage nullResponseMessage)
                         events p)).
  { induction events as [|e r IH]; intros p Hi Hp; [exact Hp|].
    cbn [fold_left]. apply IH.
    - apply stepPage_invariant. exact Hi.
    - apply stepPage_testing; assumption. }
  apply G.
  - apply initialPage_invariant.
  - unfold testingInvariant, initialPage. cbn. discriminate.
Qed.
End TestingProperties.

(** X25: On the whole page, with Edit Requirements and Generate in play,
    the Testing state is never stuck: while the page says that a test
    runs, a schema is shown and the test started last is still waiting,
    with five calls of which none was rejected and at least one is
    pending. *)
Theorem testing_means_calls_are_pending
    (localeCompare : jsstring -> jsstring -> Z)
    (templateString : JsValue -> jsstring)
    (emptyJsonMessage nullResponseMessage : jsstring)
    (events : list PageEvent) :
  let p := runPage localeCompare templateString emptyJsonMessage
                   nullResponseMessage events in
  isTestingRobustness (robustness p) = true ->
  generatedSchema p <> None
  /\ exists earlier cs,
       tests p = earlier ++ [(cs, true)]
       /\ List.length cs = 5
       /\ Forall (fun c => isRejected c = false) cs
       /\ Exists (fun c => isPending c = true) cs.
Proof.
  intros p. apply runPage_testing.
Qed.

Lemma testing_means_calls_are_pending_witness :
  generatedSchema (runPage codeUnitCompare sampleTemplate [] []
                           (generateUsers ++ [ClickTest])) <> None
  /\ exists earlier cs,
       tests (runPage codeUnitCompare sampleTemplate [] []
                      (generateUsers ++ [ClickTest]))
       = earlier ++ [(cs, true)]
       /\ List.length cs = 5
       /\ Forall (fun c => isRejected c = false) cs
       /\ Exists (fun c => isPending c = true) cs.
Proof.
  apply (@testing_means_calls_are_pending codeUnitCompare sampleTemplate
           [] [] (generateUsers ++ [ClickTest])).
  reflexivity.
Defined.

(** A test is not cancelled by Edit Requirements: its result can arrive
    when another schema is on the page, and is then shown with it. *)
Example test_outlives_its_schema :
  let p := runPage codeUnitCompare sampleTemplate [] []
                   testOutlivesItsSchema in
  generatedSchema p = Some blogSchema
  /\ robustnessScore (robustness p) = Some 100%Z
  /\ List.map (fun g => schema (representative g))
              (robustnessComparisonGroups (robustness p))
     = [Some usersOnce].
Proof. vm_compute. auto. Qed.
